(** * Cache-aside response caching: the store facade and its two middlewares

    A shallow embedding of [CacheService] (services/cache.service.ts) and of
    [cacheMiddleware] and [invalidateCache] (the cache middleware module),
    together with the properties the design document states about them.

    Conventions of the embedding.
    - JavaScript values that travel through the cache are [json] values.
      A string is the sequence of the bytes of its UTF-8 form.  A whole
      number that [JSON.stringify] writes with all its digits (one below
      10^21 in absolute value) is an integer; any other number is kept as
      the text [JSON.stringify] writes for it, with its fraction or its
      exponent.  An object is the list of its members in the order in which
      they are enumerated.
    - The numbers [getStats] computes with are binary64: every operation is
      followed by the rounding of its exact result, a rational, to the
      nearest number of the format.
    - The Redis client, the clock and the logger are the environment.  The
      client is a key-value map together with a script of replies that says,
      command by command, how long the command takes and whether it throws.
    - An [async] method that is awaited is a computation in the monad [M]:
      it threads the world and may end in a thrown error.
    - A promise that is started and not awaited (the write-back of a
      response, the invalidation of a pattern) is a [Call] handed to the
      event loop; [run_call] is what the event loop does with it. *)

From Stdlib Require Import ZArith QArith Qround Qabs Qpower Lia Lqa Ascii String.
From Stdlib Require Import Decimal DecimalFacts DecimalN.
From stdpp Require Import base option list strings gmap sorting.

Local Open Scope string_scope.

(* ================================================================== *)
(** * Part I: definitions                                              *)
(* ================================================================== *)

(** ** JSON values, [JSON.stringify] and [JSON.parse] *)

Module JSON.

#[local] Unset Elimination Schemes.

(** [JNum] is a whole number that [JSON.stringify] writes with all its
    digits: a number of the format, below [10^21] in absolute value.  Every
    other number is a [JDec]: it is kept as the text that [JSON.stringify]
    writes for it, with its fraction or its exponent, and the model does not
    compute with it.  The members of a [JObj] are the properties of the
    object in the order in which they are enumerated. *)
Inductive json : Type :=
| JNull
| JBool (b : bool)
| JNum (n : Z)
| JDec (literal : string)
| JStr (s : string)
| JArr (items : list json)
| JObj (members : list (string * json)).

#[local] Set Elimination Schemes.

(** Characters that the grammar names. *)
Definition dquote : ascii := "034"%char.
Definition backslash : ascii := "092"%char.
Definition ch (n : N) : ascii := ascii_of_N n.

Definition is_ws (c : ascii) : bool :=
  let n := N_of_ascii c in
  (n =? 32)%N || (n =? 9)%N || (n =? 10)%N || (n =? 13)%N.

Fixpoint skip_ws (s : string) : string :=
  match s with
  | String c r => if is_ws c then skip_ws r else s
  | EmptyString => EmptyString
  end.

(** *** Strings *)

Definition hex_digit (n : N) : ascii :=
  if (n <? 10)%N then ch (48 + n) else ch (87 + n).

Definition hex_value (c : ascii) : option N :=
  let n := N_of_ascii c in
  if (48 <=? n)%N && (n <=? 57)%N then Some (n - 48)%N
  else if (97 <=? n)%N && (n <=? 102)%N then Some (n - 87)%N
  else if (65 <=? n)%N && (n <=? 70)%N then Some (n - 55)%N
  else None.

(** The two-character escapes of the grammar: the letter after the
    backslash, and the character it stands for. *)
Definition short_escape (c : ascii) : option ascii :=
  let n := N_of_ascii c in
  if (n =? 34)%N then Some dquote
  else if (n =? 92)%N then Some backslash
  else if (n =? 8)%N then Some "b"%char
  else if (n =? 12)%N then Some "f"%char
  else if (n =? 10)%N then Some "n"%char
  else if (n =? 13)%N then Some "r"%char
  else if (n =? 9)%N then Some "t"%char
  else None.

Definition short_unescape (e : ascii) : option ascii :=
  let n := N_of_ascii e in
  if (n =? 34)%N then Some dquote
  else if (n =? 92)%N then Some backslash
  else if (n =? 47)%N then Some "/"%char
  else if (n =? 98)%N then Some (ch 8)
  else if (n =? 102)%N then Some (ch 12)
  else if (n =? 110)%N then Some (ch 10)
  else if (n =? 114)%N then Some (ch 13)
  else if (n =? 116)%N then Some (ch 9)
  else None.

(** [JSON.stringify] on one character of a string. *)
Definition escape_char (c : ascii) : string :=
  match short_escape c with
  | Some e => String backslash (String e EmptyString)
  | None =>
      let n := N_of_ascii c in
      if (n <? 32)%N
      then String backslash (String "u" (String "0" (String "0"
             (String (hex_digit (n / 16)) (String (hex_digit (n mod 16)) EmptyString)))))
      else String c EmptyString
  end.

Fixpoint escape (s : string) : string :=
  match s with
  | EmptyString => EmptyString
  | String c r => escape_char c ++ escape r
  end.

Definition quote (s : string) : string :=
  String dquote (escape s ++ String dquote EmptyString).

Definition hex4 (a b c d : ascii) : option N :=
  match hex_value a, hex_value b, hex_value c, hex_value d with
  | Some x, Some y, Some z, Some w => Some (((x * 16 + y) * 16 + z) * 16 + w)%N
  | _, _, _, _ => None
  end.

(** The bytes of the code point [n] in UTF-8. *)
Definition utf8 (n : N) : string :=
  if (n <? 128)%N then String (ch n) EmptyString
  else if (n <? 2048)%N then
    String (ch (192 + n / 64)) (String (ch (128 + n mod 64)) EmptyString)
  else if (n <? 65536)%N then
    String (ch (224 + n / 4096))
      (String (ch (128 + (n / 64) mod 64)) (String (ch (128 + n mod 64)) EmptyString))
  else
    String (ch (240 + n / 262144))
      (String (ch (128 + (n / 4096) mod 64))
         (String (ch (128 + (n / 64) mod 64)) (String (ch (128 + n mod 64)) EmptyString))).

Definition high_surrogate (n : N) : bool := (55296 <=? n)%N && (n <=? 56319)%N.
Definition low_surrogate (n : N) : bool := (56320 <=? n)%N && (n <=? 57343)%N.
Definition surrogate_pair (hi lo : N) : N := (65536 + (hi - 55296) * 1024 + (lo - 56320))%N.

Definition prepend (c : ascii) (r : option (string * string)) : option (string * string) :=
  match r with
  | Some (body, rest) => Some (String c body, rest)
  | None => None
  end.

Definition prepend_text (t : string) (r : option (string * string))
    : option (string * string) :=
  match r with
  | Some (body, rest) => Some (t ++ body, rest)
  | None => None
  end.

(** The characters of a string literal after its opening quote, up to and
    including the closing quote. *)
Fixpoint parse_chars (s : string) : option (string * string) :=
  match s with
  | EmptyString => None
  | String c r =>
      if Ascii.eqb c dquote then Some (EmptyString, r)
      else if Ascii.eqb c backslash then
        match r with
        | String e r1 =>
            if Ascii.eqb e "u" then
              match r1 with
              | String h1 (String h2 (String h3 (String h4 r2))) =>
                  match hex4 h1 h2 h3 h4 with
                  | Some n =>
                      if high_surrogate n then
                        match r2 with
                        | String b (String u
                            (String l1 (String l2 (String l3 (String l4 r3))))) =>
                            match hex4 l1 l2 l3 l4 with
                            | Some m =>
                                if Ascii.eqb b backslash && Ascii.eqb u "u" && low_surrogate m
                                then prepend_text (utf8 (surrogate_pair n m)) (parse_chars r3)
                                else prepend_text (utf8 n) (parse_chars r2)
                            | None => prepend_text (utf8 n) (parse_chars r2)
                            end
                        | _ => prepend_text (utf8 n) (parse_chars r2)
                        end
                      else prepend_text (utf8 n) (parse_chars r2)
                  | None => None
                  end
              | _ => None
              end
            else
              match short_unescape e with
              | Some c' => prepend c' (parse_chars r1)
              | None => None
              end
        | EmptyString => None
        end
      else if (N_of_ascii c <? 32)%N then None
      else prepend c (parse_chars r)
  end.

(** *** Numbers *)

Fixpoint string_of_uint (d : uint) : string :=
  match d with
  | Nil => EmptyString
  | D0 d => String "0" (string_of_uint d)
  | D1 d => String "1" (string_of_uint d)
  | D2 d => String "2" (string_of_uint d)
  | D3 d => String "3" (string_of_uint d)
  | D4 d => String "4" (string_of_uint d)
  | D5 d => String "5" (string_of_uint d)
  | D6 d => String "6" (string_of_uint d)
  | D7 d => String "7" (string_of_uint d)
  | D8 d => String "8" (string_of_uint d)
  | D9 d => String "9" (string_of_uint d)
  end.

Definition digit_of_char (c : ascii) : option (uint -> uint) :=
  let n := N_of_ascii c in
  if (n =? 48)%N then Some D0 else if (n =? 49)%N then Some D1
  else if (n =? 50)%N then Some D2 else if (n =? 51)%N then Some D3
  else if (n =? 52)%N then Some D4 else if (n =? 53)%N then Some D5
  else if (n =? 54)%N then Some D6 else if (n =? 55)%N then Some D7
  else if (n =? 56)%N then Some D8 else if (n =? 57)%N then Some D9
  else None.

Definition is_digit (c : ascii) : bool :=
  match digit_of_char c with Some _ => true | None => false end.

(** The longest run of digits at the head of [s], and what follows it. *)
Fixpoint take_digits (s : string) : uint * string :=
  match s with
  | String c r =>
      match digit_of_char c with
      | Some k => let (d, rest) := take_digits r in (k d, rest)
      | None => (Nil, s)
      end
  | EmptyString => (Nil, EmptyString)
  end.

(** [0] alone, or a digit run that does not start with [0]. *)
Definition wellformed_int (d : uint) : bool :=
  match d with
  | Nil => false
  | D0 Nil => true
  | D0 _ => false
  | _ => true
  end.

Definition string_of_Z (z : Z) : string :=
  match z with
  | Zneg p => String "-" (string_of_uint (N.to_uint (Npos p)))
  | _ => string_of_uint (N.to_uint (Z.to_N z))
  end.

(** What follows the whole part of a number is not the start of a fraction
    or of an exponent. *)
Definition ends_number (s : string) : bool :=
  match s with
  | EmptyString => true
  | String c _ =>
      let n := N_of_ascii c in
      negb ((n =? 46)%N || (n =? 101)%N || (n =? 69)%N)
  end.

(** An optional fraction: its text, and what follows it. *)
Definition parse_fraction (s : string) : option (string * string) :=
  match s with
  | String c r =>
      if Ascii.eqb c "." then
        match take_digits r with
        | (Nil, _) => None
        | (f, rest) => Some (String c (string_of_uint f), rest)
        end
      else Some (EmptyString, s)
  | EmptyString => Some (EmptyString, EmptyString)
  end.

(** An optional exponent: its text, and what follows it. *)
Definition parse_exponent (s : string) : option (string * string) :=
  match s with
  | String c r =>
      if Ascii.eqb c "e" || Ascii.eqb c "E" then
        let (sign, r1) :=
          match r with
          | String c' r' =>
              if Ascii.eqb c' "+" || Ascii.eqb c' "-"
              then (String c' EmptyString, r') else (EmptyString, r)
          | EmptyString => (EmptyString, EmptyString)
          end in
        match take_digits r1 with
        | (Nil, _) => None
        | (e, rest) => Some (String c (sign ++ string_of_uint e), rest)
        end
      else Some (EmptyString, s)
  | EmptyString => Some (EmptyString, EmptyString)
  end.

(** The digits of a number, after its sign if it has one. *)
Definition parse_unsigned (negative : bool) (s : string) : option (json * string) :=
  let (d, r0) := take_digits s in
  if wellformed_int d then
    match parse_fraction r0 with
    | Some (fraction, r1) =>
        match parse_exponent r1 with
        | Some (exponent, r2) =>
            if String.eqb fraction EmptyString && String.eqb exponent EmptyString
            then Some (JNum (if negative then - Z.of_N (N.of_uint d)
                             else Z.of_N (N.of_uint d)), r2)
            else Some (JDec ((if negative then "-" else EmptyString)
                             ++ string_of_uint d ++ fraction ++ exponent), r2)
        | None => None
        end
    | None => None
    end
  else None.

Definition parse_number (s : string) : option (json * string) :=
  match s with
  | String c r => if Ascii.eqb c "-" then parse_unsigned true r else parse_unsigned false s
  | EmptyString => None
  end.

(** The texts of the numbers that have a fraction or an exponent, by the
    grammar: an optional sign, the whole part, then a fraction, an exponent
    (its marker, its sign if it has one, its digits), or both.
    [JSON.stringify] writes such a text for every number that is not a
    [JNum]. *)
Record Literal : Type := {
  lit_negative : bool;
  lit_whole : uint;
  lit_fraction : option uint;
  lit_exponent : option (ascii * string * uint);
}.

Definition some_digit (d : uint) : bool :=
  match d with
  | Nil => false
  | _ => true
  end.

Definition literal_ok (l : Literal) : bool :=
  wellformed_int (lit_whole l)
  && match lit_fraction l with
     | Some f => some_digit f
     | None => true
     end
  && match lit_exponent l with
     | Some (marker, sign, e) =>
         (Ascii.eqb marker "e" || Ascii.eqb marker "E")
         && (String.eqb sign EmptyString || String.eqb sign "+" || String.eqb sign "-")
         && some_digit e
     | None => true
     end
  && match lit_fraction l, lit_exponent l with
     | None, None => false
     | _, _ => true
     end.

Definition fraction_text (f : option uint) : string :=
  match f with
  | Some d => String "." (string_of_uint d)
  | None => EmptyString
  end.

Definition exponent_text (e : option (ascii * string * uint)) : string :=
  match e with
  | Some (marker, sign, d) => String marker (sign ++ string_of_uint d)
  | None => EmptyString
  end.

Definition literal_text (l : Literal) : string :=
  (if lit_negative l then "-" else EmptyString)
  ++ string_of_uint (lit_whole l) ++ fraction_text (lit_fraction l)
  ++ exponent_text (lit_exponent l).

Definition number_literal (s : string) : Prop :=
  ∃ l, literal_ok l = true ∧ s = literal_text l.

(** *** Values *)

Fixpoint join (sep : string) (parts : list string) : string :=
  match parts with
  | [] => EmptyString
  | [p] => p
  | p :: rest => p ++ sep ++ join sep rest
  end.

Fixpoint stringify (v : json) : string :=
  match v with
  | JNull => "null"
  | JBool true => "true"
  | JBool false => "false"
  | JNum n => string_of_Z n
  | JDec literal => literal
  | JStr s => quote s
  | JArr items => "[" ++ join "," (map stringify items) ++ "]"
  | JObj members =>
      "{" ++ join "," (map (fun kv => quote (fst kv) ++ ":" ++ stringify (snd kv)) members) ++ "}"
  end.

(** [literal w s]: [s] without its prefix [w]. *)
Fixpoint literal (w s : string) : option string :=
  match w, s with
  | EmptyString, _ => Some s
  | String a w', String b s' => if Ascii.eqb a b then literal w' s' else None
  | String _ _, EmptyString => None
  end.

Fixpoint parse_value (fuel : nat) (s : string) {struct fuel} : option (json * string) :=
  match fuel with
  | O => None
  | S fuel =>
      match skip_ws s with
      | EmptyString => None
      | String c r =>
          if Ascii.eqb c "n" then
            match literal "ull" r with Some rest => Some (JNull, rest) | None => None end
          else if Ascii.eqb c "t" then
            match literal "rue" r with Some rest => Some (JBool true, rest) | None => None end
          else if Ascii.eqb c "f" then
            match literal "alse" r with Some rest => Some (JBool false, rest) | None => None end
          else if Ascii.eqb c dquote then
            match parse_chars r with
            | Some (str, rest) => Some (JStr str, rest)
            | None => None
            end
          else if Ascii.eqb c "[" then
            match skip_ws r with
            | String c' r' =>
                if Ascii.eqb c' "]" then Some (JArr [], r')
                else match parse_items fuel r with
                     | Some (items, rest) => Some (JArr items, rest)
                     | None => None
                     end
            | EmptyString => None
            end
          else if Ascii.eqb c "{" then
            match skip_ws r with
            | String c' r' =>
                if Ascii.eqb c' "}" then Some (JObj [], r')
                else match parse_members fuel r with
                     | Some (members, rest) => Some (JObj members, rest)
                     | None => None
                     end
            | EmptyString => None
            end
          else parse_number (String c r)
      end
  end
with parse_items (fuel : nat) (s : string) {struct fuel} : option (list json * string) :=
  match fuel with
  | O => None
  | S fuel =>
      match parse_value fuel s with
      | Some (v, r) =>
          match skip_ws r with
          | String c r' =>
              if Ascii.eqb c "," then
                match parse_items fuel r' with
                | Some (vs, rest) => Some (v :: vs, rest)
                | None => None
                end
              else if Ascii.eqb c "]" then Some ([v], r')
              else None
          | EmptyString => None
          end
      | None => None
      end
  end
with parse_members (fuel : nat) (s : string) {struct fuel}
    : option (list (string * json) * string) :=
  match fuel with
  | O => None
  | S fuel =>
      match skip_ws s with
      | String q r0 =>
          if Ascii.eqb q dquote then
            match parse_chars r0 with
            | Some (k, r1) =>
                match skip_ws r1 with
                | String c r2 =>
                    if Ascii.eqb c ":" then
                      match parse_value fuel r2 with
                      | Some (v, r3) =>
                          match skip_ws r3 with
                          | String c' r4 =>
                              if Ascii.eqb c' "," then
                                match parse_members fuel r4 with
                                | Some (ms, rest) => Some ((k, v) :: ms, rest)
                                | None => None
                                end
                              else if Ascii.eqb c' "}" then Some ([(k, v)], r4)
                              else None
                          | EmptyString => None
                          end
                      | None => None
                      end
                    else None
                | EmptyString => None
                end
            | None => None
            end
          else None
      | EmptyString => None
      end
  end.

(** [JSON.parse]: one value, white space around it, nothing else.
    [None] stands for the [SyntaxError] the runtime throws.  A number is
    read as it is written, a whole number as [JNum] and any other text as
    [JDec]: for a text that [JSON.stringify] writes this is the number
    itself, and for another text of the same number ([1.0], [1e2], more
    digits than the format holds) it is that text, where the runtime has
    the number.  The members of an object are read in the order of the
    text, a name that is repeated more than once; the object the runtime
    makes of them is read with [own_entries] and [property] of the HTTP
    layer below, which keep the last value of a repeated name and
    enumerate the names as the runtime does. *)
Definition parse (s : string) : option json :=
  match parse_value (S (String.length s)) s with
  | Some (v, rest) =>
      match skip_ws rest with
      | EmptyString => Some v
      | String _ _ => None
      end
  | None => None
  end.

End JSON.

Export JSON.

(** ** The environment: Redis client, clock, observability sink *)

Module Env.

(** What the facade sends to the client. *)
Inductive Command : Type :=
| CONNECT
| DISCONNECT
| GET (key : string)
| SETEX (key : string) (seconds : Z) (payload : string)
| DEL (keys : list string)
| EXISTS (key : string)
| FLUSHALL
| KEYS (pattern : string)
| MGET (keys : list string)
| PING.

(** How the store answers one command: the time it takes on the clock of
    [Date.now()], in milliseconds, and the message of the error it throws,
    if it throws. *)
Record Reply : Type := { took : Z; failure : option string }.

Definition instant : Reply := {| took := 0; failure := None |}.

(** A stored payload and the instant the store drops it. *)
Record Entry : Type := { payload : string; expires_at : Z }.

Inductive Level : Type := Debug | Info | Warn | Error.

Inductive Event : Type :=
| Logged (level : Level) (message : string)
| Metric (name : string) (value : Z).

(** Redis glob patterns: [*], [?], a backslash escape, literal characters. *)
Fixpoint glob (p : string) : string -> bool :=
  match p with
  | EmptyString => fun s => match s with EmptyString => true | _ => false end
  | String c p' =>
      if Ascii.eqb c "*" then
        fix star (s : string) : bool :=
          glob p' s || match s with
                       | EmptyString => false
                       | String _ s' => star s'
                       end
      else if Ascii.eqb c "?" then
        fun s => match s with String _ s' => glob p' s' | EmptyString => false end
      else if Ascii.eqb c backslash then
        match p' with
        | String e p'' =>
            fun s => match s with
                     | String x s' => Ascii.eqb e x && glob p'' s'
                     | EmptyString => false
                     end
        | EmptyString =>
            fun s => match s with
                     | String x EmptyString => Ascii.eqb x backslash
                     | _ => false
                     end
        end
      else
        fun s => match s with
                 | String x s' => Ascii.eqb c x && glob p' s'
                 | EmptyString => false
                 end
  end.

End Env.

Export Env.

(** ** [CacheService] *)

Record CacheOptions : Type := {
  ttl : option Z;
  prefix : option string;
  compress : option bool;
}.

Definition no_options : CacheOptions :=
  {| ttl := None; prefix := None; compress := None |}.

Record CacheStats : Type := {
  hits : nat;
  misses : nat;
  sets : nat;
  deletes : nat;
  errors : nat;
}.

Definition zero_stats : CacheStats :=
  {| hits := 0; misses := 0; sets := 0; deletes := 0; errors := 0 |}.

(** The singleton instance with everything it reaches: the fields [stats]
    and [isConnected] of the class, the content of the store behind
    [this.redis], the replies the store is going to give, the commands that
    were sent to it, the clock, and what was logged and measured. *)
Record World : Type := {
  stats : CacheStats;
  isConnected : bool;
  db : gmap string Entry;
  script : list Reply;
  wire : list Command;
  now : Z;
  sink : list Event;
}.

Definition defaultTTL : Z := 300.
Definition keyPrefix : string := "bug-bounty:".

(** The client is created with [keyPrefix]: it puts the prefix in front of
    every key of a command.  A pattern is not a key: [KEYS] matches it
    against the keys as they are in the store, prefix included, and answers
    with those keys. *)
Definition physical (key : string) : string := keyPrefix ++ key.

Definition with_stats (f : CacheStats -> CacheStats) (w : World) : World :=
  {| stats := f (stats w); isConnected := isConnected w; db := db w;
     script := script w; wire := wire w; now := now w; sink := sink w |}.

Definition with_connected (b : bool) (w : World) : World :=
  {| stats := stats w; isConnected := b; db := db w;
     script := script w; wire := wire w; now := now w; sink := sink w |}.

Definition with_db (f : gmap string Entry -> gmap string Entry) (w : World) : World :=
  {| stats := stats w; isConnected := isConnected w; db := f (db w);
     script := script w; wire := wire w; now := now w; sink := sink w |}.

Definition with_sink (e : Event) (w : World) : World :=
  {| stats := stats w; isConnected := isConnected w; db := db w;
     script := script w; wire := wire w; now := now w; sink := sink w ++ [e] |}.

(** One round trip: the command goes on the wire, the next reply of the
    script is consumed and the clock moves by the time it took. *)
Definition next_reply (w : World) : Reply :=
  match script w with
  | [] => instant
  | r :: _ => r
  end.

Definition on_wire (c : Command) (w : World) : Reply * World :=
  let r := next_reply w in
  (r, {| stats := stats w; isConnected := isConnected w; db := db w;
         script := tail (script w); wire := wire w ++ [c];
         now := (now w + took r)%Z; sink := sink w |}).

Definition inc_hits (s : CacheStats) : CacheStats :=
  {| hits := S (hits s); misses := misses s; sets := sets s;
     deletes := deletes s; errors := errors s |}.
Definition inc_misses (s : CacheStats) : CacheStats :=
  {| hits := hits s; misses := S (misses s); sets := sets s;
     deletes := deletes s; errors := errors s |}.
Definition add_sets (n : nat) (s : CacheStats) : CacheStats :=
  {| hits := hits s; misses := misses s; sets := sets s + n;
     deletes := deletes s; errors := errors s |}.
Definition inc_deletes (s : CacheStats) : CacheStats :=
  {| hits := hits s; misses := misses s; sets := sets s;
     deletes := S (deletes s); errors := errors s |}.
Definition inc_errors (s : CacheStats) : CacheStats :=
  {| hits := hits s; misses := misses s; sets := sets s;
     deletes := deletes s; errors := S (errors s) |}.

(** *** Computations that may throw *)

Inductive Outcome (A : Type) : Type :=
| Ok (a : A)
| Throw (message : string).
Arguments Ok {A} a.
Arguments Throw {A} message.

Definition M (A : Type) : Type := World -> Outcome A * World.

Definition ret {A} (a : A) : M A := fun w => (Ok a, w).

Definition bind {A B} (m : M A) (k : A -> M B) : M B :=
  fun w => match m w with
           | (Ok a, w') => k a w'
           | (Throw e, w') => (Throw e, w')
           end.

Definition throw {A} (e : string) : M A := fun w => (Throw e, w).

Definition try_catch {A} (m : M A) (handler : string -> M A) : M A :=
  fun w => match m w with
           | (Ok a, w') => (Ok a, w')
           | (Throw e, w') => handler e w'
           end.

Definition modify (f : World -> World) : M unit := fun w => (Ok tt, f w).
Definition reads {A} (f : World -> A) : M A := fun w => (Ok (f w), w).

#[global] Instance M_ret : MRet M := @ret.
#[global] Instance M_bind : MBind M := fun A B k m => bind m k.

(** *** The client commands the facade uses *)

Definition live (t : Z) (e : Entry) : bool := (t <? expires_at e)%Z.

Definition lookup_live (t : Z) (m : gmap string Entry) (k : string) : option string :=
  match m !! k with
  | Some e => if live t e then Some (payload e) else None
  | None => None
  end.

(** [serve t m] is what the server does with the command at instant [t] on
    content [m]: its answer and the new content. *)
Definition round_trip {A} (c : Command)
    (serve : Z -> gmap string Entry -> A * gmap string Entry) : M A :=
  fun w =>
    let (r, w1) := on_wire c w in
    match failure r with
    | Some msg => (Throw msg, w1)
    | None => let (a, m) := serve (now w1) (db w1) in (Ok a, with_db (fun _ => m) w1)
    end.

Definition stored (t seconds : Z) (v : string) : Entry :=
  {| payload := v; expires_at := (t + 1000 * seconds)%Z |}.

Definition remove_keys (t : Z) (ks : list string) (m : gmap string Entry)
    : Z * gmap string Entry :=
  fold_left (fun acc k =>
               let (n, m') := acc : Z * gmap string Entry in
               match lookup_live t m' k with
               | Some _ => ((n + 1)%Z, delete k m')
               | None => (n, delete k m')
               end) ks (0%Z, m).

Definition matching_keys (t : Z) (pattern : string) (m : gmap string Entry) : list string :=
  map fst (filter (fun kv => glob pattern (fst kv) && live t (snd kv)) (map_to_list m)).

Definition redis_get (k : string) : M (option string) :=
  round_trip (GET k) (fun t m => (lookup_live t m (physical k), m)).

Definition redis_setex (k : string) (seconds : Z) (v : string) : M unit :=
  round_trip (SETEX k seconds v)
    (fun t m => (tt, <[physical k := stored t seconds v]> m)).

Definition redis_del (ks : list string) : M Z :=
  round_trip (DEL ks) (fun t m => remove_keys t (map physical ks) m).

Definition redis_exists (k : string) : M Z :=
  round_trip (EXISTS k)
    (fun t m => (match lookup_live t m (physical k) with Some _ => 1%Z | None => 0%Z end,
                 m)).

Definition redis_flushall : M unit :=
  round_trip FLUSHALL (fun _ _ => (tt, ∅)).

Definition redis_keys (pattern : string) : M (list string) :=
  round_trip (KEYS pattern) (fun t m => (matching_keys t pattern m, m)).

Definition redis_mget (ks : list string) : M (list (option string)) :=
  round_trip (MGET ks) (fun t m => (map (fun k => lookup_live t m (physical k)) ks, m)).

(** [pipeline.exec()] on a pipeline of [SETEX] commands: the commands go
    out in the order in which they were queued and each one has its own
    reply.  The promise is fulfilled whatever the replies are: the result
    lists, command by command, the message of the error if the command
    failed.  An empty pipeline sends nothing. *)
Fixpoint pipeline_exec (batch : list (string * Z * string)) : M (list (option string)) :=
  match batch with
  | [] => ret []
  | (k, seconds, v) :: rest =>
      r ← try_catch (redis_setex k seconds v ;; ret None) (fun e => ret (Some e));
      rs ← pipeline_exec rest;
      ret (r :: rs)
  end.

Definition redis_ping : M string :=
  round_trip PING (fun _ m => ("PONG", m)).

Definition Date_now : M Z := reads now.

Definition log (l : Level) (msg : string) : M unit := modify (with_sink (Logged l msg)).
Definition recordMetric (name : string) (value : Z) : M unit :=
  modify (with_sink (Metric name value)).

(** *** Event handlers installed by [setupEventHandlers] *)

Definition on_connect (w : World) : World :=
  with_sink (Logged Info "Redis connected successfully") (with_connected true w).

Definition on_error (w : World) : World :=
  with_sink (Metric "cache_errors_total" 1)
    (with_sink (Logged Error "Redis connection error")
       (with_stats inc_errors (with_connected false w))).

Definition on_reconnecting (w : World) : World :=
  with_sink (Logged Warn "Redis reconnecting...") w.

Definition on_ready (w : World) : World :=
  with_sink (Logged Info "Redis ready for operations") (with_connected true w).

(** [this.redis.connect()]: when the connection is made the client emits
    [connect] and then [ready]. *)
Definition redis_connect : M unit :=
  bind (round_trip CONNECT (fun _ m => (tt, m)))
       (fun _ => modify (fun w => on_ready (on_connect w))).

Definition redis_disconnect : M unit :=
  round_trip DISCONNECT (fun _ m => (tt, m)).

(** *** Methods *)

Definition connect : M unit :=
  try_catch redis_connect (fun _ => log Error "Failed to connect to Redis").

Definition disconnect : M unit :=
  connected ← reads isConnected;
  if connected : bool then
    redis_disconnect ;;
    modify (with_connected false) ;;
    log Info "Redis disconnected"
  else ret tt.

(** [prefix ? `${prefix}:${key}` : key]; the empty string is falsy. *)
Definition buildKey (key : string) (prefix : option string) : string :=
  match prefix with
  | Some p => if String.eqb p EmptyString then key else p ++ ":" ++ key
  | None => key
  end.

(** [a || b] on an optional number: [undefined] and [0] are falsy. *)
Definition or_else (a : option Z) (b : Z) : Z :=
  match a with
  | Some t => if (t =? 0)%Z then b else t
  | None => b
  end.

Definition executeWithFallback {T} (operation : M T) (fallback : M T) : M T :=
  connected ← reads isConnected;
  if connected : bool then
    try_catch operation
      (fun _ =>
         modify (with_stats inc_errors) ;;
         log Warn "Cache operation failed, using fallback" ;;
         fallback)
  else fallback.

(** [JSON.parse(result)], and the raw string when that throws. *)
Definition deserialize (result : string) : json :=
  match parse result with
  | Some v => v
  | None => JStr result
  end.

(** [typeof value === 'string' ? value : JSON.stringify(value)] *)
Definition serialize (value : json) : string :=
  match value with
  | JStr s => s
  | _ => stringify value
  end.

Definition get_operation (key : string) (options : CacheOptions) : M json :=
  let fullKey := buildKey key (prefix options) in
  startTime ← Date_now;
  result ← redis_get fullKey;
  endTime ← Date_now;
  recordMetric "cache_operation_duration" (endTime - startTime) ;;
  match result with
  | Some payload =>
      modify (with_stats inc_hits) ;;
      recordMetric "cache_hits_total" 1 ;;
      ret (deserialize payload)
  | None =>
      modify (with_stats inc_misses) ;;
      recordMetric "cache_misses_total" 1 ;;
      ret JNull
  end.

Definition get_fallback : M json :=
  modify (with_stats inc_misses) ;; ret JNull.

Definition get (key : string) (options : CacheOptions) : M json :=
  executeWithFallback (get_operation key options) get_fallback.

Definition set_operation (key : string) (value : json) (options : CacheOptions) : M bool :=
  let fullKey := buildKey key (prefix options) in
  let seconds := or_else (ttl options) defaultTTL in
  startTime ← Date_now;
  let serializedValue := serialize value in
  redis_setex fullKey seconds serializedValue ;;
  endTime ← Date_now;
  modify (with_stats (add_sets 1)) ;;
  recordMetric "cache_operation_duration" (endTime - startTime) ;;
  recordMetric "cache_sets_total" 1 ;;
  ret true.

Definition set (key : string) (value : json) (options : CacheOptions) : M bool :=
  executeWithFallback (set_operation key value options) (ret false).

Definition delete_operation (key : string) (options : CacheOptions) : M bool :=
  let fullKey := buildKey key (prefix options) in
  startTime ← Date_now;
  result ← redis_del [fullKey];
  endTime ← Date_now;
  modify (with_stats inc_deletes) ;;
  recordMetric "cache_operation_duration" (endTime - startTime) ;;
  recordMetric "cache_deletes_total" 1 ;;
  ret (0 <? result)%Z.

Definition delete (key : string) (options : CacheOptions) : M bool :=
  executeWithFallback (delete_operation key options) (ret false).

Definition exists_operation (key : string) (options : CacheOptions) : M bool :=
  let fullKey := buildKey key (prefix options) in
  result ← redis_exists fullKey;
  ret (result =? 1)%Z.

Definition exists_ (key : string) (options : CacheOptions) : M bool :=
  executeWithFallback (exists_operation key options) (ret false).

(** [if (pattern)]: an absent and an empty pattern both flush everything. *)
Definition flush_operation (pattern : option string) : M bool :=
  match pattern with
  | Some p =>
      if String.eqb p EmptyString then redis_flushall
      else
        keys ← redis_keys p;
        if (0 <? length keys)%nat then (redis_del keys ;; ret tt) else ret tt
  | None => redis_flushall
  end ;;
  log Info "Cache flushed" ;;
  ret true.

Definition flush (pattern : option string) : M bool :=
  executeWithFallback (flush_operation pattern) (ret false).

(** [results.map(...)]: one counter update per result, in order. *)
Fixpoint collect (results : list (option string)) : M (list json) :=
  match results with
  | [] => ret []
  | Some payload :: rest =>
      modify (with_stats inc_hits) ;;
      vs ← collect rest;
      ret (deserialize payload :: vs)
  | None :: rest =>
      modify (with_stats inc_misses) ;;
      vs ← collect rest;
      ret (JNull :: vs)
  end.

Definition getMultiple_operation (keys : list string) (options : CacheOptions)
    : M (list json) :=
  let fullKeys := map (fun key => buildKey key (prefix options)) keys in
  results ← redis_mget fullKeys;
  collect results.

(** [keys.map(() => { this.stats.misses++; return null; })] *)
Fixpoint getMultiple_fallback (keys : list string) : M (list json) :=
  match keys with
  | [] => ret []
  | _ :: rest =>
      modify (with_stats inc_misses) ;;
      vs ← getMultiple_fallback rest;
      ret (JNull :: vs)
  end.

Definition getMultiple (keys : list string) (options : CacheOptions) : M (list json) :=
  executeWithFallback (getMultiple_operation keys options) (getMultiple_fallback keys).

Record BatchEntry : Type := {
  entry_key : string;
  entry_value : json;
  entry_ttl : option Z;
}.

Definition setMultiple_operation (entries : list BatchEntry) (options : CacheOptions)
    : M bool :=
  let pipeline :=
    map (fun entry =>
           (buildKey (entry_key entry) (prefix options),
            or_else (entry_ttl entry) (or_else (ttl options) defaultTTL),
            serialize (entry_value entry))) entries in
  pipeline_exec pipeline ;;
  modify (with_stats (add_sets (length entries))) ;;
  recordMetric "cache_sets_total" (Z.of_nat (length entries)) ;;
  ret true.

Definition setMultiple (entries : list BatchEntry) (options : CacheOptions) : M bool :=
  executeWithFallback (setMultiple_operation entries options) (ret false).

(** The method a [cached] decorator installs in place of [method]. *)
Definition cached (key : string) (options : CacheOptions) (method : M json) : M json :=
  hit ← get key options;
  match hit with
  | JNull =>
      result ← method;
      set key result options ;;
      ret result
  | _ => ret hit
  end.

Definition invalidatePattern_operation (pattern : string) : M Z :=
  keys ← redis_keys pattern;
  if (0 <? length keys)%nat then
    redis_del keys ;;
    log Info "Cache pattern invalidated" ;;
    ret (Z.of_nat (length keys))
  else ret 0%Z.

Definition invalidatePattern (pattern : string) : M Z :=
  executeWithFallback (invalidatePattern_operation pattern) (ret 0%Z).

(** *** The numbers of [getStats] *)

Module Double.

(** [2^e], for an exponent of either sign. *)
Definition pow2 (e : Z) : Q := (2 ^ e)%Q.

(** The exponent [e] of a positive number [x]: [2^e <= x < 2^(e+1)]. *)
Definition exponent (x : Q) : Z :=
  let e := (Z.log2 (Qnum x) - Z.log2 (Zpos (Qden x)))%Z in
  if Qle_bool (pow2 e) x then e else (e - 1)%Z.

(** The nearest whole number, the even one of two that are equally near. *)
Definition nearest_even (x : Q) : Z :=
  let f := Qfloor x in
  match (x - inject_Z f ?= 1 # 2)%Q with
  | Lt => f
  | Gt => (f + 1)%Z
  | Eq => if Z.even f then f else (f + 1)%Z
  end.

(** The number with 53 significant bits that is nearest to a positive
    number [x]. *)
Definition nearest (x : Q) : Q :=
  let e := exponent x in
  (inject_Z (nearest_even (x * pow2 (52 - e))) * pow2 (e - 52))%Q.

(** The rounding of binary64 arithmetic: to the nearest number of the
    format, to the one with an even significand when two are equally near.
    The range of the exponent is left out: no number that is computed here
    is as large as [2^1024] or, unless it is [0], as small as [2^-1022]. *)
Definition round (x : Q) : Q :=
  match Qnum x with
  | Z0 => 0%Q
  | Zpos _ => nearest x
  | Zneg _ => (- nearest (- x))%Q
  end.

End Double.

(** [Math.round]: the nearest integer, a tie going up. *)
Definition Math_round (x : Q) : Z := Qfloor (x + (1 # 2))%Q.

Record StatsReport : Type := {
  report : CacheStats;
  hitRate : Q;
}.

(** The counters are whole numbers below [2^53]: they and their sum are
    numbers of the format.  The division, the two multiplications and the
    last division are rounded. *)
Definition getStats (w : World) : StatsReport :=
  let totalRequests := (hits (stats w) + misses (stats w))%nat in
  let rate : Q :=
    if (0 <? totalRequests)%nat
    then Double.round
           (Double.round (inject_Z (Z.of_nat (hits (stats w)))
                          / inject_Z (Z.of_nat totalRequests)) * 100)%Q
    else 0%Q in
  {| report := stats w;
     hitRate :=
       Double.round (inject_Z (Math_round (Double.round (rate * 100))) / 100)%Q |}.

Inductive HealthStatus : Type := healthy | degraded | unhealthy.

Record Health : Type := {
  status : HealthStatus;
  latency : option Z;
  error : option string;
}.

Definition healthCheck : M Health :=
  try_catch
    (startTime ← Date_now;
     redis_ping ;;
     endTime ← Date_now;
     let latency := (endTime - startTime)%Z in
     ret {| status := if (latency <? 100)%Z then healthy else degraded;
            latency := Some latency;
            error := None |})
    (fun message =>
       ret {| status := unhealthy; latency := None; error := Some message |}).

Definition resetStats : M unit := modify (with_stats (fun _ => zero_stats)).

(** ** The HTTP layer as the middlewares see it *)

Module Http.

(** *** Objects *)

(** [lookup_assoc k l]: the value of property [k], if the object has it. *)
Fixpoint lookup_assoc {A} (k : string) (l : list (string * A)) : option A :=
  match l with
  | [] => None
  | (k', v) :: rest => if String.eqb k k' then Some v else lookup_assoc k rest
  end.

(** [obj[k] = v]: an existing property keeps its place. *)
Fixpoint assign {A} (k : string) (v : A) (l : list (string * A)) : list (string * A) :=
  match l with
  | [] => [(k, v)]
  | (k', v') :: rest =>
      if String.eqb k k' then (k, v) :: rest else (k', v') :: assign k v rest
  end.

(** A name that is an array index: the digits, without a leading zero, of
    a whole number below [2^32 - 1]. *)
Definition array_index (k : string) : option N :=
  match take_digits k with
  | (d, EmptyString) =>
      if wellformed_int d && (N.of_uint d <? 4294967295)%N then Some (N.of_uint d) else None
  | _ => None
  end.

(** The own properties of an object in the order in which [Object.keys],
    [Object.entries], [JSON.stringify] and the constructor of
    [URLSearchParams] go through them: the names that are array indices
    first, in ascending order, then the other names in the order in which
    they were created.  [properties] has them in the order of creation. *)
Definition index_le {A} (a b : N * A) : Prop := (fst a <= fst b)%N.

#[global] Instance index_le_dec {A} : RelDecision (@index_le A) :=
  fun a b => decide (fst a <= fst b)%N.

Definition enumerate {A} (properties : list (string * A)) : list (string * A) :=
  let indexed := omap (fun kv => (fun i => (i, kv)) <$> array_index (fst kv)) properties in
  (map snd (merge_sort index_le indexed)
   ++ filter (fun kv => array_index (fst kv) = None) properties)%list.

(** The object that the assignments [obj[k] = v] build, one after the
    other, as it is enumerated.  This is also what [JSON.parse] makes of the
    members of an object, in the order of the text. *)
Definition own_entries {A} (assignments : list (string * A)) : list (string * A) :=
  enumerate (fold_left (fun o kv => assign (fst kv) (snd kv) o) assignments []).

(** [obj[k]] *)
Definition property {A} (k : string) (assignments : list (string * A)) : option A :=
  lookup_assoc k (own_entries assignments).

(** A value of [req.query]: a string, or what the query parser makes of a
    parameter that is repeated or written with brackets. *)
#[local] Unset Elimination Schemes.

Inductive QueryValue : Type :=
| QStr (s : string)
| QArr (items : list QueryValue)
| QObj (members : list (string * QueryValue)).

#[local] Set Elimination Schemes.

(** [String(value)] *)
Fixpoint QueryValue_toString (v : QueryValue) : string :=
  match v with
  | QStr s => s
  | QArr items => join "," (map QueryValue_toString items)
  | QObj _ => "[object Object]"
  end.

(** The value as [JSON.stringify] sees it. *)
Fixpoint QueryValue_json (v : QueryValue) : json :=
  match v with
  | QStr s => JStr s
  | QArr items => JArr (map QueryValue_json items)
  | QObj members =>
      JObj (enumerate (map (fun kv => (fst kv, QueryValue_json (snd kv))) members))
  end.

(** [query] has the properties of [req.query] in the order in which the
    query parser created them; [user] is [req.user?.id]. *)
Record Request : Type := {
  method : string;
  path : string;
  query : list (string * QueryValue);
  params : list (string * string);
  user : option string;
  req_headers : list (string * string);
}.

(** What a condition may look at: [res.statusCode] and [res.getHeader]. *)
Record ResponseState : Type := {
  statusCode : Z;
  headers : gmap string string;
  sent : option json;
}.

Definition lower_char (c : ascii) : ascii :=
  let n := N_of_ascii c in
  if (65 <=? n)%N && (n <=? 90)%N then ascii_of_N (n + 32) else c.

Fixpoint lower (s : string) : string :=
  match s with
  | EmptyString => EmptyString
  | String c r => String (lower_char c) (lower r)
  end.

(** Header names are case-insensitive: they are kept in lower case. *)
Definition getHeader (st : ResponseState) (name : string) : option string :=
  headers st !! lower name.

Definition setHeader (name value : string) (st : ResponseState) : ResponseState :=
  {| statusCode := statusCode st;
     headers := <[lower name := value]> (headers st);
     sent := sent st |}.

Definition set_status (code : Z) (st : ResponseState) : ResponseState :=
  {| statusCode := code; headers := headers st; sent := sent st |}.

(** [haystack.includes(needle)] *)
Fixpoint starts_with (needle s : string) : bool :=
  match needle, s with
  | EmptyString, _ => true
  | String a n', String b s' => Ascii.eqb a b && starts_with n' s'
  | String _ _, EmptyString => false
  end.

Fixpoint includes (needle haystack : string) : bool :=
  starts_with needle haystack ||
  match haystack with
  | EmptyString => false
  | String _ rest => includes needle rest
  end.

(** *** [new URLSearchParams(record).toString()] *)

Definition HEX (n : N) : ascii :=
  if (n <? 10)%N then ascii_of_N (48 + n) else ascii_of_N (55 + n).

Definition unreserved (c : ascii) : bool :=
  let n := N_of_ascii c in
  ((48 <=? n)%N && (n <=? 57)%N) || ((65 <=? n)%N && (n <=? 90)%N) ||
  ((97 <=? n)%N && (n <=? 122)%N) ||
  (n =? 42)%N || (n =? 45)%N || (n =? 46)%N || (n =? 95)%N.

Definition form_encode_char (c : ascii) : string :=
  let n := N_of_ascii c in
  if unreserved c then String c EmptyString
  else if (n =? 32)%N then "+"
  else String "%" (String (HEX (n / 16)) (String (HEX (n mod 16)) EmptyString)).

Fixpoint form_encode (s : string) : string :=
  match s with
  | EmptyString => EmptyString
  | String c r => form_encode_char c ++ form_encode r
  end.

Definition URLSearchParams_toString (entries : list (string * string)) : string :=
  join "&" (map (fun kv => form_encode (fst kv) ++ "=" ++ form_encode (snd kv)) entries).

(** *** [Buffer.from(text).toString('base64')] *)

Definition base64_char (n : N) : ascii :=
  if (n <? 26)%N then ascii_of_N (65 + n)
  else if (n <? 52)%N then ascii_of_N (71 + n)
  else if (n <? 62)%N then ascii_of_N (n - 4)
  else if (n =? 62)%N then "+"%char else "/"%char.

Fixpoint base64 (s : string) : string :=
  match s with
  | EmptyString => EmptyString
  | String a EmptyString =>
      let x := N_of_ascii a in
      String (base64_char (x / 4)) (String (base64_char ((x mod 4) * 16)) "==")
  | String a (String b EmptyString) =>
      let x := N_of_ascii a in
      let y := N_of_ascii b in
      String (base64_char (x / 4))
        (String (base64_char ((x mod 4) * 16 + y / 16))
           (String (base64_char ((y mod 16) * 4)) "="))
  | String a (String b (String c rest)) =>
      let x := N_of_ascii a in
      let y := N_of_ascii b in
      let z := N_of_ascii c in
      String (base64_char (x / 4))
        (String (base64_char ((x mod 4) * 16 + y / 16))
           (String (base64_char ((y mod 16) * 4 + z / 64))
              (String (base64_char (z mod 64)) (base64 rest))))
  end.

(** *** [parseInt(text)], [None] for [NaN] *)

Fixpoint decimal_prefix (acc : option Z) (s : string) : option Z :=
  match s with
  | EmptyString => acc
  | String c r =>
      let n := N_of_ascii c in
      if (48 <=? n)%N && (n <=? 57)%N
      then decimal_prefix
             (Some (match acc with Some a => a | None => 0 end * 10 + Z.of_N (n - 48))%Z) r
      else acc
  end.

Fixpoint hex_prefix (acc : option Z) (s : string) : option Z :=
  match s with
  | EmptyString => acc
  | String c r =>
      match hex_value c with
      | Some d =>
          hex_prefix (Some (match acc with Some a => a | None => 0 end * 16 + Z.of_N d)%Z) r
      | None => acc
      end
  end.

Definition unsigned_prefix (s : string) : option Z :=
  match s with
  | String z (String x r) =>
      if Ascii.eqb z "0" && (Ascii.eqb x "x" || Ascii.eqb x "X")
      then hex_prefix None r
      else decimal_prefix None s
  | _ => decimal_prefix None s
  end.

(** The white space that [parseInt] skips: the characters of [WhiteSpace]
    and of [LineTerminator], in UTF-8. *)
Definition wide_space (x y z : N) : bool :=
  ((x =? 225) && (y =? 154) && (z =? 128))%N
  || ((x =? 226) && (y =? 128)
      && (((128 <=? z) && (z <=? 138)) || (z =? 168) || (z =? 169) || (z =? 175)))%N
  || ((x =? 226) && (y =? 129) && (z =? 159))%N
  || ((x =? 227) && (y =? 128) && (z =? 128))%N
  || ((x =? 239) && (y =? 187) && (z =? 191))%N.

Fixpoint skip_white_space (s : string) : string :=
  match s with
  | EmptyString => EmptyString
  | String a r1 =>
      let x := N_of_ascii a in
      if ((9 <=? x) && (x <=? 13))%N || (x =? 32)%N then skip_white_space r1
      else
        match r1 with
        | EmptyString => s
        | String b r2 =>
            let y := N_of_ascii b in
            if ((x =? 194) && (y =? 160))%N then skip_white_space r2
            else
              match r2 with
              | EmptyString => s
              | String c r3 =>
                  if wide_space x y (N_of_ascii c) then skip_white_space r3 else s
              end
        end
  end.

Definition parseInt (text : option string) : option Z :=
  match text with
  | None => None
  | Some s =>
      match skip_white_space s with
      | String c r =>
          if Ascii.eqb c "-" then Z.opp <$> unsigned_prefix r
          else if Ascii.eqb c "+" then unsigned_prefix r
          else unsigned_prefix (String c r)
      | EmptyString => None
      end
  end.

(** [parseInt(text) || fallback]: [NaN] and [0] are falsy. *)
Definition parseInt_or (text : option string) (fallback : Z) : Z :=
  or_else (parseInt text) fallback.

End Http.

Export Http.

(** ** The middlewares *)

(** A call on the cache that is started and not awaited. *)
Inductive Call : Type :=
| CallSet (key : string) (value : json) (options : CacheOptions)
| CallInvalidate (pattern : string).

(** The overrides of [res.json].  Each one closes over the variables of the
    middleware invocation that installed it. *)
Inductive Hook : Type :=
| WriteBack (req : Request) (cacheKey : string) (seconds : Z)
    (condition : Request -> ResponseState -> bool) (vary : list string)
| Invalidate (req : Request) (patterns : list string).

(** The response object: its state and its [json] method, the most recent
    override first. *)
Record Response : Type := {
  state : ResponseState;
  chain : list Hook;
}.

Definition on_state (f : ResponseState -> ResponseState) (res : Response) : Response :=
  {| state := f (state res); chain := chain res |}.

Definition install (h : Hook) (res : Response) : Response :=
  {| state := state res; chain := h :: chain res |}.

Record CacheMiddlewareOptions : Type := {
  opt_ttl : option Z;
  opt_keyGenerator : option (Request -> string);
  opt_condition : option (Request -> ResponseState -> bool);
  opt_vary : option (list string);
  opt_skipCache : option (Request -> bool);
}.

Definition default_options : CacheMiddlewareOptions :=
  {| opt_ttl := None; opt_keyGenerator := None; opt_condition := None;
     opt_vary := None; opt_skipCache := None |}.

(** What [new URLSearchParams(req.query)] holds: the properties of the
    object as they are enumerated, each value made a string. *)
Definition query_entries (req : Request) : list (string * string) :=
  map (fun kv => (fst kv, QueryValue_toString (snd kv))) (own_entries (query req)).

Definition defaultKeyGenerator (req : Request) : string :=
  let userId :=
    match user req with
    | Some id => if String.eqb id EmptyString then "anonymous" else id
    | None => "anonymous"
    end in
  let queryString := URLSearchParams_toString (query_entries req) in
  let baseKey := method req ++ ":" ++ path req in
  if String.eqb queryString EmptyString
  then baseKey ++ ":user:" ++ userId
  else baseKey ++ ":" ++ queryString ++ ":user:" ++ userId.

Definition defaultCondition (_req : Request) (res : ResponseState) : bool :=
  (statusCode res <? 400)%Z &&
  negb (match getHeader res "Cache-Control" with
        | Some value => includes "no-cache" value
        | None => false
        end).

(** [if (value)]: the empty string is falsy. *)
Definition truthy_header (value : option string) : option string :=
  match value with
  | Some v => if String.eqb v EmptyString then None else Some v
  | None => None
  end.

Definition extractCacheableHeaders (res : ResponseState) (vary : list string)
    : list (string * json) :=
  let headers :=
    fold_left (fun headers headerName =>
                 match truthy_header (getHeader res headerName) with
                 | Some value => assign headerName (JStr value) headers
                 | None => headers
                 end) vary [] in
  match truthy_header (getHeader res "Content-Type") with
  | Some contentType => assign "Content-Type" (JStr contentType) headers
  | None => headers
  end.

(** The object handed to [cache.set], as [JSON.stringify] goes through
    it. *)
Definition responseToCache (data : json) (res : ResponseState) (vary : list string) : json :=
  JObj [("data", data);
        ("headers", JObj (enumerate (extractCacheableHeaders res vary)));
        ("statusCode", JNum (statusCode res))].

Definition is_success (code : Z) : bool := (200 <=? code)%Z && (code <? 300)%Z.

(** The body of one override, up to its call of the method it replaced. *)
Definition run_hook (h : Hook) (res : ResponseState) (data : json) : M (list Call) :=
  match h with
  | WriteBack req cacheKey seconds condition vary =>
      if condition req res && (200 <=? statusCode res)%Z && (statusCode res <? 300)%Z then
        log Debug "Response cached" ;;
        ret [CallSet cacheKey (responseToCache data res vary)
               {| ttl := Some seconds; prefix := Some "response"; compress := None |}]
      else ret []
  | Invalidate req patterns =>
      if (200 <=? statusCode res)%Z && (statusCode res <? 300)%Z
      then ret (map CallInvalidate patterns)
      else ret []
  end.

Fixpoint run_chain (hooks : list Hook) (res : ResponseState) (data : json) : M (list Call) :=
  match hooks with
  | [] => ret []
  | h :: older =>
      calls ← run_hook h res data;
      more ← run_chain older res data;
      ret (calls ++ more)%list
  end.

(** The method of the framework: the body goes out as JSON.  A response
    that has no [Content-Type] gets [application/json; charset=utf-8].  A
    [Content-Type] that is set is taken to name its charset, [utf-8]: the
    framework leaves such a header as it is, and would add the charset to a
    header that lacks it. *)
Definition originalJson (data : json) (st : ResponseState) : ResponseState :=
  let st' :=
    match getHeader st "Content-Type" with
    | Some _ => st
    | None => setHeader "Content-Type" "application/json; charset=utf-8" st
    end in
  {| statusCode := statusCode st'; headers := headers st'; sent := Some data |}.

(** [res.json(data)] *)
Definition res_json (res : Response) (data : json) : M (Response * list Call) :=
  calls ← run_chain (chain res) (state res) data;
  ret (on_state (originalJson data) res, calls).

(** What a middleware leaves behind: whether it called [next()], the
    response object, and the calls it started. *)
Record Step : Type := {
  passed : bool;
  response : Response;
  started : list Call;
}.

Definition next (res : Response) : M Step :=
  ret {| passed := true; response := res; started := [] |}.

(** The digits of a literal, up to its exponent, are all [0]. *)
Fixpoint mantissa_zero (literal : string) : bool :=
  match literal with
  | EmptyString => true
  | String c r =>
      if Ascii.eqb c "e" || Ascii.eqb c "E" then true
      else if is_digit c then Ascii.eqb c "0" && mantissa_zero r
      else mantissa_zero r
  end.

(** A cached value is replayed when it is truthy. *)
Definition truthy (v : json) : bool :=
  match v with
  | JNull => false
  | JBool b => b
  | JNum n => negb (n =? 0)%Z
  | JDec literal => negb (mantissa_zero literal)
  | JStr s => negb (String.eqb s EmptyString)
  | _ => true
  end.

(** The entries under the [response] prefix are the triples the write-back
    below stores: an object with [data], [headers] whose values are strings,
    and a whole-number [statusCode].  The replay of such a triple sets the
    headers of the triple, then [X-Cache] and [Cache-Control], and sends the
    body with the status code.  A truthy value of another shape is outside
    the model and is taken to make the replay throw before it has set a
    header. *)
Definition header_entries (v : json) : option (list (string * string)) :=
  match v with
  | JObj members =>
      mapM (fun kv => match snd kv with
                      | JStr value => Some (fst kv, value)
                      | _ => None
                      end) (own_entries members)
  | _ => None
  end.

(** [res.status] stores any whole number; the server refuses a status code
    that is not between 100 and 999 when the head is written, at the end of
    [res.json], and throws.  The overrides of [res.json] have run by then
    and the headers are set; nothing has gone out.  [replay] gives the
    response as it is at that point, the calls that were started, and
    whether the body went out: the [catch] clause of the middleware sees the
    same response object. *)
Definition unsent (before : ResponseState) (st : ResponseState) : ResponseState :=
  {| statusCode := statusCode st; headers := headers st; sent := sent before |}.

Definition replay (cachedResponse : json) (seconds : Z) (res : Response)
    : M (Response * list Call * bool) :=
  match cachedResponse with
  | JObj fields =>
      match property "headers" fields ≫= header_entries,
            property "statusCode" fields,
            property "data" fields with
      | Some entries, Some (JNum code), Some data =>
          let res1 :=
            fold_left (fun r kv => on_state (setHeader (fst kv) (snd kv)) r) entries res in
          let res2 := on_state (setHeader "X-Cache" "HIT") res1 in
          let res3 :=
            on_state (setHeader "Cache-Control" ("max-age=" ++ string_of_Z seconds)) res2 in
          log Debug "Cache hit" ;;
          '(res4, calls) ← res_json (on_state (set_status code) res3) data;
          if (100 <=? code)%Z && (code <=? 999)%Z
          then ret (res4, calls, true)
          else ret (on_state (unsent (state res)) res4, calls, false)
      | _, _, _ => throw "TypeError"
      end
  | _ => throw "TypeError"
  end.

Definition cacheMiddleware (options : CacheMiddlewareOptions)
    (req : Request) (res : Response) : M Step :=
  let seconds := default 300%Z (opt_ttl options) in
  let keyGenerator := default defaultKeyGenerator (opt_keyGenerator options) in
  let condition := default defaultCondition (opt_condition options) in
  let vary := default [] (opt_vary options) in
  let skipCache := default (fun _ => false) (opt_skipCache options) in
  if negb (String.eqb (method req) "GET") || skipCache req then next res
  else
    let cacheKey := keyGenerator req in
    try_catch
      (cachedResponse ← get cacheKey
         {| ttl := None; prefix := Some "response"; compress := None |};
       if truthy cachedResponse then
         '(res', calls, went_out) ← replay cachedResponse seconds res;
         if went_out : bool
         then ret {| passed := false; response := res'; started := calls |}
         else
           log Error "Cache middleware error" ;;
           ret {| passed := true; response := res'; started := calls |}
       else
         let res1 := on_state (setHeader "X-Cache" "MISS") res in
         next (install (WriteBack req cacheKey seconds condition vary) res1))
      (fun _ =>
         log Error "Cache middleware error" ;;
         next res).

Definition shortCache := cacheMiddleware
  {| opt_ttl := Some 60%Z; opt_keyGenerator := None; opt_condition := None;
     opt_vary := None; opt_skipCache := None |}.
Definition mediumCache := cacheMiddleware
  {| opt_ttl := Some 300%Z; opt_keyGenerator := None; opt_condition := None;
     opt_vary := None; opt_skipCache := None |}.
Definition longCache := cacheMiddleware
  {| opt_ttl := Some 3600%Z; opt_keyGenerator := None; opt_condition := None;
     opt_vary := None; opt_skipCache := None |}.

(** [JSON.stringify] leaves out the properties whose value is [undefined]. *)
Definition pick (names : list string) (q : list (string * QueryValue)) : json :=
  JObj (omap (fun name => (fun v => (name, QueryValue_json v)) <$> property name q) names).

Definition reportsList_keyGenerator (req : Request) : string :=
  let params := pick ["status"; "severity"; "page"; "limit"; "sortBy"; "sortOrder"] (query req) in
  "reports:list:" ++ base64 (stringify params).

Definition reportsList_condition (req : Request) (res : ResponseState) : bool :=
  let page := parseInt_or (QueryValue_toString <$> property "page" (query req)) 1 in
  let limit := parseInt_or (QueryValue_toString <$> property "limit" (query req)) 20 in
  (statusCode res =? 200)%Z && (page <=? 10)%Z && (limit <=? 100)%Z.

Definition reportsListCache := cacheMiddleware
  {| opt_ttl := Some 300%Z;
     opt_keyGenerator := Some reportsList_keyGenerator;
     opt_condition := Some reportsList_condition;
     opt_vary := None; opt_skipCache := None |}.

Definition reportStatsCache := cacheMiddleware
  {| opt_ttl := Some 180%Z;
     opt_keyGenerator := Some (fun _ => "reports:stats");
     opt_condition := None; opt_vary := None; opt_skipCache := None |}.

Definition reportDetailCache := cacheMiddleware
  {| opt_ttl := Some 600%Z;
     opt_keyGenerator :=
       Some (fun req => "reports:detail:" ++ default "undefined" (lookup_assoc "id" (params req)));
     opt_condition := None; opt_vary := None; opt_skipCache := None |}.

Definition invalidateCache (patterns : list string) (req : Request) (res : Response) : M Step :=
  next (install (Invalidate req patterns) res).

Definition invalidateReportsCache :=
  invalidateCache ["response:reports:*"; "response:reports:stats"].

(** [req.get(name)] *)
Definition req_get (req : Request) (name : string) : option string :=
  lookup_assoc (lower name) (map (fun kv => (lower (fst kv), snd kv)) (req_headers req)).

Definition compressedCache := cacheMiddleware
  {| opt_ttl := Some 600%Z;
     opt_keyGenerator :=
       Some (fun req =>
               let acceptEncoding :=
                 default EmptyString (truthy_header (req_get req "Accept-Encoding")) in
               defaultKeyGenerator req ++ ":encoding:" ++ base64 acceptEncoding);
     opt_condition := None;
     opt_vary := Some ["Accept-Encoding"];
     opt_skipCache := None |}.

(** ** A request through a stack of middlewares and a handler *)

(** What a route handler does with the response object. *)
Inductive Action : Type :=
| SetHeader (name value : string)
| Status (code : Z)
| Json (data : json).

Fixpoint perform (actions : list Action) (res : Response) : M (Response * list Call) :=
  match actions with
  | [] => ret (res, [])
  | SetHeader name value :: rest => perform rest (on_state (setHeader name value) res)
  | Status code :: rest => perform rest (on_state (set_status code) res)
  | Json data :: rest =>
      '(res1, calls) ← res_json res data;
      '(res2, more) ← perform rest res1;
      ret (res2, (calls ++ more)%list)
  end.

Definition Middleware : Type := Request -> Response -> M Step.

Fixpoint handle (stack : list Middleware) (handler : list Action)
    (req : Request) (res : Response) : M (Response * list Call) :=
  match stack with
  | [] => perform handler res
  | mw :: rest =>
      step ← mw req res;
      if passed step then
        '(res', calls) ← handle rest handler req (response step);
        ret (res', (started step ++ calls)%list)
      else ret (response step, started step)
  end.

Definition fresh_response : Response :=
  {| state := {| statusCode := 200; headers := ∅; sent := None |}; chain := [] |}.

(** The event loop running one started call to its end. *)
Definition run_call (c : Call) : M unit :=
  match c with
  | CallSet key value options =>
      try_catch (set key value options ;; ret tt)
                (fun _ => log Warn "Failed to cache response")
  | CallInvalidate pattern =>
      try_catch (invalidatePattern pattern ;; log Debug "Cache invalidated")
                (fun _ => log Warn "Cache invalidation failed")
  end.

Fixpoint settle (calls : list Call) : M unit :=
  match calls with
  | [] => ret tt
  | c :: rest => run_call c ;; settle rest
  end.

(** ** The operations of the facade, as one type *)

Inductive Operation : Type :=
| Get (key : string) (options : CacheOptions)
| Set_ (key : string) (value : json) (options : CacheOptions)
| Delete (key : string) (options : CacheOptions)
| Exists (key : string) (options : CacheOptions)
| GetMultiple (keys : list string) (options : CacheOptions)
| SetMultiple (entries : list BatchEntry) (options : CacheOptions)
| InvalidatePattern (pattern : string)
| Flush (pattern : option string)
| HealthCheck
| ResetStats
| Connect
| Disconnect
| GetStats
| EmitConnect
| EmitError
| EmitReconnecting
| EmitReady.

Inductive Value : Type :=
| VJson (v : json)
| VBool (b : bool)
| VNum (n : Z)
| VList (vs : list json)
| VHealth (h : Health)
| VStats (r : StatsReport)
| VUnit.

Definition returning {A} (f : A -> Value) (m : M A) : M Value := a ← m; ret (f a).

Definition run (op : Operation) : M Value :=
  match op with
  | Get key options => returning VJson (get key options)
  | Set_ key value options => returning VBool (set key value options)
  | Delete key options => returning VBool (delete key options)
  | Exists key options => returning VBool (exists_ key options)
  | GetMultiple keys options => returning VList (getMultiple keys options)
  | SetMultiple entries options => returning VBool (setMultiple entries options)
  | InvalidatePattern pattern => returning VNum (invalidatePattern pattern)
  | Flush pattern => returning VBool (flush pattern)
  | HealthCheck => returning VHealth healthCheck
  | ResetStats => returning (fun _ => VUnit) resetStats
  | Connect => returning (fun _ => VUnit) connect
  | Disconnect => returning (fun _ => VUnit) disconnect
  | GetStats => returning VStats (reads getStats)
  | EmitConnect => returning (fun _ => VUnit) (modify on_connect)
  | EmitError => returning (fun _ => VUnit) (modify on_error)
  | EmitReconnecting => returning (fun _ => VUnit) (modify on_reconnecting)
  | EmitReady => returning (fun _ => VUnit) (modify on_ready)
  end.

(** The function an operation hands to [executeWithFallback] as its first
    argument: the calls on the store. *)
Definition attempt (op : Operation) : option (M Value) :=
  match op with
  | Get key options => Some (returning VJson (get_operation key options))
  | Set_ key value options => Some (returning VBool (set_operation key value options))
  | Delete key options => Some (returning VBool (delete_operation key options))
  | Exists key options => Some (returning VBool (exists_operation key options))
  | GetMultiple keys options => Some (returning VList (getMultiple_operation keys options))
  | SetMultiple entries options =>
      Some (returning VBool (setMultiple_operation entries options))
  | InvalidatePattern pattern => Some (returning VNum (invalidatePattern_operation pattern))
  | Flush pattern => Some (returning VBool (flush_operation pattern))
  | _ => None
  end.

(** The safe defaults of the fail-open contract. *)
Definition safe_default (op : Operation) : option Value :=
  match op with
  | Get _ _ => Some (VJson JNull)
  | Set_ _ _ _ | Delete _ _ | Exists _ _ => Some (VBool false)
  | InvalidatePattern _ => Some (VNum 0)
  | _ => None
  end.

Definition same_store (w w' : World) : Prop :=
  wire w' = wire w ∧ db w' = db w ∧ script w' = script w ∧ now w' = now w.

(** Counter by counter. *)
Definition stats_le (s s' : CacheStats) : Prop :=
  hits s <= hits s' ∧ misses s <= misses s' ∧ sets s <= sets s' ∧
  deletes s <= deletes s' ∧ errors s <= errors s'.

(** ** Sample worlds and requests *)

Definition blank : World :=
  {| stats := zero_stats; isConnected := true; db := ∅; script := [];
     wire := []; now := 1700000000000; sink := [] |}.

(** The connection flag is down. *)
Definition offline : World := with_connected false blank.

(** Connected; the replies of the store are given. *)
Definition scripted (replies : list Reply) : World :=
  {| stats := zero_stats; isConnected := true; db := ∅; script := replies;
     wire := []; now := 1700000000000; sink := [] |}.

Definition refused : Reply := {| took := 3; failure := Some "ECONNRESET" |}.
Definition slow : Reply := {| took := 150; failure := None |}.
Definition quick : Reply := {| took := 2; failure := None |}.

(** ** Vocabulary of the statements *)

Definition is_json (a : Action) : bool :=
  match a with
  | Json _ => true
  | _ => false
  end.

(** Induction on JSON values, through arrays and objects. *)
Fixpoint json_induction (P : json -> Prop)
    (Hnull : P JNull) (Hbool : ∀ b, P (JBool b)) (Hnum : ∀ n, P (JNum n))
    (Hdec : ∀ literal, P (JDec literal)) (Hstr : ∀ s, P (JStr s))
    (Harr : ∀ items, Forall P items -> P (JArr items))
    (Hobj : ∀ members, Forall (fun kv => P (snd kv)) members -> P (JObj members))
    (v : json) {struct v} : P v :=
  match v with
  | JNull => Hnull
  | JBool b => Hbool b
  | JNum n => Hnum n
  | JDec literal => Hdec literal
  | JStr s => Hstr s
  | JArr items =>
      Harr items
        ((fix all (l : list json) : Forall P l :=
            match l with
            | [] => @List.Forall_nil _ P
            | x :: l' =>
                @List.Forall_cons _ P x l'
                  (json_induction P Hnull Hbool Hnum Hdec Hstr Harr Hobj x) (all l')
            end) items)
  | JObj members =>
      Hobj members
        ((fix all (l : list (string * json)) : Forall (fun kv => P (snd kv)) l :=
            match l with
            | [] => @List.Forall_nil _ _
            | kv :: l' =>
                @List.Forall_cons _ (fun kv => P (snd kv)) kv l'
                  (json_induction P Hnull Hbool Hnum Hdec Hstr Harr Hobj (snd kv)) (all l')
            end) members)
  end.

(** The nesting of a value: a bound on the fuel its text needs. *)
Fixpoint json_size (v : json) : nat :=
  match v with
  | JArr items => S (list_sum (map (fun x => S (json_size x)) items))
  | JObj members => S (list_sum (map (fun kv => S (json_size (snd kv))) members))
  | _ => 0
  end.

(** Text that may follow a value: the end, or a character that does not
    continue a number. *)
Definition delimited (rest : string) : bool :=
  match rest with
  | EmptyString => true
  | String c _ => negb (is_digit c) && ends_number rest
  end.

(** Every number in [v] is a whole number. *)
Fixpoint integral (v : json) : bool :=
  match v with
  | JDec _ => false
  | JArr items => forallb integral items
  | JObj members => forallb (fun kv => integral (snd kv)) members
  | _ => true
  end.

(** Every number in [v] that is not a whole number is held as a text of
    the grammar of numbers: [v] is a value that [JSON.stringify] writes. *)
Fixpoint serializable (v : json) : Prop :=
  match v with
  | JDec literal => number_literal literal
  | JArr items => fold_right (fun item rest => serializable item ∧ rest) True items
  | JObj members => fold_right (fun kv rest => serializable (snd kv) ∧ rest) True members
  | _ => True
  end.

(** [v] is read back from its text, whatever delimited text follows. *)
Definition reads_back (v : json) : Prop :=
  serializable v ->
  ∀ fuel rest, json_size v < fuel -> delimited rest = true ->
    parse_value fuel (stringify v ++ rest) = Some (v, rest).

(** The text of one member of an object. *)
Definition member_text (kv : string * json) : string :=
  quote (fst kv) ++ ":" ++ stringify (snd kv).

(** The character [x] occurs in [s]. *)
Fixpoint has_char (x : ascii) (s : string) : bool :=
  match s with
  | EmptyString => false
  | String c r => Ascii.eqb x c || has_char x r
  end.

(** The commands that change the content of the store. *)
Definition is_write (c : Command) : bool :=
  match c with
  | SETEX _ _ _ | DEL _ | FLUSHALL => true
  | _ => false
  end.

Definition writes (commands : list Command) : list Command :=
  List.filter is_write commands.

(** The commands that were sent between the world [w] and the later world
    [w']. *)
Definition sent_since (w w' : World) : list Command :=
  drop (length (wire w)) (wire w').

(** The patterns of the [KEYS] commands among [commands]. *)
Definition patterns_asked (commands : list Command) : list string :=
  omap (fun c => match c with
                 | KEYS pattern => Some pattern
                 | _ => None
                 end) commands.

(** The calls of [invalidatePattern] on the patterns, one after the other,
    each followed by the entry in the log. *)
Fixpoint invalidate_all (patterns : list string) : M unit :=
  match patterns with
  | [] => ret tt
  | pattern :: rest =>
      invalidatePattern pattern ;;
      log Debug "Cache invalidated" ;;
      invalidate_all rest
  end.

(** The command is the [SETEX] of one of the calls. *)
Definition written_by (calls : list Call) (c : Command) : Prop :=
  ∃ key value options,
    CallSet key value options ∈ calls ∧
    c = SETEX (buildKey key (prefix options)) (or_else (ttl options) defaultTTL)
          (serialize value).

(** The entry under [k] is what one of the calls stores. *)
Definition stored_by (calls : list Call) (k : string) (e : Entry) : Prop :=
  ∃ key value options,
    CallSet key value options ∈ calls ∧
    k = physical (buildKey key (prefix options)) ∧ payload e = serialize value.

(** [req.user?.id || 'anonymous'] *)
Definition caller_id (req : Request) : string :=
  match user req with
  | Some id => if String.eqb id EmptyString then "anonymous" else id
  | None => "anonymous"
  end.

(** The first character of form-encoded text, decoded, and the rest. *)
Definition form_decode_head (s : string) : option (ascii * string) :=
  match s with
  | EmptyString => None
  | String c r =>
      if Ascii.eqb c "%" then
        match r with
        | String h (String l rest) =>
            match hex_value h, hex_value l with
            | Some x, Some y => Some (ascii_of_N (x * 16 + y), rest)
            | _, _ => None
            end
        | _ => None
        end
      else if Ascii.eqb c "+" then Some (" "%char, r)
      else Some (c, r)
  end.

Definition encode_entry (kv : string * string) : string :=
  form_encode (fst kv) ++ "=" ++ form_encode (snd kv).

(** What follows an entry in a query string: nothing, or [&] and more. *)
Definition entry_tail (t : string) : Prop :=
  t = EmptyString ∨ ∃ r, t = String "&" r.

(** After [METHOD:PATH:], the rest of a default key. *)
Definition key_tail (req : Request) : string :=
  let queryString := URLSearchParams_toString (query_entries req) in
  if String.eqb queryString EmptyString
  then "user:" ++ caller_id req
  else queryString ++ ":user:" ++ caller_id req.

(** The [Cache-Control] header of the response carries [no-cache]. *)
Definition says_no_cache (res : ResponseState) : bool :=
  match getHeader res "Cache-Control" with
  | Some value => includes "no-cache" value
  | None => false
  end.

(** The bodies a handler emits, each with the response as it was at that
    moment, the handler starting from the response [st]. *)
Fixpoint emissions (actions : list Action) (st : ResponseState)
    : list (ResponseState * json) :=
  match actions with
  | [] => []
  | SetHeader name value :: rest => emissions rest (setHeader name value st)
  | Status code :: rest => emissions rest (set_status code st)
  | Json data :: rest => (st, data) :: emissions rest (originalJson data st)
  end.

(** A call on the cache that writes back one of the emitted bodies, the
    response having at that moment a status code in the success range and
    satisfying [condition]. *)
Definition licensed (emitted : list (ResponseState * json))
    (condition : Request -> ResponseState -> bool) (vary : list string)
    (req : Request) (c : Call) : Prop :=
  ∃ key res data options,
    (res, data) ∈ emitted ∧
    c = CallSet key (responseToCache data res vary) options ∧
    is_success (statusCode res) = true ∧
    condition req res = true.

(** The response as the handler finds it after a cache miss. *)
Definition missed (res : Response) : ResponseState :=
  setHeader "X-Cache" "MISS" (state res).

(** A handler that forbids caching of what it answers. *)
Definition no_cache_handler : list Action :=
  [SetHeader "Cache-Control" "no-cache"; Json (JObj [("success", JBool true)])].

Definition plain_handler : list Action :=
  [Status 200; Json (JObj [("success", JBool true)])].

Definition get_reports (q : list (string * string)) (caller : option string) : Request :=
  {| method := "GET"; path := "/api/v1/reports";
     query := map (fun kv => (fst kv, QStr (snd kv))) q; params := [];
     user := caller; req_headers := [] |}.

(** [H / (H + M) * 100], exactly. *)
Definition exact_rate (H M : nat) : Q :=
  (inject_Z (Z.of_nat H) / inject_Z (Z.of_nat (H + M)) * 100)%Q.

(** A number rounded to two decimal places: the nearest multiple of 0.01,
    the upper one when two are equally near. *)
Definition round_2dp (x : Q) : Q := (inject_Z (Qfloor (x * 100 + (1 # 2))) / 100)%Q.

(** [2^-53]: half the distance, relative to 1, between two neighbours of
    the format. *)
Definition unit_roundoff : Q := 1 # 9007199254740992.

(** How far, in hundredths, the three rounded operations of [getStats] can
    take the rate. *)
Definition tie_margin : Q := 1 # 100000000000.

(** The rate [x], in hundredths, is not within [tie_margin] of the middle
    between two whole numbers of hundredths. *)
Definition away_from_tie (x : Q) : Prop :=
  let j := Qfloor (x * 100 + (1 # 2)) in
  (inject_Z j + tie_margin <= x * 100 + (1 # 2))%Q ∧
  (x * 100 + (1 # 2) < inject_Z j + 1 - tie_margin)%Q.

Definition observed (h m : nat) : World :=
  with_stats (fun _ => {| hits := h; misses := m; sets := 8; deletes := 2; errors := 1 |})
    blank.

Definition post_report : Request :=
  {| method := "POST"; path := "/api/v1/reports"; query := []; params := [];
     user := Some "u-17"; req_headers := [] |}.

Definition same_errors (s s' : CacheStats) : Prop := errors s' = errors s.

Definition add_misses (n : nat) (s : CacheStats) : CacheStats :=
  {| hits := hits s; misses := misses s + n; sets := sets s;
     deletes := deletes s; errors := errors s |}.

(** [respects R m]: whatever [m] does, the counters after it are related
    by [R] to the counters before it. *)
Inductive respects (R : CacheStats -> CacheStats -> Prop) {A} (m : M A) : Prop :=
| Respects (H : ∀ w, R (stats w) (stats (snd (m w)))).

(** ** [JwtService] and the authentication middlewares

    [extractTokenFromHeader] and [verifyAccessToken] of the token service,
    and the middlewares [authenticate], [optionalAuthenticate] and
    [authorize] that use them.  [jwt.verify] and the configuration are the
    environment.  An authentication middleware works on
    [req.headers.authorization], [req.user] and the response object. *)

(** [s.split(sep)] for a separator of one character. *)
Fixpoint split_on (sep : ascii) (s : string) : list string :=
  match s with
  | EmptyString => [EmptyString]
  | String c r =>
      if Ascii.eqb c sep then EmptyString :: split_on sep r
      else match split_on sep r with
           | part :: parts => String c part :: parts
           | [] => [String c EmptyString]
           end
  end.

Definition extractTokenFromHeader (authHeader : option string) : option string :=
  match authHeader with
  | None => None
  | Some header =>
      if String.eqb header EmptyString then None
      else
        match split_on " " header with
        | [scheme; token] => if String.eqb scheme "Bearer" then Some token else None
        | _ => None
        end
  end.

Record IUser : Type := {
  user_id : string;
  email : string;
  role : string;
}.

Record IJwtPayload : Type := {
  payload_userId : string;
  payload_email : string;
  payload_role : string;
}.

(** What [jwt.verify] throws: a [TokenExpiredError], another
    [JsonWebTokenError], or something else. *)
Inductive JwtFailure : Type := TokenExpired | JsonWebTokenFailure | OtherFailure.

Record AppError : Type := {
  app_statusCode : Z;
  app_message : string;
}.

(** The configuration and the library: the legacy API token, and
    [jwt.verify] with the access-token secret, the issuer and the
    audience. *)
Record AuthEnv : Type := {
  apiToken : string;
  jwt_verify : string -> JwtFailure + IJwtPayload;
}.

Definition UNAUTHORIZED : Z := 401.
Definition FORBIDDEN : Z := 403.
Definition NO_TOKEN : string := "No authentication token provided".
Definition INVALID_TOKEN : string := "Invalid authentication token".
Definition INSUFFICIENT_PERMISSIONS : string := "Insufficient permissions".

Definition verifyAccessToken (env : AuthEnv) (token : string) : AppError + IJwtPayload :=
  match jwt_verify env token with
  | inr decoded => inr decoded
  | inl TokenExpired =>
      inl {| app_statusCode := UNAUTHORIZED; app_message := "Access token has expired" |}
  | inl JsonWebTokenFailure =>
      inl {| app_statusCode := UNAUTHORIZED; app_message := "Invalid access token" |}
  | inl OtherFailure =>
      inl {| app_statusCode := UNAUTHORIZED; app_message := "Token verification failed" |}
  end.

(** What an authentication middleware leaves behind: whether it called
    [next()], [req.user], the response object and the calls started by the
    overrides of [res.json]. *)
Record AuthStep : Type := {
  granted : bool;
  req_user : option IUser;
  answer : Response;
  answer_calls : list Call;
}.

Definition api_failure (error message : string) : json :=
  JObj [("success", JBool false); ("error", JStr error); ("message", JStr message)].

(** [res.status(code).json(response); return;] *)
Definition refuse (code : Z) (body : json) (current : option IUser) (res : Response)
    : M AuthStep :=
  '(res', calls) ← res_json (on_state (set_status code) res) body;
  ret {| granted := false; req_user := current; answer := res'; answer_calls := calls |}.

Definition proceed (who : option IUser) (res : Response) : M AuthStep :=
  ret {| granted := true; req_user := who; answer := res; answer_calls := [] |}.

Definition user_of (payload : IJwtPayload) : IUser :=
  {| user_id := payload_userId payload; email := payload_email payload;
     role := payload_role payload |}.

Definition legacy_admin : IUser :=
  {| user_id := "legacy-admin-user-id"; email := "admin@bugbounty.com"; role := "admin" |}.

(** The [try] block ran to its end. *)
Definition completed (m : M AuthStep) : M (option AppError + AuthStep) :=
  step ← m; ret (inr step).

(** [authenticate].  [inl (Some e)] is the [AppError] that the [try] block
    threw, [inl None] any other error. *)
Definition authenticate (env : AuthEnv) (authorization : option string)
    (current : option IUser) (res : Response) : M AuthStep :=
  attempt ← try_catch
    (match extractTokenFromHeader authorization with
     | Some token =>
         if String.eqb token EmptyString
         then completed (refuse UNAUTHORIZED (api_failure "Unauthorized" NO_TOKEN) current res)
         else if String.eqb token (apiToken env)
         then completed (proceed (Some legacy_admin) res)
         else
           match verifyAccessToken env token with
           | inr payload =>
               log Debug "User authenticated via JWT" ;;
               completed (proceed (Some (user_of payload)) res)
           | inl e => ret (inl (Some e))
           end
     | None => completed (refuse UNAUTHORIZED (api_failure "Unauthorized" NO_TOKEN) current res)
     end)
    (fun _ => ret (inl None));
  match attempt with
  | inr step => ret step
  | inl (Some e) =>
      refuse (app_statusCode e) (api_failure "Unauthorized" (app_message e)) current res
  | inl None =>
      log Error "Authentication error" ;;
      refuse UNAUTHORIZED (api_failure "Unauthorized" INVALID_TOKEN) current res
  end.

Definition optionalAuthenticate (env : AuthEnv) (authorization : option string)
    (current : option IUser) (res : Response) : M AuthStep :=
  try_catch
    (match extractTokenFromHeader authorization with
     | Some token =>
         if String.eqb token EmptyString then proceed current res
         else
           match verifyAccessToken env token with
           | inr payload => proceed (Some (user_of payload)) res
           | inl e => throw (app_message e)
           end
     | None => proceed current res
     end)
    (fun _ => proceed current res).

Definition authorize (allowedRoles : list string) (current : option IUser) (res : Response)
    : M AuthStep :=
  match current with
  | None =>
      refuse UNAUTHORIZED (api_failure "Unauthorized" "User not authenticated") current res
  | Some who =>
      if negb (existsb (String.eqb (role who)) allowedRoles) then
        log Warn "Insufficient permissions" ;;
        refuse FORBIDDEN (api_failure "Forbidden" INSUFFICIENT_PERMISSIONS) current res
      else proceed current res
  end.

(** ** [MetricsCollector] *)

Module Metrics.

Record MetricData : Type := {
  metric_name : string;
  metric_value : Z;
  metric_unit : string;
  metric_timestamp : Z;
  metric_tags : option (list (string * string));
}.

(** The fields of the collector that [recordMetric], [recordHttpRequest]
    and [reset] work on; the values it records are whole numbers (counts
    and differences of [Date.now()]). *)
Record Collector : Type := {
  metrics : gmap string (list MetricData);
  requestCount : nat;
  requestDuration : list Z;
  errorCount : nat;
}.

Definition maxMetricsHistory : nat := 1000.

(** [history.push(x)], and [history.shift()] when it has become too long. *)
Definition push_bounded {A} (x : A) (history : list A) : list A :=
  let history := (history ++ [x])%list in
  if (maxMetricsHistory <? length history)%nat then tail history else history.

(** [recordMetric(name, value, unit, tags)], [new Date()] giving [date]. *)
Definition recordMetric (name : string) (value : Z) (unit : string)
    (tags : option (list (string * string))) (date : Z) (c : Collector) : Collector :=
  let metric :=
    {| metric_name := name; metric_value := value; metric_unit := unit;
       metric_timestamp := date; metric_tags := tags |} in
  let metricHistory := default [] (metrics c !! name) in
  {| metrics := <[name := push_bounded metric metricHistory]> (metrics c);
     requestCount := requestCount c;
     requestDuration := requestDuration c;
     errorCount := errorCount c |}.

(** What [recordHttpRequest] reads of the request and the response:
    [req.method], [req.route?.path || req.path] and [res.statusCode]. *)
Record HttpSample : Type := {
  sample_method : string;
  sample_route : string;
  sample_status : Z;
}.

(** [dates] are the values of [new Date()] in the calls of [recordMetric],
    in order. *)
Definition recordHttpRequest (sample : HttpSample) (duration : Z) (dates : Z * Z * Z)
    (c : Collector) : Collector :=
  let '(date1, date2, date3) := dates in
  let c1 :=
    {| metrics := metrics c;
       requestCount := S (requestCount c);
       requestDuration := push_bounded duration (requestDuration c);
       errorCount := errorCount c |} in
  let tags :=
    Some [("method", sample_method sample);
          ("route", sample_route sample);
          ("status_code", string_of_Z (sample_status sample));
          ("status_class", string_of_Z (sample_status sample / 100) ++ "xx")] in
  let c2 := recordMetric "http_requests_total" 1 "count" tags date1 c1 in
  let c3 := recordMetric "http_request_duration" duration "milliseconds" tags date2 c2 in
  if (400 <=? sample_status sample)%Z then
    recordMetric "http_errors_total" 1 "count" tags date3
      {| metrics := metrics c3;
         requestCount := requestCount c3;
         requestDuration := requestDuration c3;
         errorCount := S (errorCount c3) |}
  else c3.

Definition reset : Collector :=
  {| metrics := ∅; requestCount := 0; requestDuration := []; errorCount := 0 |}.

(** [getMetrics(name)] for a name that is not empty. *)
Definition getMetrics (name : string) (c : Collector) : list MetricData :=
  default [] (metrics c !! name).

(** [calculatePercentile].  [Math.ceil((percentile / 100) * n) - 1] is
    computed exactly; this is the index the method computes for the
    percentiles 95 and 99 it is called with, on the durations the collector
    keeps (at most 1000).  The values are whole numbers, which the
    comparison function puts in increasing order. *)
Definition calculatePercentile (values : list Z) (percentile : Z) : Z :=
  let sorted := merge_sort Z.le values in
  let index := ((percentile * Z.of_nat (length sorted) + 99) / 100 - 1)%Z in
  if (index <? 0)%Z then 0%Z
  else default 0%Z (sorted !! Z.to_nat index).

End Metrics.

(** ** [StructuredLogger] *)

Module Logger.

Inductive LogLevel : Type := ERROR | WARN | INFO | DEBUG.

(** The value of a member of the enum. *)
Definition level_rank (level : LogLevel) : Z :=
  match level with
  | ERROR => 0
  | WARN => 1
  | INFO => 2
  | DEBUG => 3
  end.

Definition parseLogLevel (level : string) : LogLevel :=
  let l := lower level in
  if String.eqb l "error" then ERROR
  else if String.eqb l "warn" then WARN
  else if String.eqb l "info" then INFO
  else if String.eqb l "debug" then DEBUG
  else INFO.

(** [level <= this.logLevel] *)
Definition shouldLog (logLevel level : LogLevel) : bool :=
  (level_rank level <=? level_rank logLevel)%Z.

(** A value of a log context: a JSON value, or an [Error] object. *)
Inductive ContextValue : Type :=
| Plain (v : json)
| ErrorObject (name message : string) (stack : option string).

Definition LogContext : Type := list (string * ContextValue).

Definition sensitiveFields : list string :=
  ["password"; "token"; "secret"; "key"; "authorization"].

(** Text in which every character is an ASCII character. *)
Fixpoint ascii_text (s : string) : bool :=
  match s with
  | EmptyString => true
  | String c r => (N_of_ascii c <? 128)%N && ascii_text r
  end.

(** [sensitiveFields.some((field) => key.toLowerCase().includes(field))].
    [lower] turns the letters [A] to [Z] into lower case and keeps every
    other character: on ASCII text this is [toLowerCase].  Outside ASCII
    [toLowerCase] does more, and the Kelvin sign becomes the letter [k], so
    that a key may be sensitive for the code and not for [sensitive]; a key
    that is sensitive for [sensitive] is sensitive for the code. *)
Definition sensitive (key : string) : bool :=
  existsb (fun field => includes field (lower key)) sensitiveFields.

Definition REDACTED : ContextValue := Plain (JStr "[REDACTED]").

(** [{ name, message, stack }] of an [Error]. *)
Definition error_fields (v : ContextValue) : ContextValue :=
  match v with
  | ErrorObject name message stack =>
      Plain (JObj ([("name", JStr name); ("message", JStr message)]
                   ++ match stack with
                      | Some text => [("stack", JStr text)]
                      | None => []
                      end))
  | Plain _ => v
  end.

Definition redact (kv : string * ContextValue) : string * ContextValue :=
  if sensitive (fst kv) then (fst kv, REDACTED) else kv.

Definition serialize_error (kv : string * ContextValue) : string * ContextValue :=
  if String.eqb (fst kv) "error" then (fst kv, error_fields (snd kv)) else kv.

Definition sanitizeContext (context : option LogContext) : option LogContext :=
  match context with
  | None => None
  | Some context =>
      let sanitized := map redact context in
      Some (map serialize_error sanitized)
  end.

End Logger.

Export Logger.

(** ** More vocabulary *)

Definition add_hits (n : nat) (s : CacheStats) : CacheStats :=
  {| hits := hits s + n; misses := misses s; sets := sets s;
     deletes := deletes s; errors := errors s |}.

(** What [getMultiple] makes of one reply of [MGET]. *)
Definition revive (result : option string) : json :=
  match result with
  | Some payload => deserialize payload
  | None => JNull
  end.

Definition found (results : list (option string)) : nat :=
  length (filter is_Some results).

(** The values [get] gives back as they were [set]: every value that is not
    a string, and every string that [JSON.parse] rejects. *)
Definition round_trippable (v : json) : Prop :=
  (serializable v ∧ ∀ s, v ≠ JStr s) ∨ (∃ s, v = JStr s ∧ parse s = None).

(** What [setMultiple] puts in the pipeline for one entry. *)
Definition entry_seconds (options : CacheOptions) (entry : BatchEntry) : Z :=
  or_else (entry_ttl entry) (or_else (ttl options) defaultTTL).

(** The command that [setMultiple] queues for one entry. *)
Definition entry_command (options : CacheOptions) (entry : BatchEntry) : Command :=
  SETEX (buildKey (entry_key entry) (prefix options)) (entry_seconds options entry)
    (serialize (entry_value entry)).

(** The replies that the next [n] commands get from the store. *)
Fixpoint upcoming (n : nat) (replies : list Reply) : list Reply :=
  match n with
  | 0 => []
  | S n' =>
      match replies with
      | [] => instant :: upcoming n' []
      | r :: rest => r :: upcoming n' rest
      end
  end.

(** The response as a handler leaves it. *)
Fixpoint finish (actions : list Action) (st : ResponseState) : ResponseState :=
  match actions with
  | [] => st
  | SetHeader name value :: rest => finish rest (setHeader name value st)
  | Status code :: rest => finish rest (set_status code st)
  | Json data :: rest => finish rest (originalJson data st)
  end.

(** Nothing but the log and the metrics differ. *)
Definition quiet (w w' : World) : Prop :=
  stats w' = stats w ∧ isConnected w' = isConnected w ∧ db w' = db w ∧
  script w' = script w ∧ wire w' = wire w ∧ now w' = now w.

(** The write that the override of [res.json] starts for one emitted body. *)
Definition write_back (req : Request) (cacheKey : string) (seconds : Z)
    (condition : Request -> ResponseState -> bool) (vary : list string)
    (emitted : ResponseState * json) : list Call :=
  if condition req (fst emitted) && (200 <=? statusCode (fst emitted))%Z
     && (statusCode (fst emitted) <? 300)%Z
  then [CallSet cacheKey (responseToCache (snd emitted) (fst emitted) vary)
          {| ttl := Some seconds; prefix := Some "response"; compress := None |}]
  else [].

(** The entry [kv] is the header of its name as the response [st] has it,
    and that header is not empty. *)
Definition header_of (st : ResponseState) (kv : string * json) : Prop :=
  ∃ s, snd kv = JStr s ∧ s ≠ EmptyString ∧ getHeader st (fst kv) = Some s.

(** The body of [vary.forEach]: one header name. *)
Definition keep_header (st : ResponseState) (headers : list (string * json))
    (headerName : string) : list (string * json) :=
  match truthy_header (getHeader st headerName) with
  | Some value => assign headerName (JStr value) headers
  | None => headers
  end.


(** The token of the request is accepted. *)
Definition accepted (env : AuthEnv) (authorization : option string) (who : IUser) : Prop :=
  ∃ token,
    authorization = Some ("Bearer " ++ token) ∧ has_char " " token = false ∧
    token ≠ EmptyString ∧
    ((token = apiToken env ∧ who = legacy_admin) ∨
     (token ≠ apiToken env ∧ ∃ payload, jwt_verify env token = inr payload ∧
                                         who = user_of payload)).

Definition refused_with (code : Z) (error : string) (step : AuthStep) : Prop :=
  statusCode (state (answer step)) = code ∧
  ∃ message, sent (state (answer step)) = Some (api_failure error message).

(** The metric a call of [recordMetric] records. *)
Definition record_one (m : Metrics.MetricData) (c : Metrics.Collector) : Metrics.Collector :=
  Metrics.recordMetric (Metrics.metric_name m) (Metrics.metric_value m)
    (Metrics.metric_unit m) (Metrics.metric_tags m) (Metrics.metric_timestamp m) c.

(** The last [n] elements of a list. *)
Definition last_n {A} (n : nat) (l : list A) : list A := drop (length l - n) l.

Definition named (name : string) (m : Metrics.MetricData) : bool :=
  String.eqb (Metrics.metric_name m) name.

Definition observe (call : Metrics.HttpSample * Z * (Z * Z * Z)) (c : Metrics.Collector)
    : Metrics.Collector :=
  Metrics.recordHttpRequest (fst (fst call)) (snd (fst call)) (snd call) c.

Definition failed (call : Metrics.HttpSample * Z * (Z * Z * Z)) : bool :=
  (400 <=? Metrics.sample_status (fst (fst call)))%Z.

(** A store that holds one cached response. *)
Definition seeded : World :=
  with_db (fun _ => {[ "bug-bounty:response:reports:stats" :=
                         {| payload := "{}"; expires_at := 1700000300000 |} ]}) blank.


(** A configuration, and a library that accepts one token. *)
Definition sample_env : AuthEnv :=
  {| apiToken := "default-dev-token";
     jwt_verify := fun token =>
       if String.eqb token "good.jwt.token"
       then inr {| payload_userId := "u-17"; payload_email := "t@example.org";
                   payload_role := "triager" |}
       else inl JsonWebTokenFailure |}.

(* ================================================================== *)
(** * Part II: properties                                              *)
(* ================================================================== *)

(** ** Computations and the counters *)

Section Respects.

Context (R : CacheStats -> CacheStats -> Prop) `{!PreOrder R}.

#[local] Abbreviation respects := (respects R).

Lemma respects_at {A} (m : M A) w : respects m -> R (stats w) (stats (snd (m w))).
Proof. intros [H]. apply H. Qed.

Lemma respects_ret {A} (a : A) : respects (ret a).
Proof. constructor. intros w. simpl. reflexivity. Qed.

Lemma respects_throw {A} e : respects (@throw A e).
Proof. constructor. intros w. simpl. reflexivity. Qed.

Lemma respects_reads {A} (f : World -> A) : respects (reads f).
Proof. constructor. intros w. simpl. reflexivity. Qed.

Lemma respects_bind {A B} (m : M A) (k : A -> M B) :
  respects m -> (∀ a, respects (k a)) -> respects (bind m k).
Proof.
  intros [Hm] Hk. constructor. intros w. unfold bind. specialize (Hm w).
  destruct (m w) as [[a | e] w1]; simpl in *; [| done].
  etransitivity; [exact Hm | by apply respects_at].
Qed.

Lemma respects_mbind {A B} (m : M A) (k : A -> M B) :
  respects m -> (∀ a, respects (k a)) -> respects (m ≫= k).
Proof. apply respects_bind. Qed.

Lemma respects_try_catch {A} (m : M A) (h : string -> M A) :
  respects m -> (∀ e, respects (h e)) -> respects (try_catch m h).
Proof.
  intros [Hm] Hh. constructor. intros w. unfold try_catch. specialize (Hm w).
  destruct (m w) as [[a | e] w1]; simpl in *; [done |].
  etransitivity; [exact Hm | by apply respects_at].
Qed.

Lemma respects_round_trip {A} c (serve : Z -> gmap string Entry -> A * gmap string Entry) :
  respects (round_trip c serve).
Proof.
  constructor. intros w. unfold round_trip, on_wire. simpl.
  destruct (failure (next_reply w)); simpl; [reflexivity |].
  destruct (serve _ _); simpl. reflexivity.
Qed.

Lemma respects_modify (f : World -> World) :
  (∀ w, R (stats w) (stats (f w))) -> respects (modify f).
Proof. intros Hf. constructor. intros w. simpl. apply Hf. Qed.

Lemma respects_log l msg : respects (log l msg).
Proof. apply respects_modify. intros w. simpl. reflexivity. Qed.

Lemma respects_recordMetric name v : respects (recordMetric name v).
Proof. apply respects_modify. intros w. simpl. reflexivity. Qed.

Lemma respects_with_connected b : respects (modify (with_connected b)).
Proof. apply respects_modify. intros w. simpl. reflexivity. Qed.

Lemma respects_returning {A} (f : A -> Value) (m : M A) :
  respects m -> respects (returning f m).
Proof. intros Hm. apply respects_bind; [done | intros; apply respects_ret]. Qed.

End Respects.

#[local] Instance stats_le_preorder : PreOrder stats_le.
Proof.
  split.
  - intros s. unfold stats_le. lia.
  - intros s1 s2 s3. unfold stats_le. lia.
Qed.

#[local] Instance same_errors_preorder : PreOrder same_errors.
Proof.
  split.
  - intros s. reflexivity.
  - intros s1 s2 s3. unfold same_errors. congruence.
Qed.

Ltac preorder := try lazymatch goal with |- PreOrder _ => apply _ end.

Ltac respects_step :=
  first
    [ apply respects_ret; preorder
    | apply respects_reads; preorder
    | apply respects_round_trip; preorder
    | apply respects_log; preorder
    | apply respects_recordMetric; preorder
    | apply respects_with_connected; preorder
    | apply respects_throw; preorder
    | apply respects_returning; preorder
    | apply respects_mbind; preorder; [| intros ?]
    | apply respects_try_catch; preorder; [| intros ?]
    | apply respects_modify; preorder; intros ?; simpl;
      first [ reflexivity | unfold stats_le, same_errors; simpl; lia ] ].

Section Commands.

Context (R : CacheStats -> CacheStats -> Prop) `{!PreOrder R}.

Lemma respects_Date_now : respects R Date_now.
Proof. by apply respects_reads. Qed.

Lemma respects_redis_get k : respects R (redis_get k).
Proof. by apply respects_round_trip. Qed.

Lemma respects_redis_setex k t v : respects R (redis_setex k t v).
Proof. by apply respects_round_trip. Qed.

Lemma respects_redis_del ks : respects R (redis_del ks).
Proof. by apply respects_round_trip. Qed.

Lemma respects_redis_exists k : respects R (redis_exists k).
Proof. by apply respects_round_trip. Qed.

Lemma respects_redis_flushall : respects R redis_flushall.
Proof. by apply respects_round_trip. Qed.

Lemma respects_redis_keys p : respects R (redis_keys p).
Proof. by apply respects_round_trip. Qed.

Lemma respects_redis_mget ks : respects R (redis_mget ks).
Proof. by apply respects_round_trip. Qed.

Lemma respects_pipeline_exec b : respects R (pipeline_exec b).
Proof.
  induction b as [| [[k seconds] v] b IH]; simpl; [by apply respects_ret |].
  apply respects_mbind; [done | |].
  - apply respects_try_catch; [done | |].
    + apply respects_mbind; [done | by apply respects_round_trip |].
      intros _. by apply respects_ret.
    + intros e. by apply respects_ret.
  - intros r. apply respects_mbind; [done | exact IH |].
    intros rs. by apply respects_ret.
Qed.

Lemma respects_redis_ping : respects R redis_ping.
Proof. by apply respects_round_trip. Qed.

Lemma respects_redis_disconnect : respects R redis_disconnect.
Proof. by apply respects_round_trip. Qed.

Lemma respects_redis_connect : respects R redis_connect.
Proof.
  unfold redis_connect. apply respects_bind; preorder; [by apply respects_round_trip |].
  intros _. apply respects_modify; preorder. intros w. simpl. reflexivity.
Qed.

End Commands.

Create HintDb respects.

#[local] Hint Resolve respects_Date_now respects_redis_get respects_redis_setex
  respects_redis_del respects_redis_exists respects_redis_flushall respects_redis_keys
  respects_redis_mget respects_pipeline_exec respects_redis_ping
  respects_redis_disconnect respects_redis_connect : respects.

Ltac respects_solve :=
  repeat first [ solve [ eauto with respects typeclass_instances ] | respects_step ].

(** The calls on the store never touch the [errors] counter. *)
Lemma get_operation_errors k o : respects same_errors (get_operation k o).
Proof.
  unfold get_operation. respects_solve.
  destruct a0; respects_solve.
Qed.

Lemma set_operation_errors k v o : respects same_errors (set_operation k v o).
Proof. unfold set_operation. respects_solve. Qed.

Lemma delete_operation_errors k o : respects same_errors (delete_operation k o).
Proof. unfold delete_operation. respects_solve. Qed.

Lemma exists_operation_errors k o : respects same_errors (exists_operation k o).
Proof. unfold exists_operation. respects_solve. Qed.

Lemma invalidatePattern_operation_errors p :
  respects same_errors (invalidatePattern_operation p).
Proof.
  unfold invalidatePattern_operation. respects_solve.
  destruct (0 <? length a)%nat; respects_solve.
Qed.

(** ** The fail-open wrapper *)

Ltac run_M :=
  unfold returning, executeWithFallback, try_catch, mbind, M_bind, bind, mret, M_ret,
    ret, reads, modify, log, throw; simpl.

Lemma executeWithFallback_offline {T} (operation fallback : M T) w :
  isConnected w = false ->
  executeWithFallback operation fallback w = fallback w.
Proof. intros Hw. run_M. by rewrite Hw. Qed.

Lemma executeWithFallback_ok {T} (operation fallback : M T) w a w1 :
  isConnected w = true -> operation w = (Ok a, w1) ->
  executeWithFallback operation fallback w = (Ok a, w1).
Proof. intros Hw Hop. run_M. by rewrite Hw, Hop. Qed.

Lemma executeWithFallback_throws {T} (operation fallback : M T) w e w1 :
  isConnected w = true -> operation w = (Throw e, w1) ->
  executeWithFallback operation fallback w =
  fallback (with_sink (Logged Warn "Cache operation failed, using fallback")
              (with_stats inc_errors w1)).
Proof. intros Hw Hop. run_M. by rewrite Hw, Hop. Qed.

Lemma returning_throws {A} (f : A -> Value) (m : M A) w e :
  fst (returning f m w) = Throw e -> m w = (Throw e, snd (m w)).
Proof.
  unfold returning. run_M. destruct (m w) as [[a | e'] w1]; simpl; [done |].
  by intros [= ->].
Qed.

Lemma run_returning {A} (f : A -> Value) (m : M A) w a w1 :
  m w = (Ok a, w1) -> returning f m w = (Ok (f a), w1).
Proof. intros H. run_M. by rewrite H. Qed.

(** One fail-open operation whose calls on the store throw: the fallback
    runs on the world the failed attempt left, with one more error. *)
Lemma fail_open_throws {T} (f : T -> Value) (operation fallback : M T) w e d w2 :
  isConnected w = true ->
  respects same_errors operation ->
  (∀ w', fallback w' = (Ok d, w2 w') ∧ errors (stats (w2 w')) = errors (stats w')) ->
  fst (returning f operation w) = Throw e ->
  fst (returning f (executeWithFallback operation fallback) w) = Ok (f d) ∧
  errors (stats (snd (returning f (executeWithFallback operation fallback) w)))
  = S (errors (stats w)).
Proof.
  intros Hw Hop Hfb Hthrow. apply returning_throws in Hthrow.
  pose proof (respects_at same_errors operation w Hop) as Herr.
  set (w1 := snd (operation w)) in *.
  pose proof (executeWithFallback_throws operation fallback w e w1 Hw Hthrow) as Hrun.
  destruct (Hfb (with_sink (Logged Warn "Cache operation failed, using fallback")
                   (with_stats inc_errors w1))) as [Hd He].
  rewrite Hd in Hrun.
  rewrite (run_returning f _ w d _ Hrun). simpl. split; [done |].
  rewrite He. simpl. unfold same_errors in Herr. by rewrite Herr.
Qed.

(** The first thing the calls on the store of a fail-open operation do is
    a round trip: when the store refuses it, they throw. *)
Lemma attempt_refused op d m w message :
  safe_default op = Some d -> attempt op = Some m ->
  failure (next_reply w) = Some message ->
  fst (m w) = Throw message.
Proof.
  intros Hd Hm Hfail.
  destruct op; try discriminate Hd; injection Hm as <-;
    unfold get_operation, set_operation, delete_operation, exists_operation,
      invalidatePattern_operation, redis_get, redis_setex, redis_del, redis_exists,
      redis_keys, round_trip, on_wire, Date_now;
    run_M; by rewrite Hfail.
Qed.

(** C1. Fail-open invariant: while the connection flag is down, [get],
    [set], [delete], [exists] and [invalidatePattern] return their safe
    default ([null], [false], [false], [false], [0]) as a normal result and
    send nothing to the store; while the flag is up and the calls on the
    store throw (as they do when the store refuses the command), they
    return the same default, again as a normal result, and the [errors]
    counter is one more than before. *)
Theorem fail_open_invariant (op : Operation) (d : Value) (w : World) :
  safe_default op = Some d ->
  (isConnected w = false ->
     fst (run op w) = Ok d ∧ same_store w (snd (run op w))) ∧
  (isConnected w = true ->
     ∀ m, attempt op = Some m -> (∃ e, fst (m w) = Throw e) ->
       fst (run op w) = Ok d ∧
       errors (stats (snd (run op w))) = S (errors (stats w))) ∧
  (isConnected w = true ->
     ∀ message, failure (next_reply w) = Some message ->
       fst (run op w) = Ok d ∧
       errors (stats (snd (run op w))) = S (errors (stats w))).
Proof.
  intros Hd.
  assert (isConnected w = true ->
          ∀ m, attempt op = Some m -> (∃ e, fst (m w) = Throw e) ->
            fst (run op w) = Ok d ∧
            errors (stats (snd (run op w))) = S (errors (stats w))) as Hthrows.
  { intros Hw m Hm [e He].
    destruct op; try discriminate Hd; injection Hd as <-; injection Hm as <-.
    + apply (fail_open_throws VJson _ _ w e JNull (with_stats inc_misses));
        [done | apply get_operation_errors | done | done].
    + apply (fail_open_throws VBool _ _ w e false id);
        [done | apply set_operation_errors | done | done].
    + apply (fail_open_throws VBool _ _ w e false id);
        [done | apply delete_operation_errors | done | done].
    + apply (fail_open_throws VBool _ _ w e false id);
        [done | apply exists_operation_errors | done | done].
    + apply (fail_open_throws VNum _ _ w e 0%Z id);
        [done | apply invalidatePattern_operation_errors | done | done]. }
  split; [| split; [exact Hthrows |]].
  - intros Hw.
    destruct op; try discriminate Hd; injection Hd as <-;
      unfold run, get, set, delete, exists_, invalidatePattern;
      unfold returning at 1 2; unfold mbind, M_bind, bind;
      rewrite (executeWithFallback_offline _ _ w Hw); simpl; by repeat split.
  - intros Hw message Hfail.
    assert (∃ m, attempt op = Some m) as [m Hm] by (destruct op; try done; eauto).
    apply (Hthrows Hw m Hm). exists message.
    by apply (attempt_refused op d m w message).
Qed.

Lemma fail_open_invariant_witness :
  (fst (run (Get "report" no_options) offline) = Ok (VJson JNull) ∧
   same_store offline (snd (run (Get "report" no_options) offline))) ∧
  (fst (run (Delete "report" no_options) (scripted [refused])) = Ok (VBool false) ∧
   errors (stats (snd (run (Delete "report" no_options) (scripted [refused])))) = 1).
Proof.
  split.
  - exact (proj1 (fail_open_invariant (Get "report" no_options) (VJson JNull) offline
                    eq_refl) eq_refl).
  - exact (proj1 (proj2 (fail_open_invariant (Delete "report" no_options) (VBool false)
                           (scripted [refused]) eq_refl))
             eq_refl _ eq_refl (ex_intro _ "ECONNRESET" eq_refl)).
Defined.

(** ** Batched reads while the store is away *)

Lemma getMultiple_fallback_spec keys w :
  getMultiple_fallback keys w =
  (Ok (replicate (length keys) JNull), with_stats (add_misses (length keys)) w).
Proof.
  revert w. induction keys as [| k keys IH]; intros w.
  - simpl. unfold ret, with_stats, add_misses. destruct w as [[] ? ? ? ? ? ?]; simpl.
    do 3 f_equal. lia.
  - simpl. run_M. rewrite IH. simpl.
    unfold with_stats, add_misses, inc_misses. simpl. do 3 f_equal. lia.
Qed.

(** C7. With the connection flag down [getMultiple] sends nothing to the
    store and returns, as a normal result, a list that holds no value at
    all, one [null] per requested key; every one of them is counted as a
    miss. *)
Theorem getMultiple_offline (keys : list string) (options : CacheOptions) (w : World) :
  isConnected w = false ->
  fst (getMultiple keys options w) = Ok (replicate (length keys) JNull) ∧
  same_store w (snd (getMultiple keys options w)) ∧
  misses (stats (snd (getMultiple keys options w))) = misses (stats w) + length keys.
Proof.
  intros Hw. unfold getMultiple.
  rewrite (executeWithFallback_offline _ _ w Hw), getMultiple_fallback_spec.
  simpl. by repeat split.
Qed.

Lemma getMultiple_offline_witness :
  fst (getMultiple ["a"; "b"; "c"] no_options offline) = Ok [JNull; JNull; JNull] ∧
  same_store offline (snd (getMultiple ["a"; "b"; "c"] no_options offline)) ∧
  misses (stats (snd (getMultiple ["a"; "b"; "c"] no_options offline))) = 3.
Proof. exact (getMultiple_offline ["a"; "b"; "c"] no_options offline eq_refl). Defined.

(** ** Health *)

(** C8. [healthCheck] answers [healthy] when the ping succeeds and the
    measured latency is below 100 ms, [degraded] when it succeeds with a
    latency of 100 ms or more, and [unhealthy] with the message of the
    error when the ping throws. *)
Theorem healthCheck_classification (w : World) :
  (failure (next_reply w) = None -> (took (next_reply w) < 100)%Z ->
     fst (healthCheck w) =
     Ok {| status := healthy; latency := Some (took (next_reply w)); error := None |}) ∧
  (failure (next_reply w) = None -> (100 <= took (next_reply w))%Z ->
     fst (healthCheck w) =
     Ok {| status := degraded; latency := Some (took (next_reply w)); error := None |}) ∧
  (∀ message, failure (next_reply w) = Some message ->
     fst (healthCheck w) =
     Ok {| status := unhealthy; latency := None; error := Some message |}).
Proof.
  unfold healthCheck, redis_ping, round_trip, on_wire, Date_now. run_M.
  repeat split.
  - intros Hok Hfast. rewrite Hok. simpl.
    replace (now w + took (next_reply w) - now w)%Z with (took (next_reply w)) by lia.
    by rewrite (proj2 (Z.ltb_lt _ _) Hfast).
  - intros Hok Hslow. rewrite Hok. simpl.
    replace (now w + took (next_reply w) - now w)%Z with (took (next_reply w)) by lia.
    by rewrite (proj2 (Z.ltb_ge _ _) Hslow).
  - intros message Hfail. by rewrite Hfail.
Qed.

Lemma healthCheck_classification_witness :
  fst (healthCheck (scripted [quick])) =
    Ok {| status := healthy; latency := Some 2%Z; error := None |} ∧
  fst (healthCheck (scripted [slow])) =
    Ok {| status := degraded; latency := Some 150%Z; error := None |} ∧
  fst (healthCheck (scripted [refused])) =
    Ok {| status := unhealthy; latency := None; error := Some "ECONNRESET" |}.
Proof.
  split; [| split].
  - apply (proj1 (healthCheck_classification (scripted [quick]))); [reflexivity | simpl; lia].
  - apply (proj1 (proj2 (healthCheck_classification (scripted [slow]))));
      [reflexivity | simpl; lia].
  - apply (proj2 (proj2 (healthCheck_classification (scripted [refused])))). reflexivity.
Defined.

(** ** The counters only grow *)

Lemma grows_executeWithFallback {T} (operation fallback : M T) :
  respects stats_le operation -> respects stats_le fallback ->
  respects stats_le (executeWithFallback operation fallback).
Proof.
  intros Hop Hfb. unfold executeWithFallback.
  apply respects_mbind; preorder; [respects_solve |].
  intros [|]; [| done]. respects_solve.
Qed.

Lemma grows_collect results : respects stats_le (collect results).
Proof.
  induction results as [| [payload |] rest IH]; simpl; respects_solve.
Qed.

Lemma grows_getMultiple_fallback keys : respects stats_le (getMultiple_fallback keys).
Proof.
  induction keys as [| k rest IH]; simpl; respects_solve.
Qed.

Lemma grows_get k o : respects stats_le (get k o).
Proof.
  apply grows_executeWithFallback.
  - unfold get_operation. respects_solve. destruct a0; respects_solve.
  - unfold get_fallback. respects_solve.
Qed.

Lemma grows_set k v o : respects stats_le (set k v o).
Proof.
  apply grows_executeWithFallback; [unfold set_operation |]; respects_solve.
Qed.

Lemma grows_delete k o : respects stats_le (delete k o).
Proof.
  apply grows_executeWithFallback; [unfold delete_operation |]; respects_solve.
Qed.

Lemma grows_exists k o : respects stats_le (exists_ k o).
Proof.
  apply grows_executeWithFallback; [unfold exists_operation |]; respects_solve.
Qed.

Lemma grows_getMultiple ks o : respects stats_le (getMultiple ks o).
Proof.
  apply grows_executeWithFallback.
  - unfold getMultiple_operation. respects_solve. apply grows_collect.
  - apply grows_getMultiple_fallback.
Qed.

Lemma grows_setMultiple es o : respects stats_le (setMultiple es o).
Proof.
  apply grows_executeWithFallback; [unfold setMultiple_operation |]; respects_solve.
Qed.

Lemma grows_invalidatePattern p : respects stats_le (invalidatePattern p).
Proof.
  apply grows_executeWithFallback; [unfold invalidatePattern_operation |]; respects_solve.
  destruct (0 <? length a)%nat; respects_solve.
Qed.

Lemma grows_flush p : respects stats_le (flush p).
Proof.
  apply grows_executeWithFallback; [unfold flush_operation |]; respects_solve.
  destruct p as [p |]; [| respects_solve].
  destruct (String.eqb p EmptyString); respects_solve.
  destruct (0 <? length a)%nat; respects_solve.
Qed.

Lemma grows_healthCheck : respects stats_le healthCheck.
Proof. unfold healthCheck. respects_solve. Qed.

Lemma grows_connect : respects stats_le connect.
Proof. unfold connect. respects_solve. Qed.

Lemma grows_disconnect : respects stats_le disconnect.
Proof. unfold disconnect. respects_solve. destruct a; respects_solve. Qed.

(** C10. Every operation of the facade other than [resetStats] leaves each
    of the five counters at least as large as it was; [resetStats] sets all
    five to zero. *)
Theorem counters_monotone (op : Operation) (w : World) :
  (op ≠ ResetStats -> stats_le (stats w) (stats (snd (run op w)))) ∧
  stats (snd (run ResetStats w)) = zero_stats.
Proof.
  split; [| reflexivity].
  intros Hop. apply (respects_at stats_le).
  destruct op; try done; simpl; apply respects_returning; preorder;
    eauto using grows_get, grows_set, grows_delete, grows_exists, grows_getMultiple,
      grows_setMultiple, grows_invalidatePattern, grows_flush, grows_healthCheck,
      grows_connect, grows_disconnect;
    respects_solve.
Qed.

Lemma counters_monotone_witness :
  stats_le (stats (scripted [refused]))
    (stats (snd (run (Get "report" no_options) (scripted [refused])))) ∧
  stats (snd (run ResetStats (scripted [refused]))) = zero_stats.
Proof.
  destruct (counters_monotone (Get "report" no_options) (scripted [refused])) as [H1 H2].
  split; [apply H1; discriminate |].
  exact (proj2 (counters_monotone ResetStats (scripted [refused]))).
Defined.

(** ** The response cache is bypassed *)

(** C9. When the method is not [GET], or the configured skip predicate
    holds, the response-cache middleware calls [next()] and does nothing
    else: the world (store, counters, clock, logs) and the response object
    (headers, [json] method) are what they were, no call on the cache is
    started, and the rest of the stack runs as if the middleware were not
    there. *)
Theorem cacheMiddleware_bypass (options : CacheMiddlewareOptions)
    (req : Request) (res : Response) (w : World) :
  method req ≠ "GET" ∨ default (fun _ => false) (opt_skipCache options) req = true ->
  cacheMiddleware options req res w
  = (Ok {| passed := true; response := res; started := [] |}, w) ∧
  ∀ rest handler,
    handle (cacheMiddleware options :: rest) handler req res w
    = handle rest handler req res w.
Proof.
  intros Hskip.
  assert (cacheMiddleware options req res w
          = (Ok {| passed := true; response := res; started := [] |}, w)) as Hmw.
  { unfold cacheMiddleware.
    destruct Hskip as [Hm | Hs].
    - apply String.eqb_neq in Hm. by rewrite Hm.
    - rewrite Hs. by rewrite orb_true_r. }
  split; [exact Hmw |].
  intros rest handler. simpl. run_M. rewrite Hmw. simpl.
  by destruct (handle rest handler req res w) as [[[res' calls] | e] w'].
Qed.

Lemma cacheMiddleware_bypass_witness :
  cacheMiddleware default_options post_report fresh_response blank
  = (Ok {| passed := true; response := fresh_response; started := [] |}, blank).
Proof.
  apply (cacheMiddleware_bypass default_options post_report fresh_response blank).
  left. discriminate.
Defined.

(** ** Hit rate *)

Lemma Math_round_near (x : Q) :
  (inject_Z (Math_round x) - (1 # 2) <= x)%Q ∧ (x < inject_Z (Math_round x) + (1 # 2))%Q.
Proof.
  unfold Math_round.
  pose proof (Qfloor_le (x + (1 # 2))) as Hle.
  pose proof (Qlt_floor (x + (1 # 2))) as Hlt.
  rewrite inject_Z_plus in Hlt. change (inject_Z 1) with 1%Q in Hlt.
  split; lra.
Qed.

(** *** The rounding of binary64 *)

Lemma pow2_pos e : (0 < Double.pow2 e)%Q.
Proof. by apply Qpower_0_lt. Qed.

Lemma pow2_add a b : (Double.pow2 (a + b) == Double.pow2 a * Double.pow2 b)%Q.
Proof. by apply Qpower_plus. Qed.

Lemma pow2_Z (k : Z) : (0 <= k)%Z -> (Double.pow2 k == inject_Z (2 ^ k))%Q.
Proof. intros Hk. unfold Double.pow2. by rewrite Zpower_Qpower. Qed.

(** The exponent that [Double.exponent] finds is not too large. *)
Lemma exponent_le x : (0 < x)%Q -> (Double.pow2 (Double.exponent x) <= x)%Q.
Proof.
  intros Hx. unfold Double.exponent.
  set (a := Z.log2 (Qnum x)). set (b := Z.log2 (Zpos (Qden x))).
  destruct (Qle_bool (Double.pow2 (a - b)) x) eqn:Hle; [by apply Qle_bool_iff |].
  clear Hle.
  assert (0 < Qnum x)%Z as Hn.
  { destruct x as [n d]. unfold Qlt in Hx. simpl in *. lia. }
  assert (0 <= a)%Z as Ha by apply Z.log2_nonneg.
  assert (0 <= b)%Z as Hb by apply Z.log2_nonneg.
  assert (2 ^ a <= Qnum x)%Z as Hlo by (by apply Z.log2_spec).
  assert (Zpos (Qden x) < 2 ^ (b + 1))%Z as Hhi.
  { replace (b + 1)%Z with (Z.succ b) by lia. by apply Z.log2_spec. }
  replace (a - b - 1)%Z with (a + - (b + 1))%Z by lia.
  rewrite pow2_add. unfold Double.pow2 at 2. rewrite Qpower_opp.
  fold (Double.pow2 (b + 1)).
  rewrite (pow2_Z a Ha), (pow2_Z (b + 1)) by lia.
  assert (0 < 2 ^ (b + 1))%Z as Hp by (apply Z.pow_pos_nonneg; lia).
  assert (0 < 2 ^ a)%Z as Hq by (apply Z.pow_pos_nonneg; lia).
  destruct x as [n d]. simpl in *.
  unfold Qle, Qmult, Qinv, inject_Z. simpl.
  destruct (2 ^ (b + 1))%Z as [| p | p] eqn:Hpow; try lia. simpl.
  nia.
Qed.

Lemma nearest_even_near m :
  (Qabs (inject_Z (Double.nearest_even m) - m) <= 1 # 2)%Q.
Proof.
  unfold Double.nearest_even.
  pose proof (Qfloor_le m) as Hlo. pose proof (Qlt_floor m) as Hhi.
  rewrite inject_Z_plus in Hhi. change (inject_Z 1) with 1%Q in Hhi.
  set (f := Qfloor m) in *.
  apply Qabs_Qle_condition.
  destruct (m - inject_Z f ?= 1 # 2)%Q eqn:Hc.
  - apply Qeq_alt in Hc.
    destruct (Z.even f); [| rewrite inject_Z_plus; change (inject_Z 1) with 1%Q];
      split; lra.
  - apply Qlt_alt in Hc. split; lra.
  - apply Qgt_alt in Hc. rewrite inject_Z_plus. change (inject_Z 1) with 1%Q. split; lra.
Qed.

(** A positive number and the number of the format nearest to it differ by
    at most the fraction [2^-53] of the number. *)
Lemma nearest_near x : (0 < x)%Q -> (Qabs (Double.nearest x - x) <= x * unit_roundoff)%Q.
Proof.
  intros Hx. unfold Double.nearest.
  pose proof (exponent_le x Hx) as He.
  set (e := Double.exponent x) in *.
  pose proof (nearest_even_near (x * Double.pow2 (52 - e))) as Hz.
  set (z := inject_Z (Double.nearest_even (x * Double.pow2 (52 - e)))) in *.
  pose proof (pow2_pos (e - 52)) as Hp.
  assert (Double.pow2 (52 - e) * Double.pow2 (e - 52) == 1)%Q as Hinv.
  { rewrite <- pow2_add. by replace (52 - e + (e - 52))%Z with 0%Z by lia. }
  assert (Double.pow2 (e - 52) * (1 # 2) == Double.pow2 e * unit_roundoff)%Q as Hhalf.
  { replace (e - 52)%Z with (e + -52)%Z by lia. rewrite pow2_add.
    change unit_roundoff with (Double.pow2 (-52) * (1 # 2))%Q. ring. }
  apply Qabs_Qle_condition in Hz as [Hz1 Hz2].
  apply Qabs_Qle_condition.
  set (p := Double.pow2 (e - 52)) in *. set (q := Double.pow2 (52 - e)) in *.
  set (pe := Double.pow2 e) in *.
  assert (z * p - x == (z - x * q) * p)%Q as Heq.
  { transitivity (z * p - x * (q * p))%Q; [rewrite Hinv; ring | ring]. }
  assert (pe * unit_roundoff <= x * unit_roundoff)%Q as Hxu.
  { apply Qmult_le_compat_r; [exact He | discriminate]. }
  assert ((z - x * q) * p <= (1 # 2) * p)%Q as H1.
  { apply Qmult_le_compat_r; lra. }
  assert (- (1 # 2) * p <= (z - x * q) * p)%Q as H2.
  { apply Qmult_le_compat_r; lra. }
  rewrite Heq. split; lra.
Qed.

Lemma round_bounds x :
  (0 <= x)%Q ->
  (x * (1 - unit_roundoff) <= Double.round x)%Q ∧
  (Double.round x <= x * (1 + unit_roundoff))%Q.
Proof.
  intros Hx.
  assert (Qabs (Double.round x - x) <= x * unit_roundoff)%Q as H.
  { unfold Double.round. destruct x as [[| n | n] d]; cbn [Qnum].
    - assert (0 # d == 0)%Q as H0 by reflexivity.
      rewrite H0. apply Qabs_Qle_condition. split; lra.
    - by apply nearest_near.
    - unfold Qle in Hx. simpl in Hx. lia. }
  apply Qabs_Qle_condition in H. unfold unit_roundoff in *. split; lra.
Qed.

Lemma Qfloor_unique (y : Q) (j : Z) :
  (inject_Z j <= y)%Q -> (y < inject_Z j + 1)%Q -> Qfloor y = j.
Proof.
  intros Hlo Hhi.
  pose proof (Qfloor_le y) as Hle. pose proof (Qlt_floor y) as Hlt.
  rewrite inject_Z_plus in Hlt. change (inject_Z 1) with 1%Q in Hlt.
  assert (inject_Z (Qfloor y) < inject_Z (j + 1))%Q as H1.
  { rewrite inject_Z_plus. change (inject_Z 1) with 1%Q. lra. }
  assert (inject_Z j < inject_Z (Qfloor y + 1))%Q as H2.
  { rewrite inject_Z_plus. change (inject_Z 1) with 1%Q. lra. }
  rewrite <- Zlt_Qlt in H1, H2. lia.
Qed.

(** *** The rate *)

(** The three rounded operations on a fraction [a] between 0 and 1: the
    division that gives it, and the two multiplications by 100.  The result
    is within [10^-11] of [10000 a]. *)
Lemma scaled_rate_near (a : Q) :
  (0 <= a)%Q -> (a <= 1)%Q ->
  let y := Double.round (Double.round (Double.round a * 100) * 100) in
  (0 <= y)%Q ∧ (Qabs (y - a * 100 * 100) <= tie_margin)%Q.
Proof.
  intros Ha0 Ha1 y.
  destruct (round_bounds a Ha0) as [L1 U1].
  assert (0 <= Double.round a * 100)%Q as P1 by (unfold unit_roundoff in *; lra).
  destruct (round_bounds _ P1) as [L2 U2].
  assert (0 <= Double.round (Double.round a * 100) * 100)%Q as P2
    by (unfold unit_roundoff in *; lra).
  destruct (round_bounds _ P2) as [L3 U3].
  fold y in L3, U3. unfold unit_roundoff, tie_margin in *.
  split; [lra |]. apply Qabs_Qle_condition. split; lra.
Qed.

Lemma rate_fraction (H M : nat) :
  (0 < H + M)%nat ->
  (0 <= inject_Z (Z.of_nat H) / inject_Z (Z.of_nat (H + M)))%Q ∧
  (inject_Z (Z.of_nat H) / inject_Z (Z.of_nat (H + M)) <= 1)%Q.
Proof.
  intros Hpos.
  assert (0 < inject_Z (Z.of_nat (H + M)))%Q as Ht.
  { change 0%Q with (inject_Z 0). rewrite <- Zlt_Qlt. lia. }
  split.
  - apply Qle_shift_div_l; [exact Ht |]. rewrite Qmult_0_l.
    change 0%Q with (inject_Z 0). rewrite <- Zle_Qle. lia.
  - apply Qle_shift_div_r; [exact Ht |]. rewrite Qmult_1_l. rewrite <- Zle_Qle. lia.
Qed.

(** What [getStats] computes, step by step. *)
Lemma getStats_hitRate (w : World) :
  (0 < hits (stats w) + misses (stats w))%nat ->
  hitRate (getStats w)
  = Double.round
      (inject_Z
         (Math_round
            (Double.round
               (Double.round
                  (Double.round
                     (inject_Z (Z.of_nat (hits (stats w)))
                      / inject_Z (Z.of_nat (hits (stats w) + misses (stats w)))) * 100)
                * 100))) / 100).
Proof. intros Hpos. unfold getStats, hitRate. apply Nat.ltb_lt in Hpos. by rewrite Hpos. Qed.

(** C5 (amended). With [H] hits and [M] misses recorded, [H + M > 0],
    [getStats().hitRate] is the number of the format nearest to [k / 100]
    for a whole number [k] of hundredths that lies within [0.5 + 10^-11] of
    the exact rate in hundredths, [H / (H + M) * 100 * 100].  Whenever the
    exact rate is not within [10^-11] hundredths of the middle between two
    hundredths, [k / 100] is the exact rate rounded to two decimal places;
    in any case the hit rate is within [0.005 + 10^-12] of the exact rate.
    It is [0] when [H = M = 0]. *)
Theorem hitRate_correct (w : World) :
  let H := hits (stats w) in
  let M := misses (stats w) in
  ((0 < H + M)%nat -> (Z.of_nat (H + M) <= 2 ^ 53)%Z ->
   ∃ k : Z,
     hitRate (getStats w) = Double.round (inject_Z k / 100) ∧
     (Qabs (inject_Z k - exact_rate H M * 100) <= (1 # 2) + tie_margin)%Q ∧
     (away_from_tie (exact_rate H M) ->
      hitRate (getStats w) = Double.round (round_2dp (exact_rate H M))) ∧
     (Qabs (hitRate (getStats w) - exact_rate H M) <= (1 # 200) + (1 # 1000000000000))%Q) ∧
  (H = 0%nat -> M = 0%nat -> (hitRate (getStats w) == 0)%Q).
Proof.
  intros H M. split.
  - intros Hpos _. rewrite (getStats_hitRate w Hpos). fold H M.
    destruct (rate_fraction H M Hpos) as [Ha0 Ha1].
    set (a := (inject_Z (Z.of_nat H) / inject_Z (Z.of_nat (H + M)))%Q) in *.
    destruct (scaled_rate_near a Ha0 Ha1) as [Hy0 Hy].
    set (y := Double.round (Double.round (Double.round a * 100) * 100)) in *.
    destruct (Math_round_near y) as [Hk1 Hk2].
    set (k := Math_round y) in *.
    assert (exact_rate H M = a * 100)%Q as Hx by reflexivity.
    apply Qabs_Qle_condition in Hy as [Hy1 Hy2].
    assert (0 <= inject_Z k / 100)%Q as Hk0.
    { assert (0 <= k)%Z as Hk.
      { unfold k, Math_round. change 0%Z with (Qfloor 0). apply Qfloor_resp_le. lra. }
      apply Qle_shift_div_l; [done |]. rewrite Qmult_0_l.
      change 0%Q with (inject_Z 0). by rewrite <- Zle_Qle. }
    destruct (round_bounds _ Hk0) as [Lr Ur].
    exists k. split; [done |]. split; [| split].
    + rewrite Hx. unfold tie_margin in *. apply Qabs_Qle_condition. split; lra.
    + unfold away_from_tie, round_2dp. rewrite Hx. intros [Hj1 Hj2].
      do 3 f_equal. unfold k, Math_round. apply Qfloor_unique.
      * unfold tie_margin in *. lra.
      * unfold tie_margin in *. lra.
    + rewrite Hx. unfold Qdiv in *. change (/ 100)%Q with (1 # 100)%Q in *.
      unfold unit_roundoff, tie_margin in *.
      apply Qabs_Qle_condition. split; lra.
  - intros Hh Hm. unfold getStats, hitRate. fold H M. rewrite Hh, Hm. reflexivity.
Qed.

Lemma hitRate_correct_witness :
  hitRate (getStats (observed 10 5)) = Double.round (round_2dp (exact_rate 10 5)) ∧
  (hitRate (getStats (observed 0 0)) == 0)%Q.
Proof.
  split.
  - destruct (proj1 (hitRate_correct (observed 10 5))) as (k & _ & _ & Hk & _).
    + simpl. lia.
    + vm_compute. discriminate.
    + apply Hk. unfold away_from_tie.
      split; [apply Qle_bool_iff | apply Qlt_alt]; by vm_compute.
  - apply (proj2 (hitRate_correct (observed 0 0))); reflexivity.
Defined.

(** C5 as stated does not hold.  With 23 hits and 137 misses the exact rate
    is 14.375, which rounded to two decimal places is 14.38; the division
    gives a number just below 0.14375, the product with 10000 stays below
    1437.5, and [getStats] returns the number of the format nearest to
    14.37. *)
Lemma hitRate_not_rounded :
  (exact_rate 23 137 == 115 # 8)%Q ∧
  (round_2dp (exact_rate 23 137) == 1438 # 100)%Q ∧
  hitRate (getStats (observed 23 137)) = Double.round (1437 # 100) ∧
  ¬ (hitRate (getStats (observed 23 137)) == Double.round (round_2dp (exact_rate 23 137)))%Q ∧
  ((9 # 1000) < (1438 # 100) - hitRate (getStats (observed 23 137)))%Q.
Proof.
  split; [reflexivity |]. split; [reflexivity |]. split; [by vm_compute |].
  split; [by vm_compute |]. by vm_compute.
Qed.

Example hitRate_two_thirds :
  hitRate (getStats (observed 10 5)) = Double.round (6667 # 100).
Proof. by vm_compute. Qed.

(** ** Invalidation after a successful write *)

Lemma originalJson_status data st : statusCode (originalJson data st) = statusCode st.
Proof. unfold originalJson. by destruct (getHeader st "Content-Type"). Qed.

Lemma perform_then_json_invalidate req patterns pre data :
  forallb (fun a => negb (is_json a)) pre = true ->
  ∀ res w, chain res = [Invalidate req patterns] ->
    ∃ res',
      perform (pre ++ [Json data]) res w
      = (Ok (res', if is_success (statusCode (state res'))
                   then map CallInvalidate patterns else []), w).
Proof.
  induction pre as [| a pre IH]; intros Hpre res w Hchain.
  - simpl. unfold res_json. rewrite Hchain. simpl. run_M.
    exists (on_state (originalJson data) res).
    unfold is_success. cbn [state on_state]. rewrite originalJson_status.
    destruct ((200 <=? statusCode (state res))%Z && (statusCode (state res) <? 300)%Z);
      simpl; by rewrite ?app_nil_r.
  - simpl in Hpre. apply andb_true_iff in Hpre as [Ha Hpre].
    destruct a as [name value | code | data']; simpl in *; try discriminate;
      by apply IH.
Qed.

Lemma executeWithFallback_total {T} (operation fallback : M T) :
  (∀ w, ∃ a w', fallback w = (Ok a, w')) ->
  ∀ w, ∃ a w', executeWithFallback operation fallback w = (Ok a, w').
Proof.
  intros Hfb w. run_M. destruct (isConnected w); [| apply Hfb].
  destruct (operation w) as [[a | e] w1]; [by eauto |]. apply Hfb.
Qed.

Lemma total_ret {A} (a : A) : ∀ w, ∃ a' w', (ret a : M A) w = (Ok a', w').
Proof. intros w. unfold ret. eauto. Qed.

Lemma set_total key value options w : ∃ b w', set key value options w = (Ok b, w').
Proof. apply executeWithFallback_total, total_ret. Qed.

Lemma invalidatePattern_total pattern w : ∃ n w', invalidatePattern pattern w = (Ok n, w').
Proof. apply executeWithFallback_total, total_ret. Qed.

(** The event loop runs the started invalidations as so many calls of
    [invalidatePattern], in order. *)
Lemma settle_invalidations patterns :
  ∀ w, settle (map CallInvalidate patterns) w = invalidate_all patterns w.
Proof.
  induction patterns as [| p patterns IH]; intros w; [done |].
  cbn [map settle run_call invalidate_all].
  unfold try_catch, mbind, M_bind, bind.
  destruct (invalidatePattern_total p w) as (n & w1 & Hinv). rewrite Hinv.
  unfold log, modify. by rewrite IH.
Qed.

(** With the connection flag up the first command of [invalidatePattern]
    is [KEYS] with its pattern, and it sends no other [KEYS]. *)
Lemma invalidatePattern_asks pattern w :
  isConnected w = true ->
  ∃ n w1 more,
    invalidatePattern pattern w = (Ok n, w1) ∧
    wire w1 = (wire w ++ KEYS pattern :: more)%list ∧
    patterns_asked more = [] ∧ isConnected w1 = true.
Proof.
  intros Hw.
  unfold invalidatePattern, invalidatePattern_operation, redis_keys, redis_del, round_trip.
  run_M. rewrite Hw.
  destruct (failure (next_reply w)) as [msg |] eqn:Hf; simpl.
  { eexists _, _, []. by repeat split. }
  destruct (matching_keys _ _ _) as [| k ks] eqn:Hkeys; simpl.
  { eexists _, _, []. by repeat split. }
  match goal with
  | |- context [failure (next_reply ?w0)] => destruct (failure (next_reply w0)) as [msg |]
  end; simpl.
  - eexists _, _, [DEL (k :: ks)]. repeat split; simpl; by rewrite <- ?app_assoc.
  - destruct (remove_keys _ _ _) as [a m]. simpl.
    eexists _, _, [DEL (k :: ks)]. repeat split; simpl; by rewrite <- ?app_assoc.
Qed.

Lemma invalidate_all_asks patterns :
  ∀ w, isConnected w = true ->
    ∃ w' commands,
      invalidate_all patterns w = (Ok tt, w') ∧
      wire w' = (wire w ++ commands)%list ∧ patterns_asked commands = patterns.
Proof.
  induction patterns as [| p patterns IH]; intros w Hw.
  - exists w, []. by rewrite app_nil_r.
  - destruct (invalidatePattern_asks p w Hw) as (n & w1 & more & Hinv & Hwire & Hmore & Hw1).
    cbn [invalidate_all]. unfold mbind, M_bind, bind. rewrite Hinv.
    unfold log, modify.
    destruct (IH (with_sink (Logged Debug "Cache invalidated") w1) Hw1)
      as (w' & commands & Hrest & Hwire' & Hasked).
    rewrite Hrest. exists w', (KEYS p :: more ++ commands)%list.
    split; [done |]. split.
    + rewrite Hwire'. cbn [wire with_sink]. rewrite Hwire. by rewrite <- app_assoc.
    + unfold patterns_asked in *.
      change (KEYS p :: more ++ commands)%list with ([KEYS p] ++ (more ++ commands))%list.
      by rewrite !omap_app, Hmore, Hasked.
Qed.

Lemma invalidate_all_offline patterns :
  ∀ w, isConnected w = false ->
    ∃ w', invalidate_all patterns w = (Ok tt, w') ∧ same_store w w' ∧
          isConnected w' = false.
Proof.
  induction patterns as [| p patterns IH]; intros w Hw.
  - exists w. by repeat split.
  - cbn [invalidate_all]. unfold mbind, M_bind, bind, invalidatePattern.
    rewrite (executeWithFallback_offline _ _ w Hw). unfold ret, log, modify.
    destruct (IH (with_sink (Logged Debug "Cache invalidated") w) Hw)
      as (w' & Hrest & Hsame & Hw').
    rewrite Hrest. exists w'. split; [done |]. split; [| done].
    unfold same_store in *. simpl in *. done.
Qed.

Lemma sent_since_app w w' commands :
  wire w' = (wire w ++ commands)%list -> sent_since w w' = commands.
Proof. intros H. unfold sent_since. rewrite H. by rewrite drop_app_length. Qed.

(** C6. A request goes through the invalidation middleware declared with
    the patterns [P] and reaches a handler that prepares the response and
    then emits it as JSON; handling it leaves the world as it is.  When the
    status code the response ends with lies in [200, 300), the calls that
    were started are, once the event loop runs them, one call of
    [invalidatePattern] for each pattern of [P], in the order of [P]: with
    the connection flag up the [KEYS] commands that reach the store are
    those of the patterns of [P], one each and in that order, and with the
    flag down nothing reaches it.  When the status code lies outside that
    range no call is started at all, and nothing runs. *)
Theorem invalidation_after_success (patterns : list string) (req : Request)
    (pre : list Action) (data : json) (res : Response) (w : World) :
  chain res = [] ->
  forallb (fun a => negb (is_json a)) pre = true ->
  ∃ res' calls,
    handle [invalidateCache patterns] (pre ++ [Json data]) req res w
    = (Ok (res', calls), w) ∧
    calls = (if is_success (statusCode (state res'))
             then map CallInvalidate patterns else []) ∧
    settle calls w
    = invalidate_all (if is_success (statusCode (state res')) then patterns else []) w ∧
    (is_success (statusCode (state res')) = true ->
     ∃ w', settle calls w = (Ok tt, w') ∧
           (isConnected w = true -> patterns_asked (sent_since w w') = patterns) ∧
           (isConnected w = false -> same_store w w')) ∧
    (is_success (statusCode (state res')) = false -> settle calls w = (Ok tt, w)).
Proof.
  intros Hchain Hpre.
  destruct (perform_then_json_invalidate req patterns pre data Hpre
              (install (Invalidate req patterns) res) w) as (res' & Hrun).
  { simpl. by rewrite Hchain. }
  exists res', (if is_success (statusCode (state res'))
                then map CallInvalidate patterns else []).
  split; [| split; [done | split; [| split]]].
  - simpl. unfold invalidateCache, next. run_M. by rewrite Hrun.
  - destruct (is_success (statusCode (state res'))); [apply settle_invalidations | done].
  - intros ->. rewrite settle_invalidations.
    destruct (isConnected w) eqn:Hw.
    + destruct (invalidate_all_asks patterns w Hw) as (w' & commands & Hall & Hwire & Hasked).
      exists w'. split; [done |]. split; [| done].
      intros _. by rewrite (sent_since_app w w' commands Hwire).
    + destruct (invalidate_all_offline patterns w Hw) as (w' & Hall & Hsame & _).
      exists w'. split; [done |]. split; [done |]. intros _. exact Hsame.
  - by intros ->.
Qed.

Lemma invalidation_after_success_witness :
  ∃ res' w',
    handle [invalidateReportsCache] ([Status 201] ++ [Json (JStr "created")])
      post_report fresh_response blank
    = (Ok (res', [CallInvalidate "response:reports:*";
                  CallInvalidate "response:reports:stats"]), blank) ∧
    settle [CallInvalidate "response:reports:*"; CallInvalidate "response:reports:stats"]
      blank
    = (Ok tt, w') ∧
    patterns_asked (sent_since blank w') = ["response:reports:*"; "response:reports:stats"].
Proof.
  destruct (invalidation_after_success ["response:reports:*"; "response:reports:stats"]
              post_report [Status 201] (JStr "created") fresh_response blank
              eq_refl eq_refl) as (res' & calls & Hrun & Hcalls & _ & Hok & _).
  assert (is_success (statusCode (state res')) = true) as Hsucc.
  { revert Hrun. vm_compute. by intros [= <- _]. }
  rewrite Hsucc in Hcalls. cbn [map] in Hcalls. subst calls.
  destruct (Hok Hsucc) as (w' & Hsettle & Hasked & _).
  exists res', w'. split; [exact Hrun |]. split; [exact Hsettle |].
  by apply Hasked.
Defined.

(** The patterns of [invalidateReportsCache] are matched against the keys as
    they are in the store, with the prefix of the client in front: they
    match none of the responses that the cache middlewares store, and the
    invalidation deletes nothing. *)
Example invalidation_and_the_key_prefix :
  let w' := snd (settle (map CallInvalidate ["response:reports:*"; "response:reports:stats"])
                   seeded) in
  wire w' = [KEYS "response:reports:*"; KEYS "response:reports:stats"] ∧
  payload <$> db w' !! "bug-bounty:response:reports:stats" = Some "{}" ∧
  fst (invalidatePattern "response:reports:*" seeded) = Ok 0%Z.
Proof. by vm_compute. Qed.

(** ** What the response cache writes back *)

Lemma get_total key options w : ∃ v w', get key options w = (Ok v, w').
Proof.
  apply executeWithFallback_total. intros w0. unfold get_fallback. run_M. eauto.
Qed.

(** [get] reads: it leaves the content of the store as it is and sends no
    command that writes. *)
Lemma get_reads_only key options w :
  ∃ v w1 commands,
    get key options w = (Ok v, w1) ∧ db w1 = db w ∧
    wire w1 = (wire w ++ commands)%list ∧ writes commands = [].
Proof.
  unfold get, get_operation, get_fallback, redis_get, round_trip, Date_now, recordMetric.
  run_M. destruct (isConnected w); simpl.
  - destruct (failure (next_reply w)); simpl.
    + eexists _, _, [GET _]. by repeat split.
    + destruct (lookup_live _ _ _); simpl; eexists _, _, [GET _]; by repeat split.
  - eexists _, _, []. repeat split; simpl; by rewrite ?app_nil_r.
Qed.

Lemma perform_no_hooks actions :
  ∀ res w, chain res = [] ->
    ∃ res', perform actions res w = (Ok (res', []), w).
Proof.
  induction actions as [| a actions IH]; intros res w Hchain.
  - simpl. unfold ret. eauto.
  - destruct a as [name value | code | data]; simpl.
    + by apply IH.
    + by apply IH.
    + unfold res_json. rewrite Hchain. simpl. run_M.
      destruct (IH (on_state (originalJson data) res) w Hchain) as (res' & Hrun).
      rewrite Hrun. simpl. eauto.
Qed.

Lemma quiet_refl w : quiet w w.
Proof. by repeat split. Qed.

Lemma quiet_trans w1 w2 w3 : quiet w1 w2 -> quiet w2 w3 -> quiet w1 w3.
Proof. unfold quiet. intros (?&?&?&?&?&?) (?&?&?&?&?&?). repeat split; congruence. Qed.

(** A handler that runs with the write-back override installed starts the
    write-backs of the bodies it emits and does not touch the store. *)
Lemma perform_write_backs req key seconds condition vary actions :
  ∀ res w, chain res = [WriteBack req key seconds condition vary] ->
    ∃ res' w',
      perform actions res w
      = (Ok (res', concat (map (write_back req key seconds condition vary)
                             (emissions actions (state res)))), w') ∧
      quiet w w' ∧ state res' = finish actions (state res).
Proof.
  induction actions as [| a actions IH]; intros res w Hchain.
  - simpl. unfold ret. exists res, w. split; [done |]. split; [apply quiet_refl | done].
  - destruct a as [name value | code | data]; simpl.
    + by apply (IH (on_state (setHeader name value) res)).
    + by apply (IH (on_state (set_status code) res)).
    + unfold res_json. rewrite Hchain. cbn [run_chain run_hook].
      unfold write_back at 1. cbn [fst snd].
      destruct (condition req (state res) && (200 <=? statusCode (state res))%Z
                && (statusCode (state res) <? 300)%Z) eqn:Hcond.
      * run_M.
        destruct (IH (on_state (originalJson data) res)
                    (with_sink (Logged Debug "Response cached") w) Hchain)
          as (res' & w' & Hrun & Hq & Hst).
        rewrite Hrun. simpl. eexists _, _. split; [reflexivity |].
        split; [| done]. eapply quiet_trans; [| exact Hq]. by repeat split.
      * run_M.
        destruct (IH (on_state (originalJson data) res) w Hchain)
          as (res' & w' & Hrun & Hq & Hst).
        rewrite Hrun. simpl. eexists _, _. split; [reflexivity |]. done.
Qed.

Lemma licensed_more emitted emitted' condition vary req c :
  (∀ e, e ∈ emitted -> e ∈ emitted') ->
  licensed emitted condition vary req c -> licensed emitted' condition vary req c.
Proof.
  intros Hsub (key & st & data & o & Hin & Hrest).
  exists key, st, data, o. split; [by apply Hsub | done].
Qed.

Lemma write_back_licensed req key seconds condition vary emitted :
  Forall (licensed emitted condition vary req)
    (concat (map (write_back req key seconds condition vary) emitted)).
Proof.
  induction emitted as [| [st data] emitted IH]; [apply Forall_nil; done |].
  cbn [map concat]. apply Forall_app. split.
  - unfold write_back. cbn [fst snd].
    destruct (condition req st) eqn:Hcond; [| apply Forall_nil; done].
    destruct ((200 <=? statusCode st)%Z && (statusCode st <? 300)%Z) eqn:Hok;
      rewrite <- andb_assoc, Hok; [| apply Forall_nil; done].
    apply Forall_cons. split; [| apply Forall_nil; done].
    eexists _, st, data, _. split; [apply list_elem_of_here |]. by repeat split.
  - eapply Forall_impl; [exact IH |]. intros c. apply licensed_more.
    intros e He. by apply list_elem_of_further.
Qed.

Lemma write_back_unsuccessful req key seconds condition vary emitted :
  Forall (fun e : ResponseState * json => is_success (statusCode (fst e)) = false) emitted ->
  concat (map (write_back req key seconds condition vary) emitted) = [].
Proof.
  induction 1 as [| [st data] emitted Hst _ IH]; [done |].
  cbn [map concat]. rewrite IH. unfold write_back, is_success in *. cbn [fst snd] in *.
  by rewrite <- andb_assoc, Hst, andb_false_r.
Qed.

Lemma replay_no_hooks cached seconds res w :
  chain res = [] ->
  (∃ res' went_out,
     replay cached seconds res w
     = (Ok (res', [], went_out), with_sink (Logged Debug "Cache hit") w) ∧
     chain res' = []) ∨
  (∃ e w', replay cached seconds res w = (Throw e, w') ∧
           db w' = db w ∧ wire w' = wire w).
Proof.
  intros Hchain. unfold replay.
  destruct cached as [| b | n | lit | s | items | fields];
    try (right; unfold throw; by eauto).
  destruct (property "headers" fields ≫= header_entries) as [entries |];
    [| right; unfold throw; by eauto].
  destruct (property "statusCode" fields) as [[| | code | | | |] |];
    try (right; unfold throw; by eauto).
  destruct (property "data" fields) as [data |]; [| right; unfold throw; by eauto].
  left. unfold res_json. simpl.
  assert (∀ r : Response, chain r = [] ->
            chain (fold_left (fun r kv => on_state (setHeader (fst kv) (snd kv)) r)
                     entries r) = []) as Hfold.
  { induction entries as [| kv entries IHe]; intros r Hr; simpl; [done |]. by apply IHe. }
  rewrite (Hfold res Hchain). run_M.
  destruct ((100 <=? code)%Z && (code <=? 999)%Z); eexists _, _; (split; [reflexivity |]);
    simpl; by apply Hfold.
Qed.

Lemma defaultCondition_no_cache req st :
  defaultCondition req st = true -> says_no_cache st = false.
Proof.
  unfold defaultCondition, says_no_cache. intros H.
  apply andb_true_iff in H as [_ H]. by apply negb_true_iff in H.
Qed.

(** A request through the response cache and a handler: the store is read
    at most, and the calls that are started are the write-backs of the
    bodies that the handler emitted after a miss, or none. *)
Lemma cacheMiddleware_request options req handler res w :
  chain res = [] ->
  ∃ res' calls w' commands,
    handle [cacheMiddleware options] handler req res w = (Ok (res', calls), w') ∧
    db w' = db w ∧ wire w' = (wire w ++ commands)%list ∧ writes commands = [] ∧
    (calls = [] ∨
     calls = concat (map (write_back req
                            (default defaultKeyGenerator (opt_keyGenerator options) req)
                            (default 300%Z (opt_ttl options))
                            (default defaultCondition (opt_condition options))
                            (default [] (opt_vary options)))
                       (emissions handler (missed res)))).
Proof.
  intros Hchain. simpl. unfold cacheMiddleware.
  destruct (negb (String.eqb (method req) "GET")
            || default (fun _ => false) (opt_skipCache options) req).
  { destruct (perform_no_hooks handler res w Hchain) as (res' & Hrun).
    unfold next. run_M. rewrite Hrun. simpl.
    exists res', [], w, []. rewrite app_nil_r. repeat split; by eauto. }
  set (key := default defaultKeyGenerator (opt_keyGenerator options) req).
  destruct (get_reads_only key {| ttl := None; prefix := Some "response"; compress := None |} w)
    as (v & w1 & commands & Hget & Hdb & Hwire & Hwrites).
  unfold try_catch, mbind, M_bind, bind at 1 2. rewrite Hget.
  destruct (truthy v).
  - destruct (replay_no_hooks v (default 300%Z (opt_ttl options)) res w1 Hchain)
      as [(res' & [|] & Hrep & Hchain') | (e & w' & Hrep & Hdb' & Hwire')].
    + unfold bind, mret, M_ret, ret. rewrite Hrep. simpl.
      eexists _, [], _, commands. repeat split; by eauto.
    + unfold bind, mret, M_ret, ret, log, modify. rewrite Hrep. simpl.
      destruct (perform_no_hooks handler res'
                  (with_sink (Logged Error "Cache middleware error")
                     (with_sink (Logged Debug "Cache hit") w1)) Hchain')
        as (res'' & Hrun).
      rewrite Hrun. simpl. eexists _, [], _, commands.
      repeat split; simpl; [congruence | congruence | done | by left].
    + unfold bind. rewrite Hrep. unfold log, modify, next. simpl. run_M.
      destruct (perform_no_hooks handler res
                  (with_sink (Logged Error "Cache middleware error") w') Hchain)
        as (res' & Hrun).
      rewrite Hrun. simpl. eexists _, [], _, commands.
      repeat split; simpl; [congruence | congruence | done | by left].
  - unfold next, ret, bind.
    destruct (perform_write_backs req key (default 300%Z (opt_ttl options))
                (default defaultCondition (opt_condition options))
                (default [] (opt_vary options)) handler
                (install (WriteBack req key (default 300%Z (opt_ttl options))
                            (default defaultCondition (opt_condition options))
                            (default [] (opt_vary options)))
                   (on_state (setHeader "X-Cache" "MISS") res)) w1)
      as (res' & w' & Hrun & Hq & _).
    { simpl. by rewrite Hchain. }
    cbn [passed response started]. rewrite Hrun. simpl.
    destruct Hq as (_ & _ & Hq_db & _ & Hq_wire & _).
    eexists _, _, _, commands.
    split; [reflexivity |]. split; [congruence |]. split; [congruence |].
    split; [done |]. by right.
Qed.

(** One started write, run by the event loop: it sends its [SETEX] or
    nothing, and the store holds afterwards what it held, or the payload of
    the call under its key. *)
Lemma run_call_set key value options w :
  ∃ w1 commands,
    run_call (CallSet key value options) w = (Ok tt, w1) ∧
    wire w1 = (wire w ++ commands)%list ∧
    (commands = [] ∨
     commands = [SETEX (buildKey key (prefix options)) (or_else (ttl options) defaultTTL)
                   (serialize value)]) ∧
    (∀ k e, db w1 !! k = Some e ->
       db w !! k = Some e ∨
       (k = physical (buildKey key (prefix options)) ∧ payload e = serialize value)).
Proof.
  unfold run_call, set, set_operation, redis_setex, round_trip, Date_now, recordMetric.
  run_M. destruct (isConnected w); simpl.
  - destruct (failure (next_reply w)); simpl.
    + eexists _, [_]. split; [reflexivity |]. split; [reflexivity |].
      split; [by right |]. intros k e He. by left.
    + eexists _, [_]. split; [reflexivity |]. split; [reflexivity |].
      split; [by right |]. simpl. intros k e He.
      destruct (decide (k = physical (buildKey key (prefix options)))) as [-> | Hne].
      * rewrite lookup_insert_eq in He. injection He as <-. by right.
      * rewrite lookup_insert_ne in He by done. by left.
  - eexists _, []. split; [reflexivity |]. rewrite app_nil_r.
    split; [reflexivity |]. split; [by left |]. intros k e He. by left.
Qed.

Lemma settle_writes (all calls : list Call) :
  (∀ c, c ∈ calls -> c ∈ all ∧ ∃ key value options, c = CallSet key value options) ->
  ∀ w, ∃ w' commands,
    settle calls w = (Ok tt, w') ∧ wire w' = (wire w ++ commands)%list ∧
    Forall (written_by all) (writes commands) ∧
    (∀ k e, db w' !! k = Some e -> db w !! k = Some e ∨ stored_by all k e).
Proof.
  induction calls as [| c calls IH]; intros Hcalls w.
  - exists w, []. rewrite app_nil_r. repeat split; [apply Forall_nil; done | by left].
  - destruct (Hcalls c) as [Hall (key & value & options & ->)]; [apply list_elem_of_here |].
    destruct (run_call_set key value options w) as (w1 & first & Hrun & Hwire & Hfirst & Hdb).
    destruct (IH (fun c Hc => Hcalls c (list_elem_of_further _ _ _ Hc)) w1)
      as (w' & commands & Hrest & Hwire' & Hcommands & Hdb').
    exists w', (first ++ commands)%list.
    cbn [settle]. unfold mbind, M_bind, bind. rewrite Hrun.
    split; [done |]. split; [by rewrite Hwire', Hwire, <- app_assoc |]. split.
    + unfold writes. rewrite List.filter_app. apply Forall_app. split; [| done].
      destruct Hfirst as [-> | ->]; [apply Forall_nil; done |].
      cbn [List.filter is_write]. apply Forall_cons. split; [| apply Forall_nil; done].
      by exists key, value, options.
    + intros k e He. destruct (Hdb' k e He) as [He1 | Hs]; [| by right].
      destruct (Hdb k e He1) as [He0 | [-> Hp]]; [by left | right].
      by exists key, value, options.
Qed.

(** C3 (amended). For every request that goes through the response-cache
    middleware and then a handler: the middleware and the handler send no
    command that changes the store, they read it at most and start writes;
    every write of a response triple that is started writes back a body the
    handler emitted, and the response had at that moment a status code in
    the 2xx range and satisfied the condition the middleware is configured
    with (with the default condition, it had no [no-cache] in its
    [Cache-Control] header).  When the event loop runs the started writes,
    every command that changes the store is the [SETEX] of one of them, and
    every entry in the store was there before the request or holds the
    triple of one of them.  When no body was emitted with a status code in
    the 2xx range, no write is started and nothing runs: a response with a
    status code outside 2xx is never persisted, whatever the
    configuration. *)
Theorem write_back_only_when_cacheable (options : CacheMiddlewareOptions)
    (req : Request) (handler : list Action) (res : Response) (w : World) :
  chain res = [] ->
  ∃ res' calls w',
    handle [cacheMiddleware options] handler req res w = (Ok (res', calls), w') ∧
    Forall (licensed (emissions handler (missed res))
              (default defaultCondition (opt_condition options))
              (default [] (opt_vary options)) req) calls ∧
    (opt_condition options = None ->
     Forall (licensed (emissions handler (missed res))
               (fun _ st => negb (says_no_cache st))
               (default [] (opt_vary options)) req) calls) ∧
    db w' = db w ∧ writes (sent_since w w') = [] ∧
    ∃ w'',
      settle calls w' = (Ok tt, w'') ∧
      Forall (written_by calls) (writes (sent_since w' w'')) ∧
      (∀ k e, db w'' !! k = Some e -> db w !! k = Some e ∨ stored_by calls k e) ∧
      (Forall (fun e : ResponseState * json => is_success (statusCode (fst e)) = false)
         (emissions handler (missed res)) ->
       calls = [] ∧ w'' = w').
Proof.
  intros Hchain.
  destruct (cacheMiddleware_request options req handler res w Hchain)
    as (res' & calls & w' & commands & Hrun & Hdb & Hwire & Hwrites & Hcalls).
  assert (Forall (licensed (emissions handler (missed res))
                    (default defaultCondition (opt_condition options))
                    (default [] (opt_vary options)) req) calls) as Hlicensed.
  { destruct Hcalls as [-> | ->]; [apply Forall_nil; done | apply write_back_licensed]. }
  exists res', calls, w'. split; [done |]. split; [done |].
  split; [| split; [done | split]].
  - intros Hdefault. rewrite Hdefault in Hlicensed. simpl in Hlicensed.
    eapply Forall_impl; [exact Hlicensed |].
    intros c (key & st & data & o & Hin & -> & Hok & Hcond).
    exists key, st, data, o. split; [done |]. split; [done |]. split; [done |].
    by rewrite (defaultCondition_no_cache req st Hcond).
  - by rewrite (sent_since_app w w' commands Hwire).
  - destruct (settle_writes calls calls) with (w := w')
      as (w'' & sent & Hsettle & Hwire'' & Hsent & Hstored).
    { intros c Hc. split; [done |].
      rewrite Forall_forall in Hlicensed.
      destruct (Hlicensed c Hc) as (key & st & data & o & _ & -> & _). eauto. }
    exists w''. split; [done |]. split; [| split].
    + by rewrite (sent_since_app w' w'' sent Hwire'').
    + intros k e He. rewrite <- Hdb. by apply Hstored.
    + intros Hnone.
      assert (calls = []) as ->.
      { destruct Hcalls as [-> | ->]; [done |]. by apply write_back_unsuccessful. }
      split; [done |]. simpl in Hsettle. unfold ret in Hsettle. congruence.
Qed.

Lemma write_back_only_when_cacheable_witness :
  ∃ res' calls w',
    handle [cacheMiddleware default_options] plain_handler
      (get_reports [("page", "1")] (Some "u-17")) fresh_response blank
    = (Ok (res', calls), w') ∧
    Forall (licensed (emissions plain_handler (missed fresh_response))
              defaultCondition [] (get_reports [("page", "1")] (Some "u-17"))) calls ∧
    db w' = db blank ∧
    ∃ w'', settle calls w' = (Ok tt, w'') ∧
           Forall (written_by calls) (writes (sent_since w' w'')).
Proof.
  destruct (write_back_only_when_cacheable default_options
              (get_reports [("page", "1")] (Some "u-17")) plain_handler fresh_response blank
              eq_refl)
    as (res' & calls & w' & Hrun & Hlicensed & _ & Hdb & _ & w'' & Hsettle & Hsent & _).
  exists res', calls, w'. split; [exact Hrun |]. split; [exact Hlicensed |].
  split; [exact Hdb |]. exists w''. split; [exact Hsettle | exact Hsent].
Defined.

(** C3 as stated does not hold: the list route is cached by a middleware
    with a condition of its own, which does not look at [Cache-Control].
    The handler answers 200 with [Cache-Control: no-cache]; the write of the
    triple is started all the same and, once it has run, the entry is in
    the store. *)
Lemma no_cache_response_written :
  let req := get_reports [("page", "1")] (Some "u-17") in
  let st := setHeader "Cache-Control" "no-cache" (missed fresh_response) in
  let body := JObj [("success", JBool true)] in
  emissions no_cache_handler (missed fresh_response) = [(st, body)] ∧
  says_no_cache st = true ∧
  match handle [reportsListCache] no_cache_handler req fresh_response blank with
  | (Ok (_, calls), w) =>
      calls = [CallSet "reports:list:eyJwYWdlIjoiMSJ9" (responseToCache body st [])
                 {| ttl := Some 300%Z; prefix := Some "response"; compress := None |}] ∧
      is_Some (lookup_live (now w) (db (snd (settle calls w)))
                 "bug-bounty:response:reports:list:eyJwYWdlIjoiMSJ9")
  | (Throw _, _) => False
  end.
Proof. vm_compute. repeat split; eauto. Qed.

(** ** Cache keys *)

Lemma append_nil (b : string) : EmptyString ++ b = b.
Proof. reflexivity. Qed.

Lemma append_cons x (a b : string) : String x a ++ b = String x (a ++ b).
Proof. reflexivity. Qed.

Ltac string_simpl := rewrite ?append_cons, ?append_nil.
Ltac string_simpl_in H := rewrite ?append_cons, ?append_nil in H.

Lemma append_assoc (a b c : string) : (a ++ b) ++ c = a ++ (b ++ c).
Proof. induction a as [| x a IH]; string_simpl; [done |]. by rewrite IH. Qed.

Lemma has_char_append x a b : has_char x (a ++ b) = has_char x a || has_char x b.
Proof.
  induction a as [| c a IH]; string_simpl; simpl; [done |].
  rewrite IH. by rewrite orb_assoc.
Qed.

(** A text is cut at the first occurrence of a separator in one way only. *)
Lemma cut_unique x a a' t t' :
  has_char x a = false -> has_char x a' = false ->
  a ++ String x t = a' ++ String x t' -> a = a' ∧ t = t'.
Proof.
  revert a'. induction a as [| c a IH]; intros [| c' a'] Ha Ha' Heq;
    string_simpl_in Heq; simpl in *.
  - by injection Heq as ->.
  - injection Heq as -> _. apply orb_false_iff in Ha' as [Hc _].
    by rewrite Ascii.eqb_refl in Hc.
  - injection Heq as -> _. apply orb_false_iff in Ha as [Hc _].
    by rewrite Ascii.eqb_refl in Hc.
  - injection Heq as -> Heq.
    apply orb_false_iff in Ha as [_ Ha]. apply orb_false_iff in Ha' as [_ Ha'].
    destruct (IH a' Ha Ha' Heq) as [-> ->]. done.
Qed.

(** A text without the separator is not one that has it. *)
Lemma cut_end x a a' t :
  has_char x a = false -> a = a' ++ String x t -> False.
Proof.
  intros Ha ->. rewrite has_char_append in Ha. simpl in Ha.
  rewrite Ascii.eqb_refl in Ha. simpl in Ha. by rewrite orb_true_r in Ha.
Qed.

Lemma append_nil_r (a : string) : a ++ EmptyString = a.
Proof. induction a as [| x a IH]; string_simpl; [done |]. by rewrite IH. Qed.

Lemma form_decode_head_encode c rest :
  form_decode_head (form_encode_char c ++ rest) = Some (c, rest).
Proof. destruct c as [[] [] [] [] [] [] [] []]; reflexivity. Qed.

Lemma form_encode_char_clean c :
  has_char ":" (form_encode_char c) = false ∧
  has_char "&" (form_encode_char c) = false ∧
  has_char "=" (form_encode_char c) = false.
Proof. destruct c as [[] [] [] [] [] [] [] []]; vm_compute; done. Qed.

Lemma form_encode_clean s :
  has_char ":" (form_encode s) = false ∧
  has_char "&" (form_encode s) = false ∧
  has_char "=" (form_encode s) = false.
Proof.
  induction s as [| c s (IH1 & IH2 & IH3)]; [done |].
  destruct (form_encode_char_clean c) as (H1 & H2 & H3).
  cbn [form_encode]. rewrite !has_char_append, H1, H2, H3, IH1, IH2, IH3. done.
Qed.

Lemma form_encode_inj s1 s2 : form_encode s1 = form_encode s2 -> s1 = s2.
Proof.
  revert s2. induction s1 as [| c1 s1 IH]; intros [| c2 s2] Heq; cbn [form_encode] in Heq.
  - done.
  - apply (f_equal form_decode_head) in Heq.
    by rewrite form_decode_head_encode in Heq.
  - apply (f_equal form_decode_head) in Heq.
    by rewrite form_decode_head_encode in Heq.
  - apply (f_equal form_decode_head) in Heq.
    rewrite !form_decode_head_encode in Heq. injection Heq as -> Heq.
    by rewrite (IH s2 Heq).
Qed.

Lemma encode_entry_cut kv kv' t t' :
  entry_tail t -> entry_tail t' ->
  encode_entry kv ++ t = encode_entry kv' ++ t' -> kv = kv' ∧ t = t'.
Proof.
  destruct kv as [k v], kv' as [k' v']. unfold encode_entry. simpl fst. simpl snd.
  intros Ht Ht' Heq. rewrite !append_assoc in Heq. string_simpl_in Heq.
  destruct (form_encode_clean k) as (_ & _ & Hk).
  destruct (form_encode_clean k') as (_ & _ & Hk').
  destruct (cut_unique "=" _ _ _ _ Hk Hk' Heq) as [Hkk Hrest].
  apply form_encode_inj in Hkk as ->.
  destruct (form_encode_clean v) as (_ & Hv & _).
  destruct (form_encode_clean v') as (_ & Hv' & _).
  destruct Ht as [-> | [r ->]], Ht' as [-> | [r' ->]].
  - rewrite !append_nil_r in Hrest. by apply form_encode_inj in Hrest as ->.
  - rewrite append_nil_r in Hrest. by destruct (cut_end "&" _ _ _ Hv Hrest).
  - rewrite append_nil_r in Hrest. symmetry in Hrest.
    by destruct (cut_end "&" _ _ _ Hv' Hrest).
  - destruct (cut_unique "&" _ _ _ _ Hv Hv' Hrest) as [Hvv ->].
    by apply form_encode_inj in Hvv as ->.
Qed.

Lemma toString_cons kv entries :
  URLSearchParams_toString (kv :: entries)
  = encode_entry kv ++ match entries with
                       | [] => EmptyString
                       | _ :: _ => String "&" (URLSearchParams_toString entries)
                       end.
Proof.
  unfold URLSearchParams_toString. destruct entries as [| kv' entries]; simpl map.
  - cbn [join]. by rewrite append_nil_r.
  - cbn [join]. reflexivity.
Qed.

Lemma toString_tail entries :
  entry_tail match entries with
             | [] => EmptyString
             | _ :: _ => String "&" (URLSearchParams_toString entries)
             end.
Proof. destruct entries; [by left | right; eauto]. Qed.

Lemma toString_nonempty kv entries :
  URLSearchParams_toString (kv :: entries) ≠ EmptyString.
Proof.
  rewrite toString_cons. unfold encode_entry. intros Heq.
  apply (f_equal (has_char "=")) in Heq.
  rewrite !has_char_append in Heq. simpl in Heq.
  by rewrite orb_true_r in Heq.
Qed.

Lemma toString_inj q1 q2 :
  URLSearchParams_toString q1 = URLSearchParams_toString q2 -> q1 = q2.
Proof.
  revert q2. induction q1 as [| kv q1 IH]; intros [| kv' q2] Heq.
  - done.
  - symmetry in Heq. by apply toString_nonempty in Heq.
  - by apply toString_nonempty in Heq.
  - rewrite !toString_cons in Heq.
    destruct (encode_entry_cut _ _ _ _ (toString_tail q1) (toString_tail q2) Heq)
      as [-> Htail].
    f_equal. destruct q1 as [| a q1], q2 as [| b q2]; try done.
    injection Htail as Htail. by apply IH.
Qed.

Lemma toString_clean q : has_char ":" (URLSearchParams_toString q) = false.
Proof.
  induction q as [| [k v] q IH]; [done |].
  rewrite toString_cons. unfold encode_entry. simpl fst. simpl snd.
  destruct (form_encode_clean k) as (Hk & _ & _).
  destruct (form_encode_clean v) as (Hv & _ & _).
  rewrite !has_char_append, Hk, Hv. simpl.
  destruct q; [done |]. simpl. exact IH.
Qed.

Lemma toString_has_equals kv entries :
  has_char "=" (URLSearchParams_toString (kv :: entries)) = true.
Proof.
  rewrite toString_cons. unfold encode_entry.
  rewrite !has_char_append. simpl. by rewrite orb_true_r.
Qed.

Lemma defaultKeyGenerator_shape req :
  defaultKeyGenerator req
  = method req ++ String ":" (path req ++ String ":" (key_tail req)).
Proof.
  unfold defaultKeyGenerator, key_tail. fold (caller_id req).
  destruct (String.eqb (URLSearchParams_toString (query_entries req)) EmptyString);
    by rewrite !append_assoc.
Qed.

Lemma key_tail_inj r1 r2 :
  key_tail r1 = key_tail r2 ->
  query_entries r1 = query_entries r2 ∧ caller_id r1 = caller_id r2.
Proof.
  unfold key_tail.
  pose proof (toString_clean (query_entries r1)) as Hq1.
  pose proof (toString_clean (query_entries r2)) as Hq2.
  assert (∀ q c c', URLSearchParams_toString q ≠ EmptyString ->
            has_char ":" (URLSearchParams_toString q) = false ->
            "user:" ++ c = URLSearchParams_toString q ++ ":user:" ++ c' -> False) as Hmixed.
  { intros q c c' Hne Hclean Heq.
    change ("user:" ++ c) with ("user" ++ String ":" c) in Heq.
    change (":user:" ++ c') with (String ":" ("user:" ++ c')) in Heq.
    destruct (cut_unique ":" "user" _ _ _ eq_refl Hclean Heq) as [Hu _].
    destruct q as [| kv q]; [done |].
    pose proof (toString_has_equals kv q) as He. by rewrite <- Hu in He. }
  destruct (String.eqb_spec (URLSearchParams_toString (query_entries r1)) EmptyString)
    as [E1 | N1],
    (String.eqb_spec (URLSearchParams_toString (query_entries r2)) EmptyString)
    as [E2 | N2];
    intros Heq.
  - split.
    + apply toString_inj. by rewrite E1, E2.
    + change ("user:" ++ caller_id r1) with ("user" ++ String ":" (caller_id r1)) in Heq.
      change ("user:" ++ caller_id r2) with ("user" ++ String ":" (caller_id r2)) in Heq.
      by destruct (cut_unique ":" "user" "user" _ _ eq_refl eq_refl Heq).
  - by destruct (Hmixed _ _ _ N2 Hq2 Heq).
  - symmetry in Heq. by destruct (Hmixed _ _ _ N1 Hq1 Heq).
  - change (":user:" ++ caller_id r1) with (String ":" ("user" ++ String ":" (caller_id r1)))
      in Heq.
    change (":user:" ++ caller_id r2) with (String ":" ("user" ++ String ":" (caller_id r2)))
      in Heq.
    destruct (cut_unique ":" _ _ _ _ Hq1 Hq2 Heq) as [Hq Hu].
    split; [by apply toString_inj |].
    by destruct (cut_unique ":" "user" "user" _ _ eq_refl eq_refl Hu).
Qed.

Lemma defaultKeyGenerator_inj r1 r2 :
  has_char ":" (method r1) = false -> has_char ":" (method r2) = false ->
  has_char ":" (path r1) = false -> has_char ":" (path r2) = false ->
  defaultKeyGenerator r1 = defaultKeyGenerator r2 ->
  method r1 = method r2 ∧ path r1 = path r2 ∧
  query_entries r1 = query_entries r2 ∧ caller_id r1 = caller_id r2.
Proof.
  intros Hm1 Hm2 Hp1 Hp2. rewrite !defaultKeyGenerator_shape. intros Heq.
  destruct (cut_unique ":" _ _ _ _ Hm1 Hm2 Heq) as [Hm Hrest].
  destruct (cut_unique ":" _ _ _ _ Hp1 Hp2 Hrest) as [Hp Htail].
  destruct (key_tail_inj r1 r2 Htail) as [Hq Hu]. done.
Qed.

(** C4 (amended).  The query string of the key is made of the properties
    of [req.query] as they are enumerated (the names that are array indices
    first, in ascending order, then the other names in the order in which
    the parameters came), each with its value as a string.  Two requests
    with the same method, the same path, the same enumerated query entries
    and the same caller (an absent or empty caller id counting as
    [anonymous]) get the same default key.  Two requests whose method and
    path are free of [:] and that differ in method, path, enumerated query
    entries or caller get different default keys. *)
Theorem defaultKeyGenerator_discriminates (r1 r2 : Request) :
  (method r1 = method r2 -> path r1 = path r2 -> query_entries r1 = query_entries r2 ->
   caller_id r1 = caller_id r2 ->
   defaultKeyGenerator r1 = defaultKeyGenerator r2) ∧
  (has_char ":" (method r1) = false -> has_char ":" (method r2) = false ->
   has_char ":" (path r1) = false -> has_char ":" (path r2) = false ->
   method r1 ≠ method r2 ∨ path r1 ≠ path r2 ∨ query_entries r1 ≠ query_entries r2 ∨
   caller_id r1 ≠ caller_id r2 ->
   defaultKeyGenerator r1 ≠ defaultKeyGenerator r2).
Proof.
  split.
  - intros Hm Hp Hq Hu. rewrite !defaultKeyGenerator_shape. unfold key_tail.
    by rewrite Hm, Hp, Hq, Hu.
  - intros Hm1 Hm2 Hp1 Hp2 Hdiff Heq.
    destruct (defaultKeyGenerator_inj r1 r2 Hm1 Hm2 Hp1 Hp2 Heq)
      as (Hm & Hp & Hq & Hu).
    destruct Hdiff as [H | [H | [H | H]]]; contradiction.
Qed.

Lemma defaultKeyGenerator_discriminates_witness :
  defaultKeyGenerator (get_reports [("2", "x"); ("1", "y")] (Some "u-17"))
  = defaultKeyGenerator (get_reports [("1", "y"); ("2", "x")] (Some "u-17")) ∧
  defaultKeyGenerator (get_reports [("page", "1")] (Some "u:17"))
  ≠ defaultKeyGenerator (get_reports [("page", "2")] (Some "u:17")).
Proof.
  split.
  - apply (proj1 (defaultKeyGenerator_discriminates
                    (get_reports [("2", "x"); ("1", "y")] (Some "u-17"))
                    (get_reports [("1", "y"); ("2", "x")] (Some "u-17"))));
      reflexivity.
  - apply (proj2 (defaultKeyGenerator_discriminates
                    (get_reports [("page", "1")] (Some "u:17"))
                    (get_reports [("page", "2")] (Some "u:17")))); try reflexivity.
    right. right. left. discriminate.
Defined.

(** C4 as stated does not hold.  The names that are not array indices are
    enumerated in the order in which the parameters came, so the same
    parameters in another order get another key; and the key is not always
    a faithful image of its parts: a caller whose id is [anonymous] shares
    the keys of unauthenticated callers, and a [:] in a path can stand for
    the separator in front of the query string. *)
Lemma defaultKeyGenerator_collides :
  (let r1 := get_reports [("page", "1"); ("limit", "10")] (Some "u-17") in
   let r2 := get_reports [("limit", "10"); ("page", "1")] (Some "u-17") in
   method r1 = method r2 ∧ path r1 = path r2 ∧ query r1 ≡ₚ query r2 ∧
   user r1 = user r2 ∧
   defaultKeyGenerator r1 ≠ defaultKeyGenerator r2) ∧
  (let r1 := get_reports [] None in
   let r2 := get_reports [] (Some "anonymous") in
   user r1 ≠ user r2 ∧ defaultKeyGenerator r1 = defaultKeyGenerator r2) ∧
  (let r1 := {| method := "GET"; path := "/api/v1/reports"; query := [("page", QStr "1")];
                params := []; user := None; req_headers := [] |} in
   let r2 := {| method := "GET"; path := "/api/v1/reports:page=1"; query := [];
                params := []; user := None; req_headers := [] |} in
   path r1 ≠ path r2 ∧ query r1 ≠ query r2 ∧
   defaultKeyGenerator r1 = defaultKeyGenerator r2).
Proof.
  repeat split; try discriminate; try reflexivity.
  apply perm_swap.
Qed.

(** The names [2] and [1] are array indices: whichever comes first in the
    query string, [1] is enumerated first.  A parameter that is repeated is
    an array, which becomes the list of its items. *)
Example defaultKeyGenerator_enumeration :
  defaultKeyGenerator (get_reports [("b", "x"); ("2", "y"); ("1", "z")] None)
  = "GET:/api/v1/reports:1=z&2=y&b=x:user:anonymous" ∧
  defaultKeyGenerator
    {| method := "GET"; path := "/api/v1/reports";
       query := [("tag", QArr [QStr "a"; QStr "b"])];
       params := []; user := None; req_headers := [] |}
  = "GET:/api/v1/reports:tag=a%2Cb:user:anonymous".
Proof. by vm_compute. Qed.

(** ** [JSON.parse] reads back what [JSON.stringify] writes *)

Lemma length_append (a b : string) :
  String.length (a ++ b) = String.length a + String.length b.
Proof. induction a as [| x a IH]; string_simpl; simpl; [done |]. by rewrite IH. Qed.

(** *** Strings *)

Lemma parse_chars_escape_char c t :
  parse_chars (escape_char c ++ t) = prepend c (parse_chars t).
Proof. destruct c as [[] [] [] [] [] [] [] []]; reflexivity. Qed.

Lemma parse_chars_escape s rest :
  parse_chars (escape s ++ String dquote rest) = Some (s, rest).
Proof.
  induction s as [| c s IH]; [reflexivity |].
  cbn [escape]. rewrite append_assoc, parse_chars_escape_char, IH. reflexivity.
Qed.

Lemma quote_append s rest :
  quote s ++ rest = String dquote (escape s ++ String dquote rest).
Proof. unfold quote. string_simpl. by rewrite append_assoc. Qed.

(** *** Numbers *)

Lemma wellformed_unorm d : wellformed_int (unorm d) = true.
Proof.
  unfold unorm. pose proof (nzhead_nonzero d) as Hnz.
  destruct (nzhead d) as [| d' | | | | | | | | |]; try reflexivity.
  by destruct (Hnz d').
Qed.

Lemma wellformed_to_uint n : wellformed_int (N.to_uint n) = true.
Proof.
  rewrite <- (DecimalN.Unsigned.of_to n) at 1.
  rewrite DecimalN.Unsigned.to_of. apply wellformed_unorm.
Qed.

Lemma take_digits_rest rest :
  match rest with EmptyString => true | String c _ => negb (is_digit c) end = true ->
  take_digits rest = (Nil, rest).
Proof.
  destruct rest as [| c r]; [done |]. unfold is_digit. simpl.
  by destruct (digit_of_char c).
Qed.

Lemma take_digits_string_of_uint d rest :
  match rest with EmptyString => true | String c _ => negb (is_digit c) end = true ->
  take_digits (string_of_uint d ++ rest) = (d, rest).
Proof.
  intros Hrest. induction d as [| d IH | d IH | d IH | d IH | d IH | d IH | d IH
                               | d IH | d IH | d IH];
    cbn [string_of_uint]; string_simpl;
    [by apply take_digits_rest | ..];
    cbn [take_digits]; rewrite IH; reflexivity.
Qed.

Lemma delimited_not_digit rest :
  delimited rest = true ->
  match rest with EmptyString => true | String c _ => negb (is_digit c) end = true.
Proof. destruct rest as [| c r]; [done |]. simpl. by intros [H _]%andb_true_iff. Qed.

Lemma delimited_ends_number rest : delimited rest = true -> ends_number rest = true.
Proof. destruct rest as [| c r]; [done |]. simpl. by intros [_ H]%andb_true_iff. Qed.

Lemma parse_fraction_none rest :
  ends_number rest = true -> parse_fraction rest = Some (EmptyString, rest).
Proof.
  destruct rest as [| c r]; [done |]. unfold ends_number, parse_fraction.
  destruct c as [[] [] [] [] [] [] [] []]; try reflexivity; discriminate.
Qed.

Lemma parse_exponent_none rest :
  ends_number rest = true -> parse_exponent rest = Some (EmptyString, rest).
Proof.
  destruct rest as [| c r]; [done |]. unfold ends_number, parse_exponent.
  destruct c as [[] [] [] [] [] [] [] []]; try reflexivity; discriminate.
Qed.

Lemma parse_unsigned_to_uint negative n rest :
  delimited rest = true ->
  parse_unsigned negative (string_of_uint (N.to_uint n) ++ rest)
  = Some (JNum (if negative then - Z.of_N n else Z.of_N n), rest).
Proof.
  intros Hrest. unfold parse_unsigned.
  rewrite take_digits_string_of_uint by by apply delimited_not_digit.
  rewrite wellformed_to_uint.
  rewrite (parse_fraction_none rest (delimited_ends_number rest Hrest)).
  rewrite (parse_exponent_none rest (delimited_ends_number rest Hrest)).
  simpl. by rewrite DecimalN.Unsigned.of_to.
Qed.

Lemma digit_or_minus_dispatch c :
  is_digit c = true ∨ c = "-"%char ->
  is_ws c = false ∧ Ascii.eqb c "n" = false ∧ Ascii.eqb c "t" = false ∧
  Ascii.eqb c "f" = false ∧ Ascii.eqb c dquote = false ∧ Ascii.eqb c "[" = false ∧
  Ascii.eqb c "{" = false ∧ Ascii.eqb c "]" = false ∧ Ascii.eqb c "}" = false.
Proof.
  destruct c as [[] [] [] [] [] [] [] []]; vm_compute; intros [H | H];
    first [ discriminate H | by repeat split ].
Qed.

Lemma string_of_uint_head d :
  wellformed_int d = true ->
  ∃ c r, string_of_uint d = String c r ∧ is_digit c = true.
Proof. destruct d; [discriminate | ..]; intros _; simpl; eauto. Qed.

Lemma parse_number_string_of_Z z rest :
  delimited rest = true ->
  parse_number (string_of_Z z ++ rest) = Some (JNum z, rest).
Proof.
  intros Hrest.
  assert (∀ n, parse_number (string_of_uint (N.to_uint n) ++ rest)
               = Some (JNum (Z.of_N n), rest)) as Hnat.
  { intros n.
    destruct (string_of_uint_head (N.to_uint n) (wellformed_to_uint n))
      as (c & r & Hd & Hc).
    pose proof (parse_unsigned_to_uint false n rest Hrest) as Hparse.
    rewrite Hd in *. string_simpl. string_simpl_in Hparse. unfold parse_number.
    assert (Ascii.eqb c "-" = false) as ->.
    { destruct c as [[] [] [] [] [] [] [] []]; try reflexivity. discriminate Hc. }
    exact Hparse. }
  destruct z as [| p | p].
  - apply (Hnat 0%N).
  - apply (Hnat (Npos p)).
  - unfold string_of_Z. string_simpl. unfold parse_number.
    rewrite Ascii.eqb_refl. apply (parse_unsigned_to_uint true (Npos p) rest Hrest).
Qed.

(** The text of a number with a fraction or an exponent is read as that
    text. *)
Lemma not_digit_rest (rest : string) c r :
  rest = String c r -> is_digit c = false ->
  match rest with EmptyString => true | String c _ => negb (is_digit c) end = true.
Proof. intros -> H. by rewrite H. Qed.

Lemma some_digit_head d :
  some_digit d = true -> ∃ c r, string_of_uint d = String c r ∧ is_digit c = true.
Proof. destruct d; [discriminate | ..]; intros _; simpl; eauto. Qed.

Lemma parse_fraction_text f rest :
  match f with Some d => some_digit d = true | None => True end ->
  match rest with EmptyString => true | String c _ => negb (is_digit c) end = true ->
  (f = None -> match rest with
               | EmptyString => true
               | String c _ => negb (Ascii.eqb c ".")
               end = true) ->
  parse_fraction (fraction_text f ++ rest) = Some (fraction_text f, rest).
Proof.
  intros Hf Hrest Hdot. destruct f as [d |].
  - cbn [fraction_text]. string_simpl. unfold parse_fraction.
    change (Ascii.eqb "." ".") with true. cbv iota.
    rewrite take_digits_string_of_uint by done. by destruct d.
  - cbn [fraction_text]. string_simpl. specialize (Hdot eq_refl).
    destruct rest as [| c r]; [done |]. unfold parse_fraction.
    by apply negb_true_iff in Hdot as ->.
Qed.

Lemma parse_exponent_text e rest :
  match e with
  | Some (marker, sign, d) =>
      (Ascii.eqb marker "e" || Ascii.eqb marker "E")
      && (String.eqb sign EmptyString || String.eqb sign "+" || String.eqb sign "-")
      && some_digit d = true
  | None => True
  end ->
  delimited rest = true ->
  parse_exponent (exponent_text e ++ rest) = Some (exponent_text e, rest).
Proof.
  intros He Hrest. destruct e as [[[marker sign] d] |].
  - apply andb_true_iff in He as [He Hd]. apply andb_true_iff in He as [Hm Hs].
    cbn [exponent_text]. string_simpl. unfold parse_exponent. rewrite Hm.
    destruct (some_digit_head d Hd) as (c & r & Hdigits & Hc).
    assert (Ascii.eqb c "+" || Ascii.eqb c "-" = false) as Hsign.
    { destruct c as [[] [] [] [] [] [] [] []]; try reflexivity; discriminate Hc. }
    pose proof (take_digits_string_of_uint d rest (delimited_not_digit rest Hrest)) as Htake.
    apply orb_true_iff in Hs as [Hs | Hs]; [apply orb_true_iff in Hs as [Hs | Hs] |];
      apply String.eqb_eq in Hs; subst sign; string_simpl.
    + assert (match string_of_uint d ++ rest with
              | EmptyString => (EmptyString, EmptyString)
              | String c' r' =>
                  if Ascii.eqb c' "+" || Ascii.eqb c' "-"
                  then (String c' EmptyString, r')
                  else (EmptyString, string_of_uint d ++ rest)
              end = (EmptyString, string_of_uint d ++ rest)) as ->.
      { rewrite Hdigits. string_simpl. by rewrite Hsign. }
      rewrite Htake. by destruct d.
    + change (Ascii.eqb "+" "+" || Ascii.eqb "+" "-") with true. cbv iota.
      rewrite Htake. by destruct d.
    + change (Ascii.eqb "-" "+" || Ascii.eqb "-" "-") with true. cbv iota.
      rewrite Htake. by destruct d.
  - cbn [exponent_text]. string_simpl.
    by apply parse_exponent_none, delimited_ends_number.
Qed.

Lemma fraction_text_head f r :
  match fraction_text f ++ r with
  | EmptyString => true
  | String c _ => negb (is_digit c)
  end = true ∨ f = None.
Proof. destruct f; [by left | by right]. Qed.

Lemma exponent_text_head e rest :
  match e with
  | Some (marker, _, _) => Ascii.eqb marker "e" || Ascii.eqb marker "E" = true
  | None => delimited rest = true
  end ->
  match exponent_text e ++ rest with
  | EmptyString => true
  | String c _ => negb (is_digit c) && negb (Ascii.eqb c ".")
  end = true.
Proof.
  destruct e as [[[marker sign] d] |]; cbn [exponent_text]; string_simpl.
  - intros Hm. destruct marker as [[] [] [] [] [] [] [] []]; try discriminate Hm; reflexivity.
  - intros Hrest. destruct rest as [| c r]; [done |]. simpl in *.
    apply andb_true_iff in Hrest as [Hd He]. rewrite Hd. simpl.
    destruct c as [[] [] [] [] [] [] [] []]; try reflexivity; discriminate He.
Qed.

Lemma parse_unsigned_literal negative l rest :
  literal_ok l = true -> delimited rest = true ->
  parse_unsigned negative
    (string_of_uint (lit_whole l) ++ fraction_text (lit_fraction l)
     ++ exponent_text (lit_exponent l) ++ rest)
  = Some (JDec ((if negative then "-" else EmptyString)
                ++ string_of_uint (lit_whole l) ++ fraction_text (lit_fraction l)
                ++ exponent_text (lit_exponent l)), rest).
Proof.
  destruct l as [neg whole f e]. unfold literal_ok. cbn [lit_whole lit_fraction lit_exponent].
  intros Hok Hrest.
  apply andb_true_iff in Hok as [Hok Hsome]. apply andb_true_iff in Hok as [Hok He].
  apply andb_true_iff in Hok as [Hwhole Hf].
  assert (match exponent_text e ++ rest with
          | EmptyString => true
          | String c _ => negb (is_digit c) && negb (Ascii.eqb c ".")
          end = true) as Hehead.
  { apply exponent_text_head. destruct e as [[[marker sign] d] |]; [| done].
    apply andb_true_iff in He as [He _]. by apply andb_true_iff in He as [He _]. }
  assert (match exponent_text e ++ rest with
          | EmptyString => true
          | String c _ => negb (is_digit c)
          end = true) as Hedigit.
  { destruct (exponent_text e ++ rest); [done |]. by apply andb_true_iff in Hehead as [? _]. }
  assert (parse_fraction (fraction_text f ++ exponent_text e ++ rest)
          = Some (fraction_text f, exponent_text e ++ rest)) as Hfraction.
  { apply parse_fraction_text; [by destruct f | done |].
    intros _. destruct (exponent_text e ++ rest); [done |].
    by apply andb_true_iff in Hehead as [_ ?]. }
  assert (parse_exponent (exponent_text e ++ rest) = Some (exponent_text e, rest))
    as Hexponent.
  { apply parse_exponent_text; [| done]. by destruct e as [[[marker sign] d] |]. }
  unfold parse_unsigned.
  rewrite take_digits_string_of_uint.
  - rewrite Hwhole, Hfraction, Hexponent.
    assert (String.eqb (fraction_text f) EmptyString
            && String.eqb (exponent_text e) EmptyString = false) as ->.
    { destruct f as [d |]; [done |]. destruct e as [[[marker sign] d] |]; [done |].
      discriminate Hsome. }
    reflexivity.
  - destruct f as [d |]; [done |]. cbn [fraction_text]. string_simpl. exact Hedigit.
Qed.

Lemma parse_number_literal s rest :
  number_literal s -> delimited rest = true ->
  parse_number (s ++ rest) = Some (JDec s, rest).
Proof.
  intros (l & Hok & ->) Hrest. unfold literal_text.
  pose proof (parse_unsigned_literal (lit_negative l) l rest Hok Hrest) as Hparse.
  rewrite !append_assoc.
  destruct (lit_negative l).
  - string_simpl. unfold parse_number. rewrite Ascii.eqb_refl. exact Hparse.
  - string_simpl. string_simpl_in Hparse.
    assert (wellformed_int (lit_whole l) = true) as Hwhole.
    { unfold literal_ok in Hok. by repeat (apply andb_true_iff in Hok as [Hok _]). }
    destruct (string_of_uint_head _ Hwhole) as (c & r & Hd & Hc).
    rewrite Hd in *. string_simpl. string_simpl_in Hparse. unfold parse_number.
    assert (Ascii.eqb c "-" = false) as ->.
    { destruct c as [[] [] [] [] [] [] [] []]; try reflexivity. discriminate Hc. }
    exact Hparse.
Qed.

Lemma number_literal_head s :
  number_literal s -> ∃ c r, s = String c r ∧ (is_digit c = true ∨ c = "-"%char).
Proof.
  intros (l & Hok & ->). unfold literal_text.
  destruct (lit_negative l); string_simpl.
  - eexists _, _. split; [reflexivity | by right].
  - assert (wellformed_int (lit_whole l) = true) as Hwhole.
    { unfold literal_ok in Hok. by repeat (apply andb_true_iff in Hok as [Hok _]). }
    destruct (string_of_uint_head _ Hwhole) as (c & r & Hd & Hc).
    rewrite Hd. string_simpl. eexists _, _. split; [reflexivity | by left].
Qed.

(** *** Values *)

Lemma serializable_items items :
  serializable (JArr items) <-> Forall serializable items.
Proof.
  cbn [serializable]. induction items as [| v items IH]; cbn [fold_right].
  - split; [intros _; by apply Forall_nil | done].
  - rewrite Forall_cons. by rewrite IH.
Qed.

Lemma serializable_members members :
  serializable (JObj members) <-> Forall (fun kv => serializable (snd kv)) members.
Proof.
  cbn [serializable]. induction members as [| kv members IH]; cbn [fold_right].
  - split; [intros _; by apply Forall_nil | done].
  - rewrite Forall_cons. by rewrite IH.
Qed.

(** A value whose numbers are whole numbers is one that is written. *)
Lemma integral_serializable v : integral v = true -> serializable v.
Proof.
  induction v as [| b | n | lit | s | items IH | members IH] using json_induction;
    try done.
  - cbn [integral]. intros Hint. apply serializable_items.
    rewrite forallb_forall in Hint. rewrite Forall_forall in IH. apply Forall_forall.
    intros v Hv. apply IH; [done |]. apply Hint. by apply list_elem_of_In.
  - cbn [integral]. intros Hint. apply serializable_members.
    rewrite forallb_forall in Hint. rewrite Forall_forall in IH. apply Forall_forall.
    intros kv Hkv. apply IH; [done |]. apply (Hint kv). by apply list_elem_of_In.
Qed.

Lemma parse_value_S fuel s :
  parse_value (S fuel) s =
  match skip_ws s with
  | EmptyString => None
  | String c r =>
      if Ascii.eqb c "n" then
        match literal "ull" r with Some rest => Some (JNull, rest) | None => None end
      else if Ascii.eqb c "t" then
        match literal "rue" r with Some rest => Some (JBool true, rest) | None => None end
      else if Ascii.eqb c "f" then
        match literal "alse" r with Some rest => Some (JBool false, rest) | None => None end
      else if Ascii.eqb c dquote then
        match parse_chars r with
        | Some (str, rest) => Some (JStr str, rest)
        | None => None
        end
      else if Ascii.eqb c "[" then
        match skip_ws r with
        | String c' r' =>
            if Ascii.eqb c' "]" then Some (JArr [], r')
            else match parse_items fuel r with
                 | Some (items, rest) => Some (JArr items, rest)
                 | None => None
                 end
        | EmptyString => None
        end
      else if Ascii.eqb c "{" then
        match skip_ws r with
        | String c' r' =>
            if Ascii.eqb c' "}" then Some (JObj [], r')
            else match parse_members fuel r with
                 | Some (members, rest) => Some (JObj members, rest)
                 | None => None
                 end
        | EmptyString => None
        end
      else parse_number (String c r)
  end.
Proof. reflexivity. Qed.

Lemma parse_items_S fuel s :
  parse_items (S fuel) s =
  match parse_value fuel s with
  | Some (v, r) =>
      match skip_ws r with
      | String c r' =>
          if Ascii.eqb c "," then
            match parse_items fuel r' with
            | Some (vs, rest) => Some (v :: vs, rest)
            | None => None
            end
          else if Ascii.eqb c "]" then Some ([v], r')
          else None
      | EmptyString => None
      end
  | None => None
  end.
Proof. reflexivity. Qed.

Lemma parse_members_S fuel s :
  parse_members (S fuel) s =
  match skip_ws s with
  | String q r0 =>
      if Ascii.eqb q dquote then
        match parse_chars r0 with
        | Some (k, r1) =>
            match skip_ws r1 with
            | String c r2 =>
                if Ascii.eqb c ":" then
                  match parse_value fuel r2 with
                  | Some (v, r3) =>
                      match skip_ws r3 with
                      | String c' r4 =>
                          if Ascii.eqb c' "," then
                            match parse_members fuel r4 with
                            | Some (ms, rest) => Some ((k, v) :: ms, rest)
                            | None => None
                            end
                          else if Ascii.eqb c' "}" then Some ([(k, v)], r4)
                          else None
                      | EmptyString => None
                      end
                  | None => None
                  end
                else None
            | EmptyString => None
            end
        | None => None
        end
      else None
  | EmptyString => None
  end.
Proof. reflexivity. Qed.

Lemma string_of_Z_head z :
  ∃ c r, string_of_Z z = String c r ∧ (is_digit c = true ∨ c = "-"%char).
Proof.
  destruct z as [| p | p].
  - exists "0"%char, EmptyString. split; [reflexivity | by left].
  - unfold string_of_Z.
    destruct (string_of_uint_head _ (wellformed_to_uint (Z.to_N (Zpos p))))
      as (c & r & Hd & Hc).
    exists c, r. split; [exact Hd | by left].
  - unfold string_of_Z. eexists _, _. split; [reflexivity | by right].
Qed.

(** The first character of the text of a value: not white space, not a
    closing bracket. *)
Lemma stringify_head v :
  serializable v ->
  ∃ c r, stringify v = String c r ∧ is_ws c = false ∧
         Ascii.eqb c "]" = false ∧ Ascii.eqb c "}" = false.
Proof.
  destruct v as [| [|] | n | lit | s | items | members]; intros Hv;
    try (eexists _, _; split; [reflexivity |]; by vm_compute).
  - destruct (string_of_Z_head n) as (c & r & Hn & Hc).
    exists c, r. split; [exact Hn |].
    destruct (digit_or_minus_dispatch c Hc) as (? & _ & _ & _ & _ & _ & _ & ? & ?).
    done.
  - destruct (number_literal_head lit Hv) as (c & r & Hn & Hc).
    exists c, r. split; [exact Hn |].
    destruct (digit_or_minus_dispatch c Hc) as (? & _ & _ & _ & _ & _ & _ & ? & ?).
    done.
Qed.

Lemma skip_ws_head c r : is_ws c = false -> skip_ws (String c r) = String c r.
Proof. intros H. simpl. by rewrite H. Qed.

Lemma join_cons2 sep a b l : join sep (a :: b :: l) = a ++ sep ++ join sep (b :: l).
Proof. reflexivity. Qed.

Lemma join_head v items t :
  serializable v ->
  ∃ c r, join "," (map stringify (v :: items)) ++ t = String c r ∧
         is_ws c = false ∧ Ascii.eqb c "]" = false.
Proof.
  intros Hint. destruct (stringify_head v Hint) as (c & r & Hv & Hws & Hb & _).
  destruct items as [| v' items]; cbn [map].
  - cbn [join]. rewrite Hv. string_simpl. eauto.
  - rewrite join_cons2, Hv. string_simpl. eauto.
Qed.

Lemma reads_back_items items :
  Forall reads_back items ->
  ∀ v, reads_back v ->
  Forall serializable (v :: items) ->
  ∀ fuel rest, list_sum (map (fun x => S (json_size x)) (v :: items)) < fuel ->
    parse_items fuel (join "," (map stringify (v :: items)) ++ String "]" rest)
    = Some (v :: items, rest).
Proof.
  induction 1 as [| v' items Hv' Hitems IH]; intros v Hv Hint fuel rest Hfuel;
    (destruct fuel as [| fuel]; [lia |]); simpl in Hfuel;
    apply Forall_cons in Hint as [Hint Hints].
  - cbn [map join]. rewrite parse_items_S.
    rewrite (Hv Hint fuel (String "]" rest)) by first [lia | reflexivity].
    reflexivity.
  - cbn [map]. rewrite join_cons2, append_assoc. string_simpl.
    rewrite parse_items_S.
    rewrite (Hv Hint fuel) by first [lia | reflexivity].
    rewrite skip_ws_head by reflexivity.
    change (Ascii.eqb "," ",") with true. cbv iota.
    cbn [map] in IH. rewrite (IH v' Hv' Hints fuel rest) by (simpl; lia).
    reflexivity.
Qed.

Lemma reads_back_members members :
  Forall (fun kv => reads_back (snd kv)) members ->
  ∀ k v, reads_back v ->
  Forall (fun kv => serializable (snd kv)) ((k, v) :: members) ->
  ∀ fuel rest, list_sum (map (fun kv => S (json_size (snd kv))) ((k, v) :: members)) < fuel ->
    parse_members fuel (join "," (map member_text ((k, v) :: members)) ++ String "}" rest)
    = Some ((k, v) :: members, rest).
Proof.
  induction 1 as [| [k' v'] members Hv' Hmembers IH]; intros k v Hv Hint fuel rest Hfuel;
    (destruct fuel as [| fuel]; [lia |]); simpl in Hfuel;
    apply Forall_cons in Hint as [Hint Hints]; cbn [snd] in Hint.
  - cbn [map join]. unfold member_text. cbn [fst snd].
    rewrite append_assoc, quote_append. string_simpl.
    rewrite parse_members_S.
    rewrite skip_ws_head by reflexivity. rewrite Ascii.eqb_refl.
    rewrite parse_chars_escape.
    rewrite skip_ws_head by reflexivity.
    change (Ascii.eqb ":" ":") with true. cbv iota.
    rewrite (Hv Hint fuel (String "}" rest)) by first [lia | reflexivity].
    reflexivity.
  - cbn [map]. rewrite join_cons2. unfold member_text at 1. cbn [fst snd].
    rewrite !append_assoc, quote_append. string_simpl.
    rewrite parse_members_S.
    rewrite skip_ws_head by reflexivity. rewrite Ascii.eqb_refl.
    rewrite parse_chars_escape.
    rewrite skip_ws_head by reflexivity.
    change (Ascii.eqb ":" ":") with true. cbv iota.
    rewrite (Hv Hint fuel) by first [lia | reflexivity].
    rewrite skip_ws_head by reflexivity.
    change (Ascii.eqb "," ",") with true. cbv iota.
    cbn [map] in IH. simpl in Hv'.
    rewrite (IH k' v' Hv' Hints fuel rest) by (simpl; lia).
    reflexivity.
Qed.

Lemma stringify_reads_back v : reads_back v.
Proof.
  induction v as [| b | n | lit | s | items IH | members IH] using json_induction;
    intros Hint fuel rest Hfuel Hrest;
    (destruct fuel as [| fuel]; [simpl in Hfuel; lia |]).
  - reflexivity.
  - destruct b; reflexivity.
  - cbn [stringify].
    pose proof (parse_number_string_of_Z n rest Hrest) as Hparse.
    destruct (string_of_Z_head n) as (c & r & Hn & Hc).
    destruct (digit_or_minus_dispatch c Hc)
      as (Hws & H1 & H2 & H3 & H4 & H5 & H6 & _ & _).
    rewrite Hn in *. string_simpl. string_simpl_in Hparse.
    by rewrite parse_value_S, (skip_ws_head c _ Hws), H1, H2, H3, H4, H5, H6, Hparse.
  - cbn [stringify]. cbn [serializable] in Hint.
    pose proof (parse_number_literal lit rest Hint Hrest) as Hparse.
    destruct (number_literal_head lit Hint) as (c & r & Hn & Hc).
    destruct (digit_or_minus_dispatch c Hc)
      as (Hws & H1 & H2 & H3 & H4 & H5 & H6 & _ & _).
    rewrite Hn in *. string_simpl. string_simpl_in Hparse.
    by rewrite parse_value_S, (skip_ws_head c _ Hws), H1, H2, H3, H4, H5, H6, Hparse.
  - cbn [stringify]. rewrite quote_append, parse_value_S.
    rewrite skip_ws_head by reflexivity.
    change (Ascii.eqb dquote "n") with false. change (Ascii.eqb dquote "t") with false.
    change (Ascii.eqb dquote "f") with false. rewrite Ascii.eqb_refl. cbv iota.
    by rewrite parse_chars_escape.
  - destruct items as [| v items]; [reflexivity |].
    cbn [stringify]. rewrite !append_assoc. string_simpl.
    rewrite parse_value_S, skip_ws_head by reflexivity.
    change (Ascii.eqb "[" "n") with false. change (Ascii.eqb "[" "t") with false.
    change (Ascii.eqb "[" "f") with false. change (Ascii.eqb "[" dquote) with false.
    change (Ascii.eqb "[" "[") with true. cbv iota.
    apply Forall_cons in IH as [Hv Hitems]. apply serializable_items in Hint.
    pose proof (reads_back_items items Hitems v Hv Hint fuel rest) as Hparse.
    apply Forall_cons in Hint as [Hint _].
    destruct (join_head v items (String "]" rest) Hint) as (c & r & Htext & Hws & Hb).
    rewrite Htext in *. rewrite (skip_ws_head c r Hws), Hb, Hparse; [done |].
    simpl in Hfuel. simpl. lia.
  - destruct members as [| [k v] members]; [reflexivity |].
    cbn [stringify]. rewrite !append_assoc. string_simpl.
    rewrite parse_value_S, skip_ws_head by reflexivity.
    change (Ascii.eqb "{" "n") with false. change (Ascii.eqb "{" "t") with false.
    change (Ascii.eqb "{" "f") with false. change (Ascii.eqb "{" dquote) with false.
    change (Ascii.eqb "{" "[") with false. change (Ascii.eqb "{" "{") with true.
    cbv iota.
    apply Forall_cons in IH as [Hv Hmembers]. simpl in Hv.
    apply serializable_members in Hint.
    pose proof (reads_back_members members Hmembers k v Hv Hint fuel rest) as Hparse.
    change (map (fun kv => quote (fst kv) ++ ":" ++ stringify (snd kv)) ((k, v) :: members))
      with (map member_text ((k, v) :: members)).
    assert (∃ r, join "," (map member_text ((k, v) :: members)) ++ String "}" rest
                 = String dquote r) as [r Htext].
    { destruct members as [| kv' members]; cbn [map].
      - cbn [join]. unfold member_text. cbn [fst]. rewrite append_assoc, quote_append. eauto.
      - rewrite join_cons2. unfold member_text at 1. cbn [fst].
        rewrite !append_assoc, quote_append. eauto. }
    rewrite Htext in *. rewrite skip_ws_head by reflexivity.
    change (Ascii.eqb dquote "}") with false. cbv iota.
    rewrite Hparse; [done |]. simpl in Hfuel. simpl. lia.
Qed.

Lemma json_size_length v : json_size v <= String.length (stringify v).
Proof.
  induction v as [| b | n | lit | s | items IH | members IH] using json_induction;
    try (simpl; lia).
  - cbn [stringify json_size]. rewrite !length_append. simpl String.length.
    induction IH as [| v items Hv _ IHitems]; [simpl; lia |].
    destruct items as [| v' items].
    + simpl in *. lia.
    + cbn [map] in *. rewrite join_cons2, !length_append. simpl in *. lia.
  - cbn [stringify json_size]. rewrite !length_append. simpl String.length.
    change (map (fun kv => quote (fst kv) ++ ":" ++ stringify (snd kv)) members)
      with (map member_text members).
    induction IH as [| [k v] members Hv _ IHmembers]; [simpl; lia |].
    assert (json_size v < String.length (member_text (k, v))) as Hlen.
    { unfold member_text. rewrite !length_append. simpl in *. lia. }
    destruct members as [| kv' members].
    + cbn [map join list_sum] in *. simpl list_sum. cbn [snd]. lia.
    + cbn [map] in *. rewrite join_cons2, !length_append. simpl list_sum in *.
      cbn [snd] in *. simpl String.length at 2. lia.
Qed.

(** Every value that is written is read back from its own text. *)
Lemma parse_stringify v : serializable v -> parse (stringify v) = Some v.
Proof.
  intros Hint. unfold parse.
  pose proof (stringify_reads_back v Hint (S (String.length (stringify v))) EmptyString)
    as H.
  rewrite append_nil_r in H. rewrite H; [done | | done].
  pose proof (json_size_length v). lia.
Qed.

(** ** Round trip through the cache *)

Lemma set_success key value options w :
  fst (set key value options w) = Ok true ->
  isConnected w = true ∧ failure (next_reply w) = None ∧
  snd (set key value options w)
  = with_sink (Metric "cache_sets_total" 1)
      (with_sink (Metric "cache_operation_duration" (now w + took (next_reply w) - now w))
         (with_stats (add_sets 1)
            (with_db (fun m => <[physical (buildKey key (prefix options)) :=
                                   stored (now w + took (next_reply w))
                                     (or_else (ttl options) defaultTTL) (serialize value)]> m)
               (snd (on_wire (SETEX (buildKey key (prefix options))
                                (or_else (ttl options) defaultTTL) (serialize value)) w))))).
Proof.
  unfold set, set_operation, redis_setex, round_trip, Date_now, recordMetric. run_M.
  destruct w as [st [|] m replies sent t events]; simpl; [| intros [=]].
  destruct (failure (next_reply _)); simpl; [intros [=] |]. done.
Qed.

Lemma get_reads key options w payload :
  isConnected w = true -> failure (next_reply w) = None ->
  lookup_live (now w + took (next_reply w)) (db w)
    (physical (buildKey key (prefix options)))
  = Some payload ->
  fst (get key options w) = Ok (deserialize payload).
Proof.
  intros Hw Hok Hlive.
  unfold get, get_operation, redis_get, round_trip, Date_now, recordMetric. run_M.
  rewrite Hw, Hok. simpl. by rewrite Hlive.
Qed.

Lemma deserialize_serialize v : round_trippable v -> deserialize (serialize v) = v.
Proof.
  intros [[Hint Hv] | (s & -> & Hs)].
  - unfold deserialize.
    assert (serialize v = stringify v) as -> by (destruct v; try done; by destruct (Hv s)).
    by rewrite parse_stringify.
  - unfold deserialize. simpl. by rewrite Hs.
Qed.

(** C2 (amended). After a successful [set(k, v)] the payload in the store
    is [v] itself when [v] is a string, with no added quoting, and the JSON
    text of [v] otherwise.  A [get(k)] that finds this payload, the entry
    being neither expired nor deleted, returns what the payload
    deserializes to: this is [v] for every value that is not a string,
    whatever its numbers are, and for every string that [JSON.parse]
    rejects. *)
Theorem set_get_round_trip (key : string) (value : json) (options : CacheOptions)
    (w : World) :
  fst (set key value options w) = Ok true ->
  (payload <$> db (snd (set key value options w))
                 !! physical (buildKey key (prefix options))
   = Some (serialize value)) ∧
  (∀ s, value = JStr s -> serialize value = s) ∧
  (∀ w2, isConnected w2 = true -> failure (next_reply w2) = None ->
     lookup_live (now w2 + took (next_reply w2)) (db w2)
       (physical (buildKey key (prefix options)))
     = Some (serialize value) ->
     fst (get key options w2) = Ok (deserialize (serialize value))) ∧
  (failure (next_reply (snd (set key value options w))) = None ->
   (took (next_reply (snd (set key value options w)))
    < 1000 * or_else (ttl options) defaultTTL)%Z ->
   fst (get key options (snd (set key value options w)))
   = Ok (deserialize (serialize value))) ∧
  ((serializable value ∧ ∀ s, value ≠ JStr s) ∨
   (∃ s, value = JStr s ∧ parse s = None) ->
   deserialize (serialize value) = value).
Proof.
  intros Hset. destruct (set_success key value options w Hset) as (Hw & Hok & Hw1).
  split; [| split; [| split; [| split]]].
  - rewrite Hw1. simpl. by rewrite lookup_insert_eq.
  - by intros s ->.
  - intros w2. apply get_reads.
  - intros Hok2 Hsoon.
    assert (isConnected (snd (set key value options w)) = true) as Hw2.
    { rewrite Hw1. simpl. exact Hw. }
    apply (get_reads key options _ (serialize value) Hw2 Hok2).
    revert Hsoon. rewrite Hw1. unfold lookup_live, next_reply. simpl.
    rewrite lookup_insert_eq. unfold live, stored, next_reply. simpl. intros Hsoon.
    rewrite (proj2 (Z.ltb_lt _ _)); [done | lia].
  - apply deserialize_serialize.
Qed.

(** A report with a score of 7.5 and a rate of 1.2e-7. *)
Lemma set_get_round_trip_witness :
  fst (get "report:7" no_options
         (snd (set "report:7"
                 (JObj [("id", JNum 7); ("score", JDec "7.5"); ("rate", JDec "1.2e-7");
                        ("tags", JArr [JStr "xss"; JNull])])
                 no_options blank)))
  = Ok (JObj [("id", JNum 7); ("score", JDec "7.5"); ("rate", JDec "1.2e-7");
              ("tags", JArr [JStr "xss"; JNull])]).
Proof.
  destruct (set_get_round_trip "report:7"
              (JObj [("id", JNum 7); ("score", JDec "7.5"); ("rate", JDec "1.2e-7");
                     ("tags", JArr [JStr "xss"; JNull])])
              no_options blank eq_refl) as (_ & _ & _ & Hget & Hback).
  rewrite <- Hback at 2.
  - apply Hget; [reflexivity | vm_compute; reflexivity].
  - left. split; [| discriminate].
    cbn [serializable fold_right snd]. repeat split.
    + by exists {| lit_negative := false; lit_whole := D7 Nil; lit_fraction := Some (D5 Nil);
                   lit_exponent := None |}.
    + by exists {| lit_negative := false; lit_whole := D1 Nil; lit_fraction := Some (D2 Nil);
                   lit_exponent := Some ("e"%char, "-", D7 Nil) |}.
Defined.

(** C2 as stated does not hold for strings that are themselves JSON text:
    the string ["123"] is stored as the three characters [123], and [get]
    parses them into the number 123. *)
Lemma string_round_trip_fails :
  fst (set "k" (JStr "123") no_options blank) = Ok true ∧
  payload <$> db (snd (set "k" (JStr "123") no_options blank)) !! "bug-bounty:k"
  = Some "123" ∧
  fst (get "k" no_options (snd (set "k" (JStr "123") no_options blank))) = Ok (JNum 123) ∧
  JNum 123 ≠ JStr "123".
Proof. vm_compute. repeat split; discriminate. Qed.

(** ** Scenarios *)

(** A first [GET] misses and its answer is written back; once the write has
    run, the same request is answered from the cache and the handler is not
    reached: the body is the one of the first answer. *)
Example miss_then_hit :
  let req := get_reports [("page", "1")] (Some "u-17") in
  match handle [mediumCache] [Json (JStr "first")] req fresh_response blank with
  | (Ok (res1, calls), w1) =>
      getHeader (state res1) "X-Cache" = Some "MISS" ∧
      match handle [mediumCache] [Json (JStr "second")] req fresh_response
              (snd (settle calls w1)) with
      | (Ok (res2, _), _) =>
          getHeader (state res2) "X-Cache" = Some "HIT" ∧
          getHeader (state res2) "Cache-Control" = Some "max-age=300" ∧
          sent (state res2) = Some (JStr "first")
      | (Throw _, _) => False
      end
  | (Throw _, _) => False
  end.
Proof. vm_compute. repeat split. Qed.

(** With the store away every read is a miss and nothing is written. *)
Example offline_request :
  let req := get_reports [] None in
  match handle [mediumCache] [Json (JStr "answer")] req fresh_response offline with
  | (Ok (res, calls), w) =>
      sent (state res) = Some (JStr "answer") ∧
      wire (snd (settle calls w)) = [] ∧
      misses (stats (snd (settle calls w))) = 1
  | (Throw _, _) => False
  end.
Proof. vm_compute. repeat split. Qed.

(* ================================================================== *)
(** * Part III: further properties of the code                         *)
(* ================================================================== *)

(** ** Runs of [get] and [set], step by step *)

Lemma get_miss key options w :
  isConnected w = true -> failure (next_reply w) = None ->
  lookup_live (now w + took (next_reply w)) (db w)
    (physical (buildKey key (prefix options))) = None ->
  get key options w
  = (Ok JNull,
     with_sink (Metric "cache_misses_total" 1)
       (with_stats inc_misses
          (with_sink (Metric "cache_operation_duration" (now w + took (next_reply w) - now w))
             (snd (on_wire (GET (buildKey key (prefix options))) w))))).
Proof.
  intros Hw Hok Hlive.
  unfold get, get_operation, redis_get, round_trip, Date_now, recordMetric. run_M.
  rewrite Hw, Hok. simpl. rewrite Hlive. simpl.
  destruct w; simpl in *. subst. reflexivity.
Qed.

Lemma get_hit key options w payload :
  isConnected w = true -> failure (next_reply w) = None ->
  lookup_live (now w + took (next_reply w)) (db w)
    (physical (buildKey key (prefix options))) = Some payload ->
  get key options w
  = (Ok (deserialize payload),
     with_sink (Metric "cache_hits_total" 1)
       (with_stats inc_hits
          (with_sink (Metric "cache_operation_duration" (now w + took (next_reply w) - now w))
             (snd (on_wire (GET (buildKey key (prefix options))) w))))).
Proof.
  intros Hw Hok Hlive.
  unfold get, get_operation, redis_get, round_trip, Date_now, recordMetric. run_M.
  rewrite Hw, Hok. simpl. rewrite Hlive. simpl.
  destruct w; simpl in *. subst. reflexivity.
Qed.

Lemma set_run key value options w :
  isConnected w = true -> failure (next_reply w) = None ->
  set key value options w
  = (Ok true,
     with_sink (Metric "cache_sets_total" 1)
       (with_sink (Metric "cache_operation_duration" (now w + took (next_reply w) - now w))
          (with_stats (add_sets 1)
             (with_db (fun m => <[physical (buildKey key (prefix options)) :=
                                    stored (now w + took (next_reply w))
                                      (or_else (ttl options) defaultTTL) (serialize value)]> m)
                (snd (on_wire (SETEX (buildKey key (prefix options))
                                 (or_else (ttl options) defaultTTL) (serialize value)) w)))))).
Proof.
  intros Hw Hok.
  unfold set, set_operation, redis_setex, round_trip, Date_now, recordMetric. run_M.
  rewrite Hw, Hok. simpl. destruct w; simpl in *. subst. reflexivity.
Qed.

Lemma total_returning {A} (f : A -> Value) (m : M A) :
  (∀ w, ∃ a w', m w = (Ok a, w')) -> ∀ w, ∃ v w', returning f m w = (Ok v, w').
Proof.
  intros Hm w. destruct (Hm w) as (a & w' & H). exists (f a), w'. by apply run_returning.
Qed.

(** ** No operation of the facade throws, [disconnect] apart *)

(** X1. No operation of the facade lets an exception escape, [disconnect]
    apart: whatever the connection flag is and whatever the store answers
    or throws, [get], [set], [delete], [exists], [getMultiple],
    [setMultiple], [invalidatePattern], [flush], [healthCheck], [connect],
    [getStats], [resetStats] and the four event handlers end with a normal
    result. *)
Theorem facade_never_throws (op : Operation) (w : World) :
  op ≠ Disconnect -> ∃ v w', run op w = (Ok v, w').
Proof.
  intros Hop. destruct op; try done; simpl; apply total_returning;
    try (apply executeWithFallback_total; try apply total_ret).
  - intros w0. unfold get_fallback. run_M. eauto.
  - intros w0. rewrite getMultiple_fallback_spec. eauto.
  - intros w0. unfold healthCheck, try_catch.
    match goal with |- context [match ?m w0 with _ => _ end] => destruct (m w0) as [[h | e] w1] end;
      unfold ret; eauto.
  - intros w0. unfold resetStats, modify. eauto.
  - intros w0. unfold connect, try_catch.
    destruct (redis_connect w0) as [[[] | e] w1]; unfold log, modify; eauto.
  - intros w0. unfold reads. eauto.
  - intros w0. unfold modify. eauto.
  - intros w0. unfold modify. eauto.
  - intros w0. unfold modify. eauto.
  - intros w0. unfold modify. eauto.
Qed.

Lemma facade_never_throws_witness :
  ∃ v w', run (Flush (Some "response:*")) (scripted [refused]) = (Ok v, w').
Proof.
  apply (facade_never_throws (Flush (Some "response:*")) (scripted [refused])).
  discriminate.
Defined.

(** ** Accounting of reads *)

(** X2. Every call of [get] counts as exactly one request: whatever the
    connection flag is and whatever the store does, [hits + misses] is one
    more after the call, and [sets] and [deletes] are what they were.  An
    answer other than [null] is always counted as a hit, and it leaves
    [errors] as it was. *)
Theorem get_counts_one_request (key : string) (options : CacheOptions) (w : World) :
  let w' := snd (get key options w) in
  hits (stats w') + misses (stats w') = S (hits (stats w) + misses (stats w)) ∧
  sets (stats w') = sets (stats w) ∧ deletes (stats w') = deletes (stats w) ∧
  (∀ v, fst (get key options w) = Ok v -> v ≠ JNull ->
     hits (stats w') = S (hits (stats w)) ∧ errors (stats w') = errors (stats w)).
Proof.
  unfold get, get_operation, get_fallback, redis_get, round_trip, Date_now, recordMetric.
  run_M. destruct w as [st [|] m replies sent t events]; simpl.
  - destruct (failure (next_reply _)) as [msg |]; simpl.
    + repeat split; try lia; congruence.
    + destruct (lookup_live _ _ _) as [payload |]; simpl.
      * repeat split; lia.
      * repeat split; try lia; congruence.
  - repeat split; try lia; congruence.
Qed.

Lemma collect_spec results w :
  collect results w =
  (Ok (map revive results),
   with_stats (add_misses (length results - found results))
     (with_stats (add_hits (found results)) w)).
Proof.
  revert w. induction results as [| [payload |] rest IH]; intros w.
  - simpl. unfold ret, with_stats, add_misses, add_hits, found. simpl.
    destruct w as [[] ? ? ? ? ? ?]; simpl. do 3 f_equal; lia.
  - simpl. run_M. rewrite IH. simpl.
    assert (found (Some payload :: rest) = S (found rest)) as -> by reflexivity.
    unfold with_stats, add_misses, add_hits, inc_hits. simpl. do 3 f_equal; lia.
  - simpl. run_M. rewrite IH. simpl.
    assert (found (None :: rest) = found rest) as -> by reflexivity.
    assert (found rest <= length rest) as Hle.
    { unfold found. apply length_filter. }
    unfold with_stats, add_misses, add_hits, inc_misses. simpl. do 3 f_equal; lia.
Qed.

Lemma found_le results : found results <= length results.
Proof. unfold found. apply length_filter. Qed.

(** X3. In every world [getMultiple] ends with a normal result that has
    one slot per requested key; [hits + misses] grows by the number of
    keys, and [sets] and [deletes] do not change. *)
Theorem getMultiple_accounting (keys : list string) (options : CacheOptions) (w : World) :
  ∃ vs w',
    getMultiple keys options w = (Ok vs, w') ∧
    length vs = length keys ∧
    hits (stats w') + misses (stats w')
    = hits (stats w) + misses (stats w) + length keys ∧
    sets (stats w') = sets (stats w) ∧ deletes (stats w') = deletes (stats w).
Proof.
  unfold getMultiple, getMultiple_operation, redis_mget, round_trip. run_M.
  destruct (isConnected w) eqn:Hw.
  - destruct (failure (next_reply w)) as [msg |] eqn:Hok; simpl.
    + rewrite getMultiple_fallback_spec. eexists _, _. split; [reflexivity |].
      rewrite length_replicate. simpl. repeat split; lia.
    + rewrite collect_spec. eexists _, _. split; [reflexivity |].
      rewrite !length_map.
      pose proof (found_le (map (fun k => lookup_live (now w + took (next_reply w)) (db w)
                                            (physical k))
                              (map (fun key => buildKey key (prefix options)) keys))) as Hle.
      rewrite !length_map in Hle. simpl. repeat split; lia.
  - rewrite getMultiple_fallback_spec. eexists _, _. split; [reflexivity |].
    rewrite length_replicate. simpl. repeat split; lia.
Qed.

(** ** Deleting and probing *)

Lemma delete_run key options w :
  isConnected w = true -> failure (next_reply w) = None ->
  delete key options w
  = (Ok (match lookup_live (now w + took (next_reply w)) (db w)
                 (physical (buildKey key (prefix options))) with
         | Some _ => true
         | None => false
         end),
     with_sink (Metric "cache_deletes_total" 1)
       (with_sink (Metric "cache_operation_duration" (now w + took (next_reply w) - now w))
          (with_stats inc_deletes
             (with_db (base.delete (physical (buildKey key (prefix options))))
                (snd (on_wire (DEL [buildKey key (prefix options)]) w)))))).
Proof.
  intros Hw Hok.
  unfold delete, delete_operation, redis_del, round_trip, Date_now, recordMetric. run_M.
  rewrite Hw, Hok. simpl. unfold remove_keys. simpl.
  destruct w; simpl in *. subst.
  destruct (lookup_live _ _ _); reflexivity.
Qed.

(** X4. With the connection flag up and the store answering, [delete]
    sends one [DEL] for the full key and returns [true] exactly when a live
    entry was under that key; afterwards the store holds nothing under it,
    and the call is counted in [deletes] even when nothing was deleted. *)
Theorem delete_contract (key : string) (options : CacheOptions) (w : World) :
  isConnected w = true -> failure (next_reply w) = None ->
  let k := physical (buildKey key (prefix options)) in
  let w' := snd (delete key options w) in
  fst (delete key options w)
  = Ok (match lookup_live (now w + took (next_reply w)) (db w) k with
        | Some _ => true
        | None => false
        end) ∧
  db w' = base.delete k (db w) ∧
  deletes (stats w') = S (deletes (stats w)) ∧
  wire w' = (wire w ++ [DEL [buildKey key (prefix options)]])%list.
Proof.
  intros Hw Hok. simpl. rewrite (delete_run key options w Hw Hok). simpl. done.
Qed.

Lemma delete_contract_witness :
  fst (delete "report:7" no_options blank) = Ok false ∧
  deletes (stats (snd (delete "report:7" no_options blank))) = 1.
Proof.
  destruct (delete_contract "report:7" no_options blank eq_refl eq_refl)
    as (Hres & _ & Hcount & _).
  split; [exact Hres | exact Hcount].
Defined.

Lemma exists_run key options w :
  isConnected w = true -> failure (next_reply w) = None ->
  exists_ key options w
  = (Ok (match lookup_live (now w + took (next_reply w)) (db w)
                 (physical (buildKey key (prefix options))) with
         | Some _ => true
         | None => false
         end),
     snd (on_wire (EXISTS (buildKey key (prefix options))) w)).
Proof.
  intros Hw Hok.
  unfold exists_, exists_operation, redis_exists, round_trip. run_M.
  rewrite Hw, Hok. simpl. destruct w; simpl in *. subst.
  destruct (lookup_live _ _ _); reflexivity.
Qed.

(** X5. With the connection flag up and the store answering, [exists]
    returns [true] exactly when a live entry is under the full key, and it
    leaves every counter as it was.  In every world it leaves the content
    of the store and the counters [hits], [misses], [sets] and [deletes]
    untouched. *)
Theorem exists_contract (key : string) (options : CacheOptions) (w : World) :
  let w' := snd (exists_ key options w) in
  (isConnected w = true -> failure (next_reply w) = None ->
     fst (exists_ key options w)
     = Ok (match lookup_live (now w + took (next_reply w)) (db w)
                   (physical (buildKey key (prefix options))) with
           | Some _ => true
           | None => false
           end) ∧
     stats w' = stats w) ∧
  db w' = db w ∧
  hits (stats w') = hits (stats w) ∧ misses (stats w') = misses (stats w) ∧
  sets (stats w') = sets (stats w) ∧ deletes (stats w') = deletes (stats w).
Proof.
  simpl. split.
  - intros Hw Hok. rewrite (exists_run key options w Hw Hok). simpl. done.
  - unfold exists_, exists_operation, redis_exists, round_trip. run_M.
    destruct (isConnected w); [| done].
    destruct (failure (next_reply w)); simpl; done.
Qed.

Lemma exists_contract_witness :
  fst (exists_ "report:7" no_options blank) = Ok false ∧
  stats (snd (exists_ "report:7" no_options blank)) = stats blank.
Proof.
  exact (proj1 (exists_contract "report:7" no_options blank) eq_refl eq_refl).
Defined.

(** X6. After a successful [set], a [delete] of the same key that reaches
    the store before the entry expires returns [true]; after it, [get]
    returns [null] and [exists] returns [false] for that key. *)
Theorem set_delete_get (key : string) (value : json) (options : CacheOptions) (w : World) :
  fst (set key value options w) = Ok true ->
  let w1 := snd (set key value options w) in
  failure (next_reply w1) = None ->
  (took (next_reply w1) < 1000 * or_else (ttl options) defaultTTL)%Z ->
  let w2 := snd (delete key options w1) in
  fst (delete key options w1) = Ok true ∧
  (failure (next_reply w2) = None ->
     fst (get key options w2) = Ok JNull ∧ fst (exists_ key options w2) = Ok false).
Proof.
  intros Hset w1 Hok1 Hsoon w2.
  destruct (set_success key value options w Hset) as (Hw & Hok & Hw1).
  assert (isConnected w1 = true) as Hc1 by (unfold w1; rewrite Hw1; exact Hw).
  assert (lookup_live (now w1 + took (next_reply w1)) (db w1)
            (physical (buildKey key (prefix options))) = Some (serialize value)) as Hlive.
  { revert Hsoon. unfold w1. rewrite Hw1. unfold lookup_live, next_reply. simpl.
    rewrite lookup_insert_eq. unfold live, stored, next_reply. simpl. intros Hsoon.
    rewrite (proj2 (Z.ltb_lt _ _)); [done | lia]. }
  pose proof (delete_run key options w1 Hc1 Hok1) as Hdel. rewrite Hlive in Hdel.
  split; [by rewrite Hdel |].
  intros Hok2.
  assert (isConnected w2 = true) as Hc2 by (unfold w2; rewrite Hdel; exact Hc1).
  assert (lookup_live (now w2 + took (next_reply w2)) (db w2)
            (physical (buildKey key (prefix options))) = None) as Hgone.
  { unfold w2. rewrite Hdel. unfold lookup_live. simpl. by rewrite lookup_delete_eq. }
  split.
  - by rewrite (get_miss key options w2 Hc2 Hok2 Hgone).
  - rewrite (exists_run key options w2 Hc2 Hok2). by rewrite Hgone.
Qed.

Lemma set_delete_get_witness :
  fst (delete "report:7" no_options (snd (set "report:7" (JNum 7) no_options blank)))
  = Ok true.
Proof.
  apply (set_delete_get "report:7" (JNum 7) no_options blank);
    [reflexivity | reflexivity | vm_compute; reflexivity].
Defined.

(** ** Batches *)

Lemma append_inj_l (p a b : string) : p ++ a = p ++ b -> a = b.
Proof.
  induction p as [| c p IH]; [done |]. rewrite !append_cons. intros [= H]. by apply IH.
Qed.

Lemma buildKey_inj prefix a b : buildKey a prefix = buildKey b prefix -> a = b.
Proof.
  unfold buildKey. destruct prefix as [p |]; [| done].
  destruct (String.eqb p EmptyString); [done |].
  intros H. apply append_inj_l in H. by apply (append_inj_l ":") in H.
Qed.

Lemma physical_inj a b : physical a = physical b -> a = b.
Proof. apply append_inj_l. Qed.

Lemma upcoming_S n w :
  upcoming (S n) (script w) = next_reply w :: upcoming n (tail (script w)).
Proof. unfold next_reply. by destruct (script w). Qed.

Lemma redis_setex_accepted k seconds v w :
  failure (next_reply w) = None ->
  redis_setex k seconds v w
  = (Ok tt,
     with_db (fun _ => <[physical k := stored (now w + took (next_reply w)) seconds v]> (db w))
       (snd (on_wire (SETEX k seconds v) w))).
Proof. intros Hok. unfold redis_setex, round_trip. simpl. by rewrite Hok. Qed.

(** A pipeline whose commands are all accepted: every command is sent, in
    order, and every key holds what the last command on it wrote. *)
Lemma pipeline_exec_accepted batch : ∀ w,
  Forall (fun r => failure r = None ∧ (0 <= took r)%Z)
    (upcoming (length batch) (script w)) ->
  ∃ w', pipeline_exec batch w = (Ok (map (fun _ => None) batch), w') ∧
        stats w' = stats w ∧ isConnected w' = isConnected w ∧ sink w' = sink w ∧
        wire w' = (wire w ++ map (fun c => SETEX (fst (fst c)) (snd (fst c)) (snd c)) batch)%list ∧
        script w' = drop (length batch) (script w) ∧
        (now w <= now w')%Z ∧
        (∀ k, k ∉ map (fun c => physical (fst (fst c))) batch -> db w' !! k = db w !! k) ∧
        (NoDup (map (fun c => physical (fst (fst c))) batch) ->
         ∀ k seconds v, (k, seconds, v) ∈ batch ->
           ∃ t, (now w <= t)%Z ∧ db w' !! physical k = Some (stored t seconds v)).
Proof.
  induction batch as [| [[k seconds] v] batch IH]; intros w Hreplies.
  - exists w. rewrite app_nil_r. repeat split; try done; try lia.
    intros _ k seconds v Hin. by apply elem_of_nil in Hin.
  - cbn [length] in Hreplies. rewrite upcoming_S in Hreplies.
    apply Forall_cons in Hreplies as [[Hok Htook] Hreplies].
    set (w1 := with_db (fun _ => <[physical k := stored (now w + took (next_reply w))
                                                    seconds v]> (db w))
                 (snd (on_wire (SETEX k seconds v) w))).
    destruct (IH w1 Hreplies)
      as (w' & Hrun & Hstats & Hconnected & Hsink & Hwire & Hscript & Hnow & Hother & Hin).
    exists w'. split; [| repeat split].
    + cbn [pipeline_exec]. unfold try_catch, mbind, M_bind, bind, mret, M_ret, ret.
      rewrite redis_setex_accepted by done. fold w1. by rewrite Hrun.
    + by rewrite Hstats.
    + by rewrite Hconnected.
    + by rewrite Hsink.
    + rewrite Hwire. cbn [map fst snd]. unfold w1. simpl. by rewrite <- app_assoc.
    + rewrite Hscript. unfold w1. simpl.
      destruct (script w); cbn [tail]; [by rewrite !drop_nil | done].
    + unfold w1 in Hnow. simpl in Hnow. lia.
    + intros k' Hk'. cbn [map fst] in Hk'. apply not_elem_of_cons in Hk' as [Hne Hk'].
      rewrite (Hother k' Hk'). unfold w1. simpl. by rewrite lookup_insert_ne.
    + intros Hnd k' seconds' v' Hmember. cbn [map fst] in Hnd.
      apply NoDup_cons in Hnd as [Hfresh Hnd].
      apply elem_of_cons in Hmember as [[= -> -> ->] | Hmember].
      * exists (now w + took (next_reply w))%Z. split; [lia |].
        rewrite (Hother _ Hfresh). unfold w1. simpl. by rewrite lookup_insert_eq.
      * destruct (Hin Hnd k' seconds' v' Hmember) as (t & Ht & Hlookup).
        exists t. split; [| done]. unfold w1 in Ht. simpl in Ht. lia.
Qed.

(** X7. A batch written by [setMultiple] under keys that differ from one
    another, each of its commands having its own reply and every reply
    being an acceptance, is read back by [getMultiple] on the same keys,
    slot by slot and in order: the read reaches the store before any entry
    is as old as its lifetime (its own [ttl], or the one of the options, or
    300 seconds) and every value is one that [get] gives back as it was
    [set], numbers with a fraction included.  The write sends one [SETEX]
    per entry, in the order of the batch, and nothing else; [sets] grows by
    the size of the batch on the write and [hits] by the same number on the
    read. *)
Theorem setMultiple_getMultiple (entries : list BatchEntry) (options : CacheOptions)
    (w : World) :
  isConnected w = true ->
  Forall (fun r => failure r = None ∧ (0 <= took r)%Z)
    (upcoming (length entries) (script w)) ->
  let w1 := snd (setMultiple entries options w) in
  failure (next_reply w1) = None ->
  NoDup (map entry_key entries) ->
  Forall (fun entry =>
            round_trippable (entry_value entry) ∧
            (now w1 + took (next_reply w1)
             < now w + 1000 * entry_seconds options entry)%Z) entries ->
  fst (setMultiple entries options w) = Ok true ∧
  sets (stats w1) = sets (stats w) + length entries ∧
  sent_since w w1 = map (entry_command options) entries ∧
  fst (getMultiple (map entry_key entries) options w1) = Ok (map entry_value entries) ∧
  hits (stats (snd (getMultiple (map entry_key entries) options w1)))
  = hits (stats w) + length entries.
Proof.
  intros Hw Hreplies w1 Hok1 Hnd Hall.
  set (batch := map (fun entry =>
                       (buildKey (entry_key entry) (prefix options),
                        or_else (entry_ttl entry) (or_else (ttl options) defaultTTL),
                        serialize (entry_value entry))) entries).
  assert (length batch = length entries) as Hlen by apply length_map.
  destruct (pipeline_exec_accepted batch w)
    as (w' & Hrun & Hstats & Hconnected & Hsink & Hwire & Hscript & Hnow & Hother & Hin);
    [by rewrite Hlen |].
  assert (setMultiple entries options w
          = (Ok true,
             with_sink (Metric "cache_sets_total" (Z.of_nat (length entries)))
               (with_stats (add_sets (length entries)) w'))) as Hset.
  { unfold setMultiple, setMultiple_operation, recordMetric. fold batch.
    unfold executeWithFallback, try_catch, mbind, M_bind, bind, mret, M_ret, ret, reads,
      modify. cbn [fst snd]. by rewrite Hw, Hrun. }
  unfold w1 in *. clear w1. rewrite Hset in *. cbn [fst snd] in *.
  set (w1 := with_sink _ _) in *.
  split; [done |].
  split; [unfold w1; simpl; by rewrite Hstats |].
  split.
  { unfold sent_since, w1. simpl. rewrite Hwire, drop_app_length.
    unfold batch. rewrite map_map. reflexivity. }
  set (t2 := (now w1 + took (next_reply w1))%Z).
  assert (map (fun k => lookup_live t2 (db w1) (physical k))
            (map (fun key => buildKey key (prefix options)) (map entry_key entries))
          = map (fun entry => Some (serialize (entry_value entry))) entries) as Hmget.
  { rewrite !map_map. apply map_ext_in. intros entry Hmember.
    apply list_elem_of_In in Hmember.
    unfold lookup_live. unfold w1 at 1. cbn [db with_sink with_stats].
    destruct (Hin) with (k := buildKey (entry_key entry) (prefix options))
                        (seconds := entry_seconds options entry)
                        (v := serialize (entry_value entry))
      as (t & Ht & Hlookup).
    - unfold batch. rewrite map_map. cbn [fst].
      rewrite <- (map_map entry_key (fun k => physical (buildKey k (prefix options)))).
      apply (NoDup_fmap_2_strong (fun k => physical (buildKey k (prefix options))));
        [| done].
      intros a b _ _ Hab. apply physical_inj in Hab. by apply buildKey_inj in Hab.
    - apply (list_elem_of_fmap_2
               (fun entry => (buildKey (entry_key entry) (prefix options),
                              entry_seconds options entry,
                              serialize (entry_value entry))) entries entry Hmember).
    - rewrite Hlookup. rewrite Forall_forall in Hall.
      destruct (Hall entry Hmember) as [_ Hsoon].
      unfold live, stored. cbn [expires_at payload]. fold t2 in Hsoon.
      rewrite (proj2 (Z.ltb_lt _ _)); [done | lia]. }
  assert (isConnected w1 = true) as Hw1 by (unfold w1; simpl; by rewrite Hconnected).
  assert (hits (stats w1) = hits (stats w)) as Hhits
    by (unfold w1; simpl; by rewrite Hstats).
  assert (map revive (map (fun entry => Some (serialize (entry_value entry))) entries)
          = map entry_value entries) as Hvalues.
  { rewrite map_map. apply map_ext_in. intros entry Hmember.
    apply list_elem_of_In in Hmember.
    rewrite Forall_forall in Hall. destruct (Hall entry Hmember) as [Hrt _].
    simpl. by apply deserialize_serialize. }
  assert (found (map (fun entry => Some (serialize (entry_value entry))) entries)
          = length entries) as Hfound.
  { unfold found. clear. induction entries as [| e entries IH]; [done |].
    cbn [map]. rewrite filter_cons_True by (by eexists). simpl. by rewrite IH. }
  clearbody w1. clear Hset Hall.
  unfold getMultiple, getMultiple_operation, redis_mget, round_trip. run_M.
  rewrite Hw1, Hok1. cbn [fst snd]. fold t2.
  rewrite Hmget, collect_spec, Hvalues, Hfound. simpl. split; [done | lia].
Qed.

Lemma setMultiple_getMultiple_witness :
  let batch := [ {| entry_key := "a"; entry_value := JDec "0.25"; entry_ttl := None |};
                 {| entry_key := "b"; entry_value := JObj [("n", JNull)];
                    entry_ttl := Some 60%Z |} ] in
  fst (getMultiple ["a"; "b"] no_options (snd (setMultiple batch no_options blank)))
  = Ok [JDec "0.25"; JObj [("n", JNull)]].
Proof.
  intros batch.
  apply (setMultiple_getMultiple batch no_options blank eq_refl).
  - apply Forall_cons. split; [split; [reflexivity | vm_compute; discriminate] |].
    apply Forall_cons. split; [split; [reflexivity | vm_compute; discriminate] |].
    by apply Forall_nil.
  - reflexivity.
  - apply NoDup_cons. split; [| apply NoDup_singleton].
    intros Hin. apply list_elem_of_singleton in Hin. discriminate Hin.
  - apply Forall_cons. split; [| apply Forall_cons; split; [| apply Forall_nil; done]].
    + split; [| vm_compute; reflexivity]. left. split; [| discriminate].
      by exists {| lit_negative := false; lit_whole := D0 Nil;
                   lit_fraction := Some (D2 (D5 Nil)); lit_exponent := None |}.
    + split; [left; split; [by cbn | discriminate] | vm_compute; reflexivity].
Defined.

(** A command of the pipeline that the store refuses is not an error of the
    batch: [setMultiple] answers [true] and counts both entries as set,
    and the refused entry is not in the store. *)
Example setMultiple_refused :
  let batch := [ {| entry_key := "a"; entry_value := JNum 1; entry_ttl := None |};
                 {| entry_key := "b"; entry_value := JNum 2; entry_ttl := None |} ] in
  let w := scripted [ {| took := 1; failure := Some "READONLY" |} ] in
  let w1 := snd (setMultiple batch no_options w) in
  fst (setMultiple batch no_options w) = Ok true ∧
  sets (stats w1) = 2 ∧ errors (stats w1) = 0 ∧
  db w1 !! "bug-bounty:a" = None ∧
  payload <$> db w1 !! "bug-bounty:b" = Some "2" ∧
  fst (setMultiple [] no_options w) = Ok true ∧
  sent_since w (snd (setMultiple [] no_options w)) = [].
Proof. vm_compute. repeat split. Qed.

(** ** The [cached] decorator *)

(** X8. The method that a [cached] decorator installs.  On a miss the
    decorated method runs, and its result [r] is returned and written under
    the key.  A second call that reaches the store before the entry expires
    returns [r] from the cache and does not run the method: whatever the
    method is, the outcome is the one of [get].  [r] is a value that is
    neither [null] nor a string, its numbers being whole numbers. *)
Theorem cached_miss_then_hit (key : string) (options : CacheOptions) (method : M json)
    (w w2 : World) (r : json) :
  isConnected w = true -> failure (next_reply w) = None ->
  lookup_live (now w + took (next_reply w)) (db w)
    (physical (buildKey key (prefix options))) = None ->
  method (snd (get key options w)) = (Ok r, w2) ->
  isConnected w2 = true -> failure (next_reply w2) = None ->
  integral r = true -> (∀ s, r ≠ JStr s) -> r ≠ JNull ->
  let w3 := snd (cached key options method w) in
  fst (cached key options method w) = Ok r ∧
  w3 = snd (set key r options w2) ∧
  (failure (next_reply w3) = None ->
   (took (next_reply w3) < 1000 * or_else (ttl options) defaultTTL)%Z ->
   ∀ method', cached key options method' w3 = (Ok r, snd (get key options w3))).
Proof.
  intros Hw Hok Hmiss Hm Hw2 Hok2 Hint Hstr Hnull.
  assert (cached key options method w = (Ok r, snd (set key r options w2))) as Hfirst.
  { unfold cached. unfold mbind, M_bind, bind at 1.
    rewrite (get_miss key options w Hw Hok Hmiss) in *. cbn [snd] in Hm.
    cbv beta iota. unfold bind at 1. rewrite Hm. cbv beta iota.
    unfold bind, mret, M_ret, ret.
    rewrite (set_run key r options w2 Hw2 Hok2). reflexivity. }
  rewrite Hfirst. simpl. split; [done |]. split; [done |].
  intros Hok3 Hsoon method'.
  rewrite (set_run key r options w2 Hw2 Hok2) in *. cbn [snd] in *.
  set (w3 := with_sink _ _) in *.
  assert (isConnected w3 = true) as Hw3 by exact Hw2.
  assert (lookup_live (now w3 + took (next_reply w3)) (db w3)
            (physical (buildKey key (prefix options))) = Some (serialize r)) as Hlive.
  { unfold w3, lookup_live. simpl. rewrite lookup_insert_eq. unfold live, stored. simpl.
    unfold w3, next_reply in Hsoon. simpl in Hsoon. unfold next_reply. simpl.
    rewrite (proj2 (Z.ltb_lt _ _)); [done | lia]. }
  unfold cached. unfold mbind, M_bind, bind. cbn [snd].
  rewrite (get_hit key options w3 (serialize r) Hw3 Hok3 Hlive).
  rewrite deserialize_serialize
    by (left; split; [by apply integral_serializable | done]).
  by destruct r.
Qed.

Lemma cached_miss_then_hit_witness :
  fst (cached "stats" no_options (ret (JArr [JNum 1; JNum 2])) blank)
  = Ok (JArr [JNum 1; JNum 2]) ∧
  ∀ method',
    fst (cached "stats" no_options method'
           (snd (cached "stats" no_options (ret (JArr [JNum 1; JNum 2])) blank)))
    = Ok (JArr [JNum 1; JNum 2]).
Proof.
  destruct (cached_miss_then_hit "stats" no_options (ret (JArr [JNum 1; JNum 2]))
              blank _ (JArr [JNum 1; JNum 2]) eq_refl eq_refl eq_refl eq_refl eq_refl eq_refl
              eq_refl)
    as (Hfirst & _ & Hsecond); [discriminate | discriminate |].
  split; [exact Hfirst |].
  intros method'. rewrite Hsecond; [reflexivity | reflexivity | vm_compute; reflexivity].
Defined.

(** X9. With the connection flag down, the method that a [cached]
    decorator installs does what the decorated method does, once a miss has
    been counted: same result or same exception, same effects, and nothing
    is sent to the store (the decorated method leaving the flag down). *)
Theorem cached_store_down (key : string) (options : CacheOptions) (method : M json)
    (w : World) :
  isConnected w = false ->
  isConnected (snd (method (with_stats inc_misses w))) = false ->
  cached key options method w = method (with_stats inc_misses w).
Proof.
  intros Hw Hafter. unfold cached.
  unfold mbind, M_bind, bind at 1.
  unfold get. rewrite (executeWithFallback_offline _ _ w Hw).
  unfold get_fallback. run_M.
  destruct (method (with_stats inc_misses w)) as [[r | e] w2] eqn:Hm; [| done].
  simpl in Hafter. unfold set. rewrite (executeWithFallback_offline _ _ w2 Hafter).
  reflexivity.
Qed.

Lemma cached_store_down_witness :
  cached "stats" no_options (log Info "computing" ;; ret (JNum 42)) offline
  = (Ok (JNum 42), with_sink (Logged Info "computing") (with_stats inc_misses offline)).
Proof.
  rewrite (cached_store_down "stats" no_options _ offline); reflexivity.
Defined.

(** ** Invalidation by pattern *)

(** X10. With the connection flag up and the store answering,
    [invalidatePattern] returns the number of live keys that [KEYS] gives
    for the pattern: when there is none it returns 0, having sent [KEYS]
    only and changed nothing in the store; otherwise it sends one [DEL]
    with all of them.  In no world does it send a [DEL] without keys. *)
Theorem invalidatePattern_contract (pattern : string) (w : World) :
  let ks := matching_keys (now w + took (next_reply w)) pattern (db w) in
  let w' := snd (invalidatePattern pattern w) in
  (isConnected w = true -> failure (next_reply w) = None -> ks = [] ->
     fst (invalidatePattern pattern w) = Ok 0%Z ∧
     wire w' = (wire w ++ [KEYS pattern])%list ∧ db w' = db w) ∧
  (isConnected w = true -> failure (next_reply w) = None -> ks ≠ [] ->
     failure (next_reply (snd (on_wire (KEYS pattern) w))) = None ->
     fst (invalidatePattern pattern w) = Ok (Z.of_nat (length ks)) ∧
     wire w' = (wire w ++ [KEYS pattern; DEL ks])%list) ∧
  (∀ keys, DEL keys ∈ wire w' -> DEL keys ∈ wire w ∨ keys ≠ []).
Proof.
  simpl.
  unfold invalidatePattern, invalidatePattern_operation, redis_keys, redis_del, round_trip,
    remove_keys, on_wire, next_reply.
  run_M.
  destruct w as [st c m replies sent t events]; simpl.
  split; [| split].
  - intros -> Hok Hks. simpl. rewrite Hok. simpl. rewrite Hks. simpl. done.
  - intros -> Hok Hks Hok2. simpl. rewrite Hok. simpl.
    destruct (matching_keys _ _ _) as [| k ks] eqn:Hm; [done |]. simpl.
    rewrite Hok2. simpl.
    destruct (fold_left _ _ _) as [n m']. simpl.
    split; [done |]. by rewrite <- app_assoc.
  - intros keys. destruct c; simpl; [| by left].
    destruct (failure match replies with [] => instant | r :: _ => r end); simpl.
    { intros Hin. apply elem_of_app in Hin as [Hin | Hin]; [by left |].
      apply list_elem_of_singleton in Hin. discriminate. }
    destruct (matching_keys _ _ _) as [| k ks] eqn:Hm; simpl.
    { intros Hin. apply elem_of_app in Hin as [Hin | Hin]; [by left |].
      apply list_elem_of_singleton in Hin. discriminate. }
    destruct (failure match tail replies with [] => instant | r :: _ => r end); simpl.
    + intros Hin. apply elem_of_app in Hin as [Hin | Hin].
      * apply elem_of_app in Hin as [Hin | Hin]; [by left |].
        apply list_elem_of_singleton in Hin. discriminate.
      * apply list_elem_of_singleton in Hin. injection Hin as ->. by right.
    + destruct (fold_left _ _ _) as [n m']. simpl.
      intros Hin. apply elem_of_app in Hin as [Hin | Hin].
      * apply elem_of_app in Hin as [Hin | Hin]; [by left |].
        apply list_elem_of_singleton in Hin. discriminate.
      * apply list_elem_of_singleton in Hin. injection Hin as ->. by right.
Qed.

Lemma invalidatePattern_contract_witness :
  fst (invalidatePattern "response:reports:*" blank) = Ok 0%Z ∧
  fst (invalidatePattern "*:reports:*" seeded) = Ok 1%Z ∧
  wire (snd (invalidatePattern "*:reports:*" seeded))
  = [KEYS "*:reports:*"; DEL ["bug-bounty:response:reports:stats"]].
Proof.
  split; [| split].
  - apply (proj1 (invalidatePattern_contract "response:reports:*" blank)); reflexivity.
  - apply (proj1 (proj2 (invalidatePattern_contract "*:reports:*" seeded)));
      [reflexivity | reflexivity | vm_compute; discriminate | reflexivity].
  - apply (proj1 (proj2 (invalidatePattern_contract "*:reports:*" seeded)));
      [reflexivity | reflexivity | vm_compute; discriminate | reflexivity].
Defined.

(** ** Disconnecting *)

(** X11. [disconnect] does nothing at all while the connection flag is
    down.  With the flag up it sends one [DISCONNECT] and puts the flag
    down, after which [get], [set], [delete], [exists] and
    [invalidatePattern] return their safe defaults and send nothing more.
    It is the one method without a fallback: when the client throws, the
    exception escapes and the flag stays up. *)
Theorem disconnect_contract (w : World) :
  (isConnected w = false -> disconnect w = (Ok tt, w)) ∧
  (isConnected w = true -> failure (next_reply w) = None ->
     fst (disconnect w) = Ok tt ∧
     isConnected (snd (disconnect w)) = false ∧
     wire (snd (disconnect w)) = (wire w ++ [DISCONNECT])%list ∧
     ∀ op d, safe_default op = Some d ->
       fst (run op (snd (disconnect w))) = Ok d ∧
       wire (snd (run op (snd (disconnect w)))) = (wire w ++ [DISCONNECT])%list) ∧
  (isConnected w = true -> ∀ message, failure (next_reply w) = Some message ->
     fst (disconnect w) = Throw message ∧ isConnected (snd (disconnect w)) = true).
Proof.
  unfold disconnect, redis_disconnect, round_trip. run_M.
  split; [| split].
  - intros ->. done.
  - intros -> ->. simpl. split; [done |]. split; [done |]. split; [done |].
    intros op d Hd.
    destruct op; try discriminate Hd; injection Hd as <-;
      unfold run, get, set, delete, exists_, invalidatePattern, get_fallback; run_M; done.
  - intros Hw message Hf. rewrite Hw. simpl. rewrite Hf. simpl. done.
Qed.

Lemma disconnect_contract_witness :
  fst (disconnect blank) = Ok tt ∧
  isConnected (snd (disconnect blank)) = false ∧
  fst (run (Get "report:7" no_options) (snd (disconnect blank))) = Ok (VJson JNull) ∧
  fst (disconnect (scripted [refused])) = Throw "ECONNRESET".
Proof.
  destruct (disconnect_contract blank) as (_ & Hok & _).
  destruct (Hok eq_refl eq_refl) as (H1 & H2 & _ & H3).
  split; [exact H1 |]. split; [exact H2 |].
  split; [exact (proj1 (H3 (Get "report:7" no_options) (VJson JNull) eq_refl)) |].
  exact (proj1 (proj2 (proj2 (disconnect_contract (scripted [refused])))
                  eq_refl "ECONNRESET" eq_refl)).
Defined.

(** ** The health probe *)

(** X12. [healthCheck] does not go through the fail-open wrapper: in
    every world, the connection flag being up or down, it sends exactly one
    [PING], ends with a normal result, and leaves the counters (also
    [errors], when the ping throws), the flag, the content of the store and
    the log as they were. *)
Theorem healthCheck_frame (w : World) :
  let w' := snd (healthCheck w) in
  wire w' = (wire w ++ [PING])%list ∧
  stats w' = stats w ∧ isConnected w' = isConnected w ∧ db w' = db w ∧ sink w' = sink w ∧
  ∃ h, fst (healthCheck w) = Ok h.
Proof.
  simpl. unfold healthCheck, redis_ping, round_trip, Date_now. run_M.
  destruct (failure (next_reply w)); simpl; repeat split; eauto.
Qed.

(** ** The hit rate is a percentage *)

(** X13. The hit rate that [getStats] reports is a percentage: it is
    between 0 and 100, whatever the counters are, the rounding of the
    arithmetic included.  The counters are whole numbers that a double
    holds exactly. *)
Theorem hitRate_bounds (w : World) :
  (Z.of_nat (hits (stats w) + misses (stats w)) <= 2 ^ 53)%Z ->
  (0 <= hitRate (getStats w))%Q ∧ (hitRate (getStats w) <= 100)%Q.
Proof.
  intros _.
  destruct (Nat.eq_dec (hits (stats w) + misses (stats w)) 0) as [Hzero | Hpos].
  - unfold getStats, hitRate. rewrite Hzero. cbn [Nat.ltb Nat.leb].
    split; apply Qle_bool_iff; by vm_compute.
  - rewrite getStats_hitRate by lia.
    destruct (rate_fraction (hits (stats w)) (misses (stats w))) as [Ha0 Ha1]; [lia |].
    set (a := (inject_Z (Z.of_nat (hits (stats w)))
               / inject_Z (Z.of_nat (hits (stats w) + misses (stats w))))%Q) in *.
    destruct (scaled_rate_near a Ha0 Ha1) as [Hy0 Hy]. cbv zeta in Hy0, Hy.
    set (y := Double.round (Double.round (Double.round a * 100) * 100)) in *.
    destruct (Math_round_near y) as [Hlo Hhi].
    set (k := Math_round y) in *.
    apply Qabs_Qle_condition in Hy as [Hy1 Hy2]. unfold tie_margin in *.
    assert (0 <= k)%Z as Hk0.
    { assert (inject_Z (-1) < inject_Z k)%Q as H by (change (inject_Z (-1)) with (-1 # 1); lra).
      rewrite <- Zlt_Qlt in H. lia. }
    assert (k <= 10000)%Z as Hk1.
    { assert (inject_Z k < inject_Z 10001)%Q as H
        by (change (inject_Z 10001) with (10001 # 1); lra).
      rewrite <- Zlt_Qlt in H. lia. }
    assert (0 <= inject_Z k / 100)%Q as Hx0.
    { apply Qle_shift_div_l; [done |]. rewrite Qmult_0_l.
      change 0%Q with (inject_Z 0). by rewrite <- Zle_Qle. }
    destruct (round_bounds _ Hx0) as [Hr0 Hr1]. unfold unit_roundoff in *.
    split; [lra |].
    destruct (Z.eq_dec k 10000%Z) as [Hk | Hne].
    + rewrite Hk. apply Qle_bool_iff. by vm_compute.
    + assert (inject_Z k / 100 <= 9999 # 100)%Q as Hx1.
      { assert (inject_Z k <= inject_Z 9999)%Q as H by (rewrite <- Zle_Qle; lia).
        change (inject_Z 9999) with (9999 # 1) in H.
        apply Qle_shift_div_r; [done | lra]. }
      lra.
Qed.

Lemma hitRate_bounds_witness :
  (0 <= hitRate (getStats (observed 23 137)))%Q ∧
  (hitRate (getStats (observed 23 137)) <= 100)%Q.
Proof. apply (hitRate_bounds (observed 23 137)). by vm_compute. Defined.

(** ** Calls that were started and not awaited *)

Lemma settle_offline calls : ∀ w,
  isConnected w = false ->
  ∃ w', settle calls w = (Ok tt, w') ∧ same_store w w' ∧ stats w' = stats w ∧
        isConnected w' = false.
Proof.
  induction calls as [| c calls IH]; intros w Hw.
  - simpl. unfold ret. exists w. by repeat split.
  - simpl. unfold mbind, M_bind, bind.
    assert (∃ w1, run_call c w = (Ok tt, w1) ∧ same_store w w1 ∧ stats w1 = stats w ∧
                  isConnected w1 = false) as (w1 & Hc & Hs1 & Hst1 & Hw1).
    { destruct c as [key value options | pattern]; simpl;
        unfold try_catch, mbind, M_bind, bind.
      - unfold set. rewrite (executeWithFallback_offline _ _ w Hw). run_M.
        exists w. by repeat split.
      - unfold invalidatePattern. rewrite (executeWithFallback_offline _ _ w Hw). run_M.
        eexists. split; [reflexivity |]. by repeat split. }
    rewrite Hc. destruct (IH w1 Hw1) as (w' & Hrest & Hs2 & Hst2 & Hw').
    exists w'. split; [done |]. unfold same_store in *.
    destruct Hs1 as (? & ? & ? & ?), Hs2 as (? & ? & ? & ?). repeat split; congruence.
Qed.

(** X14. The writes and invalidations that the overrides of [res.json]
    start and do not await never end in a rejection, whatever the store
    does; while the connection flag is down they send nothing to the store
    and leave its content and the counters as they were. *)
Theorem settle_never_throws (calls : list Call) (w : World) :
  ∃ w', settle calls w = (Ok tt, w') ∧
        (isConnected w = false -> same_store w w' ∧ stats w' = stats w).
Proof.
  revert w. induction calls as [| c calls IH]; intros w.
  - simpl. unfold ret. exists w. split; [done |]. intros _. by repeat split.
  - simpl. unfold mbind, M_bind, bind.
    assert (∃ w1, run_call c w = (Ok tt, w1) ∧
                  (isConnected w = false ->
                   same_store w w1 ∧ stats w1 = stats w ∧ isConnected w1 = false))
      as (w1 & Hc & Hoff).
    { destruct c as [key value options | pattern]; simpl; unfold try_catch.
      - destruct (set_total key value options w) as (b & w1' & Hset).
        run_M. rewrite Hset. exists w1'. split; [done |]. intros Hw.
        unfold set in Hset. rewrite (executeWithFallback_offline _ _ w Hw) in Hset.
        injection Hset as _ <-. by repeat split.
      - destruct (invalidatePattern_total pattern w) as (n & w1' & Hinv).
        run_M. rewrite Hinv. eexists. split; [reflexivity |]. intros Hw.
        unfold invalidatePattern in Hinv.
        rewrite (executeWithFallback_offline _ _ w Hw) in Hinv.
        injection Hinv as _ <-. by repeat split. }
    rewrite Hc. destruct (IH w1) as (w' & Hrest & Hoff').
    exists w'. split; [done |]. intros Hw.
    destruct (Hoff Hw) as (Hs1 & Hst1 & Hw1). destruct (Hoff' Hw1) as (Hs2 & Hst2).
    unfold same_store in *. split; [| congruence].
    destruct Hs1 as (? & ? & ? & ?), Hs2 as (? & ? & ? & ?). repeat split; congruence.
Qed.

Lemma settle_never_throws_witness :
  ∃ w', settle [CallInvalidate "response:reports:*"] offline = (Ok tt, w') ∧
        same_store offline w' ∧ stats w' = stats offline.
Proof.
  destruct (settle_never_throws [CallInvalidate "response:reports:*"] offline)
    as (w' & Hrun & Hoff).
  exists w'. split; [exact Hrun |]. exact (Hoff eq_refl).
Defined.

(** ** What is kept of the headers *)

Lemma assign_elem {A} (k : string) (v : A) l kv :
  kv ∈ assign k v l -> kv = (k, v) ∨ kv ∈ l.
Proof.
  induction l as [| [k' v'] l IH]; simpl.
  - intros H. apply list_elem_of_singleton in H. by left.
  - destruct (String.eqb k k').
    + intros H. apply elem_of_cons in H as [-> | H]; [by left |].
      right. by apply list_elem_of_further.
    + intros H. apply elem_of_cons in H as [-> | H]; [right; apply list_elem_of_here |].
      destruct (IH H) as [-> | Hin]; [by left |]. right. by apply list_elem_of_further.
Qed.

Lemma assign_here {A} (k : string) (v : A) l : (k, v) ∈ assign k v l.
Proof.
  induction l as [| [k' v'] l IH]; simpl; [apply list_elem_of_here |].
  destruct (String.eqb k k'); [apply list_elem_of_here | by apply list_elem_of_further].
Qed.

Lemma assign_other {A} (k : string) (v : A) l kv :
  kv ∈ l -> fst kv ≠ k -> kv ∈ assign k v l.
Proof.
  induction l as [| [k' v'] l IH]; simpl; intros Hin Hne.
  - by apply elem_of_nil in Hin.
  - apply elem_of_cons in Hin as [-> | Hin].
    + simpl in Hne. destruct (String.eqb k k') eqn:Hk.
      * apply String.eqb_eq in Hk. by destruct Hne.
      * apply list_elem_of_here.
    + destruct (String.eqb k k') eqn:Hk.
      * by apply list_elem_of_further.
      * apply list_elem_of_further. by apply IH.
Qed.

Lemma assign_keys {A} (k : string) (v : A) l :
  NoDup (map fst l) -> NoDup (map fst (assign k v l)) ∧
  ∀ k', k' ∈ map fst (assign k v l) -> k' = k ∨ k' ∈ map fst l.
Proof.
  induction l as [| [k0 v0] l IH]; simpl; intros Hnd.
  - split; [apply NoDup_singleton |]. intros k' H.
    apply list_elem_of_singleton in H. by left.
  - apply NoDup_cons in Hnd as [Hk0 Hnd]. destruct (IH Hnd) as [IH1 IH2].
    destruct (String.eqb k k0) eqn:Hk.
    + apply String.eqb_eq in Hk as ->. simpl. split; [by apply NoDup_cons |].
      intros k' H. by right.
    + apply String.eqb_neq in Hk. simpl. split.
      * apply NoDup_cons. split; [| done]. intros Hin.
        destruct (IH2 k0 Hin) as [-> | Hin']; [by destruct Hk | by destruct Hk0].
      * intros k' H. apply elem_of_cons in H as [-> | H].
        -- right. apply list_elem_of_here.
        -- destruct (IH2 k' H) as [-> | H']; [by left |].
           right. by apply list_elem_of_further.
Qed.

Lemma truthy_header_Some value s :
  truthy_header value = Some s <-> value = Some s ∧ s ≠ EmptyString.
Proof.
  unfold truthy_header. destruct value as [v |]; [| by split; [| intros []]].
  destruct (String.eqb v EmptyString) eqn:Hv.
  - apply String.eqb_eq in Hv as ->. split; [done |]. by intros [[= <-] H].
  - apply String.eqb_neq in Hv. split.
    + by intros [= <-].
    + by intros [[= <-] _].
Qed.

Lemma keep_header_spec st acc name :
  NoDup (map fst acc) -> (∀ kv, kv ∈ acc -> header_of st kv) ->
  let r := keep_header st acc name in
  NoDup (map fst r) ∧
  (∀ kv, kv ∈ r -> header_of st kv ∧ (kv ∈ acc ∨ fst kv = name)) ∧
  (∀ kv, kv ∈ acc -> kv ∈ r) ∧
  (∀ s, getHeader st name = Some s -> s ≠ EmptyString -> (name, JStr s) ∈ r).
Proof.
  intros Hnd Hacc. unfold keep_header. simpl.
  destruct (truthy_header (getHeader st name)) as [value |] eqn:Ht.
  - apply truthy_header_Some in Ht as [Hget Hne].
    split; [by apply assign_keys |]. split; [| split].
    + intros kv Hin. apply assign_elem in Hin as [-> | Hin].
      * split; [| by right]. by exists value.
      * split; [by apply Hacc | by left].
    + intros kv Hin. destruct (decide (fst kv = name)) as [Hk | Hk].
      * destruct (Hacc kv Hin) as (s & Hv & _ & Hs). rewrite Hk, Hget in Hs.
        injection Hs as <-. destruct kv as [k v]. simpl in *. subst. apply assign_here.
      * by apply assign_other.
    + intros s Hs _. rewrite Hget in Hs. injection Hs as <-. apply assign_here.
  - split; [done |]. split; [| split].
    + intros kv Hin. split; [by apply Hacc | by left].
    + done.
    + intros s Hs Hne.
      assert (truthy_header (getHeader st name) = Some s) as H
        by (by apply truthy_header_Some).
      congruence.
Qed.

Lemma keep_headers_spec st vary : ∀ acc,
  NoDup (map fst acc) -> (∀ kv, kv ∈ acc -> header_of st kv) ->
  let r := fold_left (keep_header st) vary acc in
  NoDup (map fst r) ∧
  (∀ kv, kv ∈ r -> header_of st kv ∧ (kv ∈ acc ∨ fst kv ∈ vary)) ∧
  (∀ kv, kv ∈ acc -> kv ∈ r) ∧
  (∀ name s, name ∈ vary -> getHeader st name = Some s -> s ≠ EmptyString ->
     (name, JStr s) ∈ r).
Proof.
  induction vary as [| name vary IH]; intros acc Hnd Hacc; simpl.
  - split; [done |]. split; [| split]; [by eauto | done |].
    intros name s H. by apply elem_of_nil in H.
  - destruct (keep_header_spec st acc name Hnd Hacc) as (Hnd1 & Hs1 & Hk1 & Hc1).
    destruct (IH (keep_header st acc name) Hnd1 (fun kv H => proj1 (Hs1 kv H)))
      as (Hnd2 & Hs2 & Hk2 & Hc2).
    split; [done |]. split; [| split].
    + intros kv Hin. destruct (Hs2 kv Hin) as [Hh [Hin1 | Hv]].
      * split; [done |]. destruct (Hs1 kv Hin1) as [_ [Ha | Hn]]; [by left |].
        right. rewrite Hn. apply list_elem_of_here.
      * split; [done |]. right. by apply list_elem_of_further.
    + intros kv Hin. by apply Hk2, Hk1.
    + intros name' s Hin Hget Hne. apply elem_of_cons in Hin as [-> | Hin].
      * by apply Hk2, Hc1.
      * by apply Hc2.
Qed.

(** X15. The headers stored with a cached response are exactly the
    headers named in [vary] and [Content-Type], each with the value the
    response has for it at that moment, as far as the response has a value
    for it that is not empty; no other header of the response is stored,
    and no name occurs twice. *)
Theorem extractCacheableHeaders_exact (st : ResponseState) (vary : list string) :
  NoDup (map fst (extractCacheableHeaders st vary)) ∧
  ∀ name v,
    (name, v) ∈ extractCacheableHeaders st vary <->
    (name ∈ vary ∨ name = "Content-Type") ∧
    ∃ s, v = JStr s ∧ s ≠ EmptyString ∧ getHeader st name = Some s.
Proof.
  unfold extractCacheableHeaders.
  change (fold_left _ vary []) with (fold_left (keep_header st) vary []).
  change (match truthy_header (getHeader st "Content-Type") with
          | Some contentType =>
              assign "Content-Type" (JStr contentType) (fold_left (keep_header st) vary [])
          | None => fold_left (keep_header st) vary []
          end)
    with (keep_header st (fold_left (keep_header st) vary []) "Content-Type").
  destruct (keep_headers_spec st vary []) as (Hnd1 & Hs1 & _ & Hc1).
  { apply NoDup_nil. done. }
  { intros kv H. by apply elem_of_nil in H. }
  destruct (keep_header_spec st _ "Content-Type" Hnd1 (fun kv H => proj1 (Hs1 kv H)))
    as (Hnd2 & Hs2 & Hk2 & Hc2).
  split; [done |]. intros name v. split.
  - intros Hin. destruct (Hs2 _ Hin) as [Hh [Hin1 | Hct]].
    + destruct (Hs1 _ Hin1) as [_ [Hnil | Hv]]; [by apply elem_of_nil in Hnil |].
      split; [by left | exact Hh].
    + split; [by right | exact Hh].
  - intros [[Hv | ->] (s & -> & Hne & Hget)].
    + by apply Hk2, Hc1.
    + by apply Hc2.
Qed.

(** ** A hit is replayed *)







Lemma originalJson_sent data st : sent (originalJson data st) = Some data.
Proof. reflexivity. Qed.









(** A triple with a status code that the server refuses is not replayed:
    the error is logged and the request goes on to its handler. *)
Example refused_status_not_replayed :
  let triple := JObj [("data", JNull); ("headers", JObj []); ("statusCode", JNum 1000)] in
  let w := with_db (fun _ => {[ "bug-bounty:response:GET:/api/v1/reports:user:anonymous" :=
                                  {| payload := stringify triple;
                                     expires_at := 1700000300000 |} ]}) blank in
  match fst (shortCache (get_reports [] None) fresh_response w) with
  | Ok step =>
      passed step = true ∧ started step = [] ∧
      sent (state (response step)) = None ∧
      getHeader (state (response step)) "X-Cache" = Some "HIT"
  | Throw _ => False
  end ∧
  Logged Error "Cache middleware error"
    ∈ sink (snd (shortCache (get_reports [] None) fresh_response w)).
Proof.
  split; [by vm_compute |]. vm_compute. apply list_elem_of_In. simpl. tauto.
Qed.

(** ** A miss, the write-back, and then a hit *)



(** ** The store is away *)

(** X18. With the connection flag down, a [GET] that is not skipped goes
    on to its handler: the response ends as the handler makes it, starting
    from the response with [X-Cache: MISS].  One miss is counted, [errors]
    is unchanged, and neither the request nor the calls it started, once
    they have run, send anything to the store or change its content. *)
Theorem cacheMiddleware_store_down (options : CacheMiddlewareOptions) (req : Request)
    (res : Response) (handler : list Action) (w : World) :
  method req = "GET" ->
  default (fun _ => false) (opt_skipCache options) req = false ->
  chain res = [] ->
  isConnected w = false ->
  ∃ res' calls w',
    handle [cacheMiddleware options] handler req res w = (Ok (res', calls), w') ∧
    state res' = finish handler (missed res) ∧
    misses (stats w') = S (misses (stats w)) ∧
    errors (stats w') = errors (stats w) ∧
    ∃ w'', settle calls w' = (Ok tt, w'') ∧ same_store w w''.
Proof.
  intros Hm Hskip Hchain Hw.
  set (key := default defaultKeyGenerator (opt_keyGenerator options) req).
  set (seconds := default 300%Z (opt_ttl options)).
  set (condition := default defaultCondition (opt_condition options)).
  set (vary := default [] (opt_vary options)).
  destruct (perform_write_backs req key seconds condition vary handler
              (install (WriteBack req key seconds condition vary)
                 (on_state (setHeader "X-Cache" "MISS") res)) (with_stats inc_misses w))
    as (res1 & w1 & Hrun & Hq & Hst).
  { simpl. by rewrite Hchain. }
  destruct Hq as (Hq_stats & Hq_conn & Hq_db & Hq_script & Hq_wire & Hq_now).
  destruct (settle_offline
              (concat (map (write_back req key seconds condition vary)
                         (emissions handler
                            (state (install (WriteBack req key seconds condition vary)
                                      (on_state (setHeader "X-Cache" "MISS") res))))))
              w1) as (w2 & Hsettle & Hsame & _).
  { rewrite Hq_conn. exact Hw. }
  eexists _, _, _. split; [| split; [exact Hst | split; [| split]]].
  - cbn [handle]. unfold cacheMiddleware. rewrite Hm, Hskip.
    change (negb (String.eqb "GET" "GET") || false) with false. cbv beta iota.
    unfold try_catch, mbind, M_bind. unfold bind at 1 2.
    unfold get. rewrite (executeWithFallback_offline _ _ w Hw).
    unfold get_fallback. run_M.
    fold key seconds condition vary. unfold next, ret, bind in *.
    cbn [passed response started]. rewrite Hrun. reflexivity.
  - by rewrite Hq_stats.
  - by rewrite Hq_stats.
  - exists w2. split; [exact Hsettle |].
    unfold same_store in *. destruct Hsame as (? & ? & ? & ?).
    simpl in *. repeat split; congruence.
Qed.

Lemma cacheMiddleware_store_down_witness :
  ∃ res' calls w',
    handle [mediumCache] [Json (JStr "answer")] (get_reports [] None) fresh_response offline
    = (Ok (res', calls), w') ∧
    state res' = finish [Json (JStr "answer")] (missed fresh_response) ∧
    ∃ w'', settle calls w' = (Ok tt, w'') ∧ same_store offline w''.
Proof.
  destruct (cacheMiddleware_store_down
              {| opt_ttl := Some 300%Z; opt_keyGenerator := None; opt_condition := None;
                 opt_vary := None; opt_skipCache := None |}
              (get_reports [] None) fresh_response [Json (JStr "answer")] offline
              eq_refl eq_refl eq_refl eq_refl)
    as (res' & calls & w' & Hrun & Hst & _ & _ & Hsettle).
  exists res', calls, w'. split; [exact Hrun |]. split; [exact Hst | exact Hsettle].
Defined.

(** ** Tokens *)

Lemma split_on_nonempty sep s : split_on sep s ≠ [].
Proof.
  induction s as [| c r IH]; simpl; [done |].
  destruct (Ascii.eqb c sep); [done |]. by destruct (split_on sep r).
Qed.

Lemma split_on_single sep s : has_char sep s = false -> split_on sep s = [s].
Proof.
  induction s as [| c r IH]; simpl; [done |].
  intros H. apply orb_false_iff in H as [Hc Hr].
  rewrite Ascii.eqb_sym, Hc. by rewrite (IH Hr).
Qed.

Lemma split_on_clean sep a s :
  has_char sep a = false -> split_on sep (a ++ String sep s) = a :: split_on sep s.
Proof.
  induction a as [| c a IH]; intros Ha.
  - rewrite append_nil. simpl. by rewrite Ascii.eqb_refl.
  - simpl in Ha. apply orb_false_iff in Ha as [Hc Ha].
    rewrite append_cons. simpl. rewrite Ascii.eqb_sym, Hc. by rewrite (IH Ha).
Qed.

(** Two parts: the text was the first part, the separator, the second
    part, and no part holds the separator. *)
Lemma split_on_two sep s a b :
  split_on sep s = [a; b] ->
  s = a ++ String sep b ∧ has_char sep a = false ∧ has_char sep b = false.
Proof.
  revert a. induction s as [| c r IH]; intros a; simpl; [done |].
  destruct (Ascii.eqb c sep) eqn:Hc.
  - apply Ascii.eqb_eq in Hc as ->. intros [= <- Hr].
    assert (r = b ∧ has_char sep b = false) as [-> Hb].
    { clear IH. revert b Hr. induction r as [| c r IH]; intros b; simpl.
      - by intros [= <-].
      - destruct (Ascii.eqb c sep) eqn:Hc.
        { intros [= _ Hnil]. by destruct (split_on_nonempty sep r). }
        destruct (split_on sep r) as [| p [| q ps]] eqn:Hs;
          [by destruct (split_on_nonempty sep r) | | done].
        intros [= <-]. destruct (IH p eq_refl) as [-> Hp]. split; [done |].
        simpl. rewrite Ascii.eqb_sym, Hc. done. }
    rewrite append_nil. done.
  - destruct (split_on sep r) as [| p [| q [| q' ps]]] eqn:Hs; try done.
    intros [= <- <-]. destruct (IH p eq_refl) as (-> & Hp & Hq).
    rewrite append_cons. split; [done |]. split; [| done].
    simpl. rewrite Ascii.eqb_sym, Hc. done.
Qed.

Lemma extractTokenFromHeader_Some authHeader token :
  extractTokenFromHeader authHeader = Some token <->
  authHeader = Some ("Bearer " ++ token) ∧ has_char " " token = false.
Proof.
  split.
  - unfold extractTokenFromHeader. destruct authHeader as [header |]; [| done].
    destruct (String.eqb header EmptyString); [done |].
    destruct (split_on " " header) as [| scheme [| tok [| x xs]]] eqn:Hs; try done.
    destruct (String.eqb scheme "Bearer") eqn:Hb; [| done].
    apply String.eqb_eq in Hb as ->. intros [= ->].
    apply split_on_two in Hs as (-> & _ & Ht). done.
  - intros [-> Ht]. unfold extractTokenFromHeader.
    change ("Bearer " ++ token) with ("Bearer" ++ String " " token).
    rewrite (split_on_clean " " "Bearer" token eq_refl), (split_on_single " " token Ht).
    reflexivity.
Qed.

(** X19. [extractTokenFromHeader] returns a token exactly for a header
    that is [Bearer], one space, and a token without a space.  The token may
    be empty: for [Bearer] and a space alone the result is the empty string.
    No header, and a token with a space in it, give [null]. *)
Theorem extractTokenFromHeader_spec (authHeader : option string) (token : string) :
  (extractTokenFromHeader authHeader = Some token <->
   authHeader = Some ("Bearer " ++ token) ∧ has_char " " token = false) ∧
  extractTokenFromHeader None = None ∧
  extractTokenFromHeader (Some "Bearer ") = Some EmptyString ∧
  (has_char " " token = true -> extractTokenFromHeader (Some ("Bearer " ++ token)) = None).
Proof.
  split; [apply extractTokenFromHeader_Some |]. split; [done |]. split; [done |].
  intros Hsp.
  destruct (extractTokenFromHeader (Some ("Bearer " ++ token))) as [t |] eqn:H; [| done].
  apply extractTokenFromHeader_Some in H as [[= Heq] Ht].
  rewrite !append_nil in Heq. subst. congruence.
Qed.

Lemma extractTokenFromHeader_spec_witness :
  extractTokenFromHeader (Some "Bearer abc.def.ghi") = Some "abc.def.ghi" ∧
  extractTokenFromHeader (Some "Bearer abc def") = None.
Proof.
  split.
  - apply (proj1 (extractTokenFromHeader_spec (Some "Bearer abc.def.ghi") "abc.def.ghi")).
    split; reflexivity.
  - apply (proj2 (proj2 (proj2 (extractTokenFromHeader_spec None "abc def")))).
    reflexivity.
Defined.

(** ** Authentication and authorization *)

Lemma run_chain_total hooks st data :
  ∀ w, ∃ calls w', run_chain hooks st data w = (Ok calls, w').
Proof.
  induction hooks as [| h hooks IH]; intros w; simpl; [unfold ret; by eauto |].
  unfold mbind, M_bind, bind.
  assert (∃ calls w1, run_hook h st data w = (Ok calls, w1)) as (calls & w1 & Hh).
  { destruct h as [req key seconds condition vary | req patterns]; simpl.
    - destruct (condition req st && (200 <=? statusCode st)%Z && (statusCode st <? 300)%Z);
        run_M; eauto.
    - destruct ((200 <=? statusCode st)%Z && (statusCode st <? 300)%Z); unfold ret; eauto. }
  rewrite Hh. destruct (IH w1) as (more & w2 & Hrest). rewrite Hrest.
  unfold mret, M_ret, ret. eauto.
Qed.

Lemma refuse_run code body current res w :
  ∃ calls w',
    refuse code body current res w
    = (Ok {| granted := false; req_user := current;
             answer := on_state (originalJson body) (on_state (set_status code) res);
             answer_calls := calls |}, w').
Proof.
  unfold refuse, res_json. unfold mbind, M_bind, bind.
  destruct (run_chain_total (chain (on_state (set_status code) res))
              (state (on_state (set_status code) res)) body w) as (calls & w' & Hrun).
  rewrite Hrun. unfold mret, M_ret, ret. eauto.
Qed.

Lemma refused_with_refuse code error message current res calls :
  refused_with code error
    {| granted := false; req_user := current;
       answer := on_state (originalJson (api_failure error message))
                   (on_state (set_status code) res);
       answer_calls := calls |}.
Proof.
  unfold refused_with. cbn [answer state on_state]. rewrite originalJson_status.
  split; [done |]. by exists message.
Qed.

(** X20. [authenticate] never throws.  It calls [next()] exactly when the
    [Authorization] header is [Bearer], a space and a token that is not
    empty, has no space in it, and either is the legacy API token or is
    accepted by [jwt.verify]; [req.user] is then the legacy administrator
    or the user of the payload, and the response is untouched.  In every
    other case it answers 401 with the body of an [Unauthorized] failure and
    leaves [req.user] as it was. *)
Theorem authenticate_gate (env : AuthEnv) (authorization : option string)
    (current : option IUser) (res : Response) (w : World) :
  ∃ step w',
    authenticate env authorization current res w = (Ok step, w') ∧
    (granted step = true ->
       (∃ who, accepted env authorization who ∧ req_user step = Some who) ∧
       answer step = res ∧ answer_calls step = []) ∧
    (granted step = false ->
       (∀ who, ¬ accepted env authorization who) ∧
       req_user step = current ∧ refused_with 401 "Unauthorized" step).
Proof.
  unfold authenticate. unfold mbind at 1, M_bind at 1, bind at 1, try_catch.
  destruct (extractTokenFromHeader authorization) as [token |] eqn:Hex.
  - apply extractTokenFromHeader_Some in Hex as [-> Hclean].
    destruct (String.eqb token EmptyString) eqn:Hempty.
    + apply String.eqb_eq in Hempty as ->.
      destruct (refuse_run UNAUTHORIZED (api_failure "Unauthorized" NO_TOKEN) current res w)
        as (calls & w' & Hrun).
      unfold completed, mbind, M_bind, bind. rewrite Hrun. unfold mret, M_ret, ret.
      eexists _, _. split; [reflexivity |]. split; [done |]. intros _.
      split; [| split; [done | apply refused_with_refuse]].
      intros who (t & [= Ht] & _ & Hne & _). rewrite !append_nil in Ht. by subst.
    + apply String.eqb_neq in Hempty.
      destruct (String.eqb token (apiToken env)) eqn:Hlegacy.
      * apply String.eqb_eq in Hlegacy.
        unfold completed, proceed, mbind, M_bind, bind, mret, M_ret, ret.
        eexists _, _. split; [reflexivity |]. split; [| done]. intros _.
        split; [| done]. exists legacy_admin. split; [| done].
        exists token. repeat split; try done. by left.
      * apply String.eqb_neq in Hlegacy. unfold verifyAccessToken.
        destruct (jwt_verify env token) as [failure | payload] eqn:Hverify.
        -- destruct (refuse_run UNAUTHORIZED
                       (api_failure "Unauthorized"
                          (match failure with
                           | TokenExpired => "Access token has expired"
                           | JsonWebTokenFailure => "Invalid access token"
                           | OtherFailure => "Token verification failed"
                           end)) current res w) as (calls & w' & Hrun).
           exists {| granted := false; req_user := current;
                     answer := on_state (originalJson
                                           (api_failure "Unauthorized"
                                              (match failure with
                                               | TokenExpired => "Access token has expired"
                                               | JsonWebTokenFailure => "Invalid access token"
                                               | OtherFailure => "Token verification failed"
                                               end)))
                                 (on_state (set_status UNAUTHORIZED) res);
                     answer_calls := calls |}, w'.
           split.
           { destruct failure; unfold ret; simpl in *; exact Hrun. }
           split; [done |]. intros _.
           split; [| split; [done | apply refused_with_refuse]].
           intros who (t & [= Ht] & _ & _ & [[Hl _] | (_ & p & Hp & _)]);
             rewrite !append_nil in Ht; subst; congruence.
        -- unfold completed, proceed, log, modify, mbind, M_bind, bind, mret, M_ret, ret.
           eexists _, _. split; [reflexivity |]. split; [| done]. intros _.
           split; [| done]. exists (user_of payload). split; [| done].
           exists token. repeat split; try done. right. split; [done |]. by exists payload.
  - destruct (refuse_run UNAUTHORIZED (api_failure "Unauthorized" NO_TOKEN) current res w)
      as (calls & w' & Hrun).
    unfold completed, mbind, M_bind, bind. rewrite Hrun. unfold mret, M_ret, ret.
    eexists _, _. split; [reflexivity |]. split; [done |]. intros _.
    split; [| split; [done | apply refused_with_refuse]].
    intros who (t & Hh & Hc & _).
    assert (extractTokenFromHeader authorization = Some t) as H
      by (by apply extractTokenFromHeader_Some).
    congruence.
Qed.

Lemma authenticate_gate_witness :
  (∃ w', authenticate sample_env (Some "Bearer default-dev-token") None fresh_response blank
         = (Ok {| granted := true; req_user := Some legacy_admin;
                  answer := fresh_response; answer_calls := [] |}, w')) ∧
  ∃ step w',
    authenticate sample_env (Some "Bearer forged") None fresh_response blank = (Ok step, w') ∧
    granted step = false ∧ refused_with 401 "Unauthorized" step.
Proof.
  split.
  - destruct (authenticate_gate sample_env (Some "Bearer default-dev-token") None
                fresh_response blank) as (step & w' & Hrun & Hyes & _).
    exists w'. rewrite Hrun. vm_compute in Hrun. injection Hrun as <- <-. reflexivity.
  - destruct (authenticate_gate sample_env (Some "Bearer forged") None fresh_response blank)
      as (step & w' & Hrun & _ & Hno).
    exists step, w'. split; [exact Hrun |].
    assert (granted step = false) as Hg.
    { vm_compute in Hrun. injection Hrun as <- _. reflexivity. }
    split; [exact Hg |]. exact (proj2 (proj2 (Hno Hg))).
Defined.

(** X21. [optionalAuthenticate] always calls [next()]: it never answers,
    never throws and leaves the world as it was.  [req.user] is set from
    the payload when the header carries a token that is not empty and that
    [jwt.verify] accepts, and is left as it was otherwise; the legacy API
    token is not looked at. *)
Theorem optionalAuthenticate_passes (env : AuthEnv) (authorization : option string)
    (current : option IUser) (res : Response) (w : World) :
  ∃ who,
    optionalAuthenticate env authorization current res w
    = (Ok {| granted := true; req_user := who; answer := res; answer_calls := [] |}, w) ∧
    (∀ token payload,
       authorization = Some ("Bearer " ++ token) -> has_char " " token = false ->
       token ≠ EmptyString -> jwt_verify env token = inr payload ->
       who = Some (user_of payload)) ∧
    ((∀ token payload,
        authorization = Some ("Bearer " ++ token) -> has_char " " token = false ->
        token ≠ EmptyString -> jwt_verify env token ≠ inr payload) ->
     who = current).
Proof.
  unfold optionalAuthenticate, try_catch.
  destruct (extractTokenFromHeader authorization) as [token |] eqn:Hex.
  - apply extractTokenFromHeader_Some in Hex as [-> Hclean].
    destruct (String.eqb token EmptyString) eqn:Hempty.
    + apply String.eqb_eq in Hempty as ->. exists current. split; [done |]. split; [| done].
      intros t p [= Ht] _ Hne _. rewrite !append_nil in Ht. by subst.
    + apply String.eqb_neq in Hempty. unfold verifyAccessToken.
      destruct (jwt_verify env token) as [failure | payload] eqn:Hverify.
      * exists current. split; [by destruct failure |]. split; [| done].
        intros t p [= Ht] _ _ Hp. rewrite !append_nil in Ht. subst. congruence.
      * exists (Some (user_of payload)). split; [done |]. split.
        -- intros t p [= Ht] _ _ Hp. rewrite !append_nil in Ht. subst. congruence.
        -- intros Hnone. by destruct (Hnone token payload eq_refl Hclean Hempty).
  - exists current. split; [done |]. split; [| done].
    intros t p Hh Hc _ _.
    assert (extractTokenFromHeader authorization = Some t) as H
      by (by apply extractTokenFromHeader_Some).
    congruence.
Qed.

Lemma optionalAuthenticate_passes_witness :
  optionalAuthenticate sample_env (Some "Bearer default-dev-token") None fresh_response blank
  = (Ok {| granted := true; req_user := None; answer := fresh_response;
           answer_calls := [] |}, blank).
Proof.
  destruct (optionalAuthenticate_passes sample_env (Some "Bearer default-dev-token") None
              fresh_response blank) as (who & Hrun & _ & Hnone).
  rewrite Hrun. rewrite Hnone; [reflexivity |].
  intros token payload [= Ht] _ _. rewrite !append_nil in Ht. subst. discriminate.
Defined.

(** X22. [authorize(...allowedRoles)] calls [next()] exactly when
    [req.user] is set and its role is one of the allowed roles, and then
    changes nothing.  It answers 401 when no user is set and 403 when the
    role of the user is not allowed; [req.user] is left as it was. *)
Theorem authorize_gate (allowedRoles : list string) (current : option IUser)
    (res : Response) (w : World) :
  ∃ step w',
    authorize allowedRoles current res w = (Ok step, w') ∧
    req_user step = current ∧
    (granted step = true <-> ∃ who, current = Some who ∧ role who ∈ allowedRoles) ∧
    (granted step = true -> answer step = res ∧ answer_calls step = [] ∧ w' = w) ∧
    (current = None -> refused_with 401 "Unauthorized" step) ∧
    (∀ who, current = Some who -> role who ∉ allowedRoles ->
       refused_with 403 "Forbidden" step).
Proof.
  unfold authorize. destruct current as [who |].
  - destruct (existsb (String.eqb (role who)) allowedRoles) eqn:Hrole; cbn [negb].
    + assert (role who ∈ allowedRoles) as Hin.
      { apply existsb_exists in Hrole as (r & Hin & Hr). apply String.eqb_eq in Hr as ->.
        by apply list_elem_of_In. }
      unfold proceed, ret. eexists _, _. split; [reflexivity |]. split; [done |].
      split; [split; [by eauto | done] |]. split; [done |]. split; [done |].
      intros who' [= <-] Hnot. by destruct Hnot.
    + assert (role who ∉ allowedRoles) as Hnot.
      { intros Hin. apply list_elem_of_In in Hin.
        assert (existsb (String.eqb (role who)) allowedRoles = true) as H.
        { apply existsb_exists. exists (role who). split; [done | apply String.eqb_refl]. }
        congruence. }
      destruct (refuse_run FORBIDDEN (api_failure "Forbidden" INSUFFICIENT_PERMISSIONS)
                  (Some who) res (with_sink (Logged Warn "Insufficient permissions") w))
        as (calls & w' & Hrun).
      unfold log, modify, mbind, M_bind, bind. rewrite Hrun.
      eexists _, _. split; [reflexivity |]. split; [done |].
      split; [split; [done | by intros (who' & [= <-] & Hin)] |].
      split; [done |]. split; [done |]. intros who' _ _. apply refused_with_refuse.
  - destruct (refuse_run UNAUTHORIZED (api_failure "Unauthorized" "User not authenticated")
                None res w) as (calls & w' & Hrun).
    rewrite Hrun. eexists _, _. split; [reflexivity |]. split; [done |].
    split; [split; [done | by intros (who & [=] & _)] |].
    split; [done |]. split; [intros _; apply refused_with_refuse | done].
Qed.

Lemma authorize_gate_witness :
  ∃ step w',
    authorize ["admin"; "triager"]
      (Some {| user_id := "u-9"; email := "v@example.org"; role := "viewer" |})
      fresh_response blank = (Ok step, w') ∧
    refused_with 403 "Forbidden" step.
Proof.
  destruct (authorize_gate ["admin"; "triager"]
              (Some {| user_id := "u-9"; email := "v@example.org"; role := "viewer" |})
              fresh_response blank) as (step & w' & Hrun & _ & _ & _ & _ & Hno).
  exists step, w'. split; [exact Hrun |].
  apply (Hno _ eq_refl). simpl. intros Hin.
  apply elem_of_cons in Hin as [Hin | Hin]; [discriminate Hin |].
  apply list_elem_of_singleton in Hin. discriminate Hin.
Defined.

(** ** The history of a metric *)

Lemma push_bounded_last_n {A} (x : A) (h : list A) :
  length h <= Metrics.maxMetricsHistory ->
  Metrics.push_bounded x h = last_n Metrics.maxMetricsHistory (h ++ [x]).
Proof.
  intros Hlen. unfold Metrics.push_bounded, last_n.
  rewrite length_app. simpl length.
  destruct (Metrics.maxMetricsHistory <? length h + 1)%nat eqn:Hfull.
  - apply Nat.ltb_lt in Hfull.
    replace (length h + 1 - Metrics.maxMetricsHistory) with 1 by lia.
    by destruct (h ++ [x])%list.
  - apply Nat.ltb_ge in Hfull.
    replace (length h + 1 - Metrics.maxMetricsHistory) with 0 by lia. done.
Qed.

Lemma last_n_length {A} n (l : list A) : length (last_n n l) <= n.
Proof. unfold last_n. rewrite length_drop. lia. Qed.

Lemma last_n_app_last_n {A} n (h l : list A) :
  last_n n (last_n n h ++ l) = last_n n (h ++ l).
Proof.
  unfold last_n. rewrite !length_app, length_drop.
  rewrite <- (drop_app_le h l (length h - n)) by lia.
  rewrite drop_drop. f_equal. lia.
Qed.

Lemma last_n_short {A} n (l : list A) : length l <= n -> last_n n l = l.
Proof. intros H. unfold last_n. by replace (length l - n) with 0 by lia. Qed.

Lemma record_all_history ms : ∀ c name,
  (∀ h, Metrics.metrics c !! name = Some h -> length h <= Metrics.maxMetricsHistory) ->
  Metrics.metrics (fold_left (fun c m => record_one m c) ms c) !! name
  = match filter (fun m => named name m = true) ms with
    | [] => Metrics.metrics c !! name
    | own => Some (last_n Metrics.maxMetricsHistory
                     (default [] (Metrics.metrics c !! name) ++ own))
    end.
Proof.
  induction ms as [| m ms IH]; intros c name Hc; [done |].
  cbn [fold_left]. rewrite IH.
  - unfold named at 2. destruct (String.eqb (Metrics.metric_name m) name) eqn:Hname.
    + apply String.eqb_eq in Hname.
      rewrite filter_cons_True by (unfold named; by apply String.eqb_eq).
      unfold record_one at 1 2, Metrics.recordMetric. cbn [Metrics.metrics].
      rewrite Hname, !lookup_insert_eq. cbn [default].
      assert (length (default [] (Metrics.metrics c !! name)) <= Metrics.maxMetricsHistory)
        as Hlen.
      { destruct (Metrics.metrics c !! name) as [h |] eqn:Hh; [by apply Hc | simpl; lia]. }
      rewrite push_bounded_last_n by done.
      destruct m as [n v u t tg]. cbn [Metrics.metric_name] in Hname. subst n.
      cbn [Metrics.metric_name Metrics.metric_value Metrics.metric_unit
             Metrics.metric_timestamp Metrics.metric_tags].
      set (m := {| Metrics.metric_name := name |}).
      destruct (filter (fun m => named name m = true) ms) as [| m' own] eqn:Hown.
      * done.
      * unfold id. rewrite last_n_app_last_n. by rewrite <- app_assoc.
    + rewrite filter_cons_False by (unfold named; rewrite Hname; done).
      apply String.eqb_neq in Hname.
      unfold record_one at 1 2, Metrics.recordMetric. cbn [Metrics.metrics].
      by rewrite !lookup_insert_ne.
  - intros h. unfold record_one, Metrics.recordMetric. cbn [Metrics.metrics].
    destruct (decide (Metrics.metric_name m = name)) as [<- | Hne].
    + rewrite lookup_insert_eq. intros [= <-].
      assert (length (default [] (Metrics.metrics c !! Metrics.metric_name m))
              <= Metrics.maxMetricsHistory) as Hlen.
      { destruct (Metrics.metrics c !! Metrics.metric_name m) as [h |] eqn:Hh;
          [by apply Hc | simpl; lia]. }
      rewrite push_bounded_last_n by done. apply last_n_length.
    + rewrite lookup_insert_ne by done. apply Hc.
Qed.

(** X23. Starting from an empty collector, after any sequence of calls of
    [recordMetric] the history kept under a name is made of the last 1000
    metrics recorded under that name, in the order of the calls (all of
    them when they are at most 1000); it never holds more than 1000. *)
Theorem recordMetric_history (ms : list Metrics.MetricData) (name : string) :
  let c := fold_left (fun c m => record_one m c) ms Metrics.reset in
  let own := filter (fun m => named name m = true) ms in
  Metrics.getMetrics name c = last_n Metrics.maxMetricsHistory own ∧
  length (Metrics.getMetrics name c) <= Metrics.maxMetricsHistory ∧
  (length own <= Metrics.maxMetricsHistory -> Metrics.getMetrics name c = own).
Proof.
  simpl. unfold Metrics.getMetrics.
  rewrite (record_all_history ms Metrics.reset name)
    by (intros h; cbn [Metrics.metrics Metrics.reset]; by rewrite lookup_empty).
  cbn [Metrics.metrics Metrics.reset]. rewrite lookup_empty. cbn [default app].
  destruct (filter (fun m => named name m = true) ms) as [| m own] eqn:Hown.
  - split; [reflexivity |]. split; [| done]. simpl. unfold Metrics.maxMetricsHistory. lia.
  - simpl default. unfold id.
    split; [done |]. split; [apply last_n_length | apply last_n_short].
Qed.

(** ** Requests seen by the collector *)

Lemma observe_fields call c :
  Metrics.requestCount (observe call c) = S (Metrics.requestCount c) ∧
  Metrics.errorCount (observe call c)
  = (if failed call then S (Metrics.errorCount c) else Metrics.errorCount c) ∧
  Metrics.requestDuration (observe call c)
  = Metrics.push_bounded (snd (fst call)) (Metrics.requestDuration c).
Proof.
  destruct call as [[sample duration] [[date1 date2] date3]].
  unfold observe, failed, Metrics.recordHttpRequest. cbn [fst snd].
  destruct (400 <=? Metrics.sample_status sample)%Z; done.
Qed.

Lemma observe_all calls : ∀ c,
  length (Metrics.requestDuration c) <= Metrics.maxMetricsHistory ->
  let c' := fold_left (fun c call => observe call c) calls c in
  Metrics.requestCount c' = Metrics.requestCount c + length calls ∧
  Metrics.errorCount c'
  = Metrics.errorCount c + length (filter (fun call => failed call = true) calls) ∧
  Metrics.requestDuration c'
  = last_n Metrics.maxMetricsHistory
      (Metrics.requestDuration c ++ map (fun call => snd (fst call)) calls).
Proof.
  induction calls as [| call calls IH]; intros c Hlen.
  - simpl. rewrite app_nil_r, last_n_short by done. repeat split; lia.
  - cbn [fold_left]. destruct (observe_fields call c) as (Hn & He & Hd).
    destruct (IH (observe call c)) as (IHn & IHe & IHd).
    { rewrite Hd, push_bounded_last_n by done. apply last_n_length. }
    cbn zeta in *. rewrite IHn, IHe, IHd, Hn, He, Hd.
    rewrite push_bounded_last_n by done. rewrite last_n_app_last_n, <- app_assoc.
    cbn [map length app]. split; [lia |]. split; [| done].
    destruct (failed call) eqn:Hf.
    + rewrite filter_cons_True by done. simpl. lia.
    + rewrite filter_cons_False by (rewrite Hf; done). lia.
Qed.

(** X24. Starting from an empty collector, after any sequence of calls of
    [recordHttpRequest]: [requestCount] is the number of calls; [errorCount]
    is the number of calls whose status code was 400 or more, so that it
    never exceeds [requestCount]; [requestDuration] holds the durations of
    the last 1000 calls, in order. *)
Theorem recordHttpRequest_counts (calls : list (Metrics.HttpSample * Z * (Z * Z * Z))) :
  let c := fold_left (fun c call => observe call c) calls Metrics.reset in
  Metrics.requestCount c = length calls ∧
  Metrics.errorCount c = length (filter (fun call => failed call = true) calls) ∧
  Metrics.errorCount c <= Metrics.requestCount c ∧
  Metrics.requestDuration c
  = last_n Metrics.maxMetricsHistory (map (fun call => snd (fst call)) calls) ∧
  length (Metrics.requestDuration c) <= Metrics.maxMetricsHistory.
Proof.
  destruct (observe_all calls Metrics.reset) as (Hn & He & Hd).
  { simpl. unfold Metrics.maxMetricsHistory. lia. }
  cbn zeta in *. cbn [Metrics.reset Metrics.requestCount Metrics.errorCount
                        Metrics.requestDuration app] in *.
  rewrite Hn, He, Hd. simpl. split; [done |]. split; [done |].
  split; [apply length_filter |]. split; [done | apply last_n_length].
Qed.

(** ** Percentiles *)

Lemma sorted_le_before (l : list Z) i r :
  StronglySorted Z.le l -> l !! i = Some r ->
  Forall (fun v => (v <= r)%Z) (take i l) ∧ Forall (fun v => (r <= v)%Z) (drop (S i) l).
Proof.
  intros Hs Hi. rewrite <- (take_drop_middle l i r Hi) in Hs.
  apply StronglySorted_app in Hs as (Hcross & _ & Htail).
  apply StronglySorted_inv in Htail as [_ Hafter].
  split; [| done].
  apply Forall_forall. intros v Hv. apply (Hcross v r Hv). apply list_elem_of_here.
Qed.

Lemma filter_all {A} (P : A -> Prop) `{∀ x, Decision (P x)} (l : list A) :
  Forall P l -> filter P l = l.
Proof.
  induction 1 as [| x l Hx _ IH]; [done |]. rewrite filter_cons_True by done. by rewrite IH.
Qed.

Lemma filter_none {A} (P : A -> Prop) `{∀ x, Decision (P x)} (l : list A) :
  Forall (fun x => ¬ P x) l -> filter P l = [].
Proof.
  induction 1 as [| x l Hx _ IH]; [done |]. by rewrite filter_cons_False.
Qed.

(** X25. For the percentiles 95 and 99 and a list of at most 1000
    durations, as the collector keeps them: [calculatePercentile] returns 0
    for an empty list; for a list that is not empty it returns one of the
    durations, chosen by nearest rank: at least [percentile] percent of the
    durations are not above it, and less than [percentile] percent of them
    are below it. *)
Theorem calculatePercentile_nearest_rank (values : list Z) (percentile : Z) :
  percentile = 95%Z ∨ percentile = 99%Z ->
  length values <= Metrics.maxMetricsHistory ->
  (values = [] -> Metrics.calculatePercentile values percentile = 0%Z) ∧
  (values ≠ [] ->
   let r := Metrics.calculatePercentile values percentile in
   r ∈ values ∧
   (percentile * Z.of_nat (length values)
    <= 100 * Z.of_nat (length (filter (fun v => (v <= r)%Z) values)))%Z ∧
   (100 * Z.of_nat (length (filter (fun v => (v < r)%Z) values))
    < percentile * Z.of_nat (length values))%Z).
Proof.
  intros Hwhich _.
  assert (0 < percentile <= 100)%Z as Hp by (destruct Hwhich as [-> | ->]; lia).
  clear Hwhich. split.
  { intros ->. unfold Metrics.calculatePercentile.
    change (merge_sort Z.le []) with (@nil Z). cbn [length Z.of_nat].
    by rewrite Z.mul_0_r. }
  intros Hne. cbn zeta.
  unfold Metrics.calculatePercentile.
  set (sorted := merge_sort Z.le values).
  assert (sorted ≡ₚ values) as Hperm by apply merge_sort_Permutation.
  assert (StronglySorted Z.le sorted) as Hsorted.
  { apply StronglySorted_merge_sort; [intros x y z; apply Z.le_trans | apply _]. }
  assert (length sorted = length values) as Hlen by (by rewrite Hperm).
  assert (0 < length values) as Hpos by (destruct values; [done | simpl; lia]).
  set (n := Z.of_nat (length sorted)).
  assert (0 < n)%Z as Hn by (unfold n; lia).
  set (k := ((percentile * n + 99) / 100)%Z).
  assert (1 <= k <= n)%Z as Hk.
  { assert (1 <= percentile * n)%Z as Hlow by nia.
    assert (percentile * n <= 100 * n)%Z as Hhigh by nia.
    unfold k. split.
    - apply Z.div_le_lower_bound; lia.
    - assert ((percentile * n + 99) / 100 < n + 1)%Z; [| lia].
      apply Z.div_lt_upper_bound; lia. }
  assert (percentile * n <= 100 * k)%Z as Hceil.
  { unfold k. pose proof (Z.mul_div_le (percentile * n + 99) 100 ltac:(lia)).
    pose proof (Z.mod_pos_bound (percentile * n + 99) 100 ltac:(lia)).
    pose proof (Z.div_mod (percentile * n + 99) 100 ltac:(lia)). lia. }
  assert (100 * (k - 1) < percentile * n)%Z as Hfloor.
  { unfold k. pose proof (Z.mul_div_le (percentile * n + 99) 100 ltac:(lia)). lia. }
  clearbody k.
  destruct (k - 1 <? 0)%Z eqn:Hneg; [apply Z.ltb_lt in Hneg; lia |].
  set (i := Z.to_nat (k - 1)).
  destruct (lookup_lt_is_Some_2 sorted i) as [r Hr]; [unfold i, n in *; lia |].
  rewrite Hr. cbn [default from_option]. unfold id.
  destruct (sorted_le_before sorted i r Hsorted Hr) as [Hbefore Hafter].
  split; [| split].
  - rewrite <- Hperm. by apply (list_elem_of_lookup_2 sorted i).
  - rewrite <- (filter_Permutation (fun v => (v <= r)%Z) _ _ Hperm).
    rewrite <- (take_drop_middle sorted i r Hr).
    rewrite filter_app, filter_cons_True by lia.
    rewrite (filter_all _ _ Hbefore).
    rewrite length_app, length_take. cbn [length].
    assert (i < length sorted) by (by apply lookup_lt_Some in Hr).
    fold n in Hceil. unfold n in *. rewrite <- Hlen. unfold i in *. lia.
  - rewrite <- (filter_Permutation (fun v => (v < r)%Z) _ _ Hperm).
    rewrite <- (take_drop_middle sorted i r Hr).
    rewrite filter_app, filter_cons_False by lia.
    rewrite (filter_none (fun v => (v < r)%Z) (drop (S i) sorted)).
    + rewrite app_nil_r.
      pose proof (length_filter (fun v => (v < r)%Z) (take i sorted)) as Hf.
      rewrite length_take in Hf.
      unfold n in *. rewrite <- Hlen. unfold i in *. lia.
    + eapply Forall_impl; [exact Hafter |]. intros v Hv. simpl in *. lia.
Qed.

Lemma calculatePercentile_nearest_rank_witness :
  Metrics.calculatePercentile [30; 10; 20; 50; 40]%Z 95 ∈ [30; 10; 20; 50; 40]%Z.
Proof.
  apply (proj2 (calculatePercentile_nearest_rank [30; 10; 20; 50; 40]%Z 95
                  (or_introl eq_refl) ltac:(simpl; unfold Metrics.maxMetricsHistory; lia))).
  discriminate.
Defined.

(** ** What the logger redacts and writes *)

Lemma sensitive_error : sensitive "error" = false.
Proof. reflexivity. Qed.

Lemma redact_serialize kv :
  serialize_error (redact kv) =
  if sensitive (fst kv) then (fst kv, REDACTED)
  else if String.eqb (fst kv) "error" then (fst kv, error_fields (snd kv)) else kv.
Proof.
  unfold redact, serialize_error. destruct (sensitive (fst kv)) eqn:Hs; [| done].
  cbn [fst snd]. destruct (String.eqb (fst kv) "error") eqn:He; [| done].
  apply String.eqb_eq in He. rewrite He in Hs. discriminate.
Qed.

Lemma error_fields_idem v : error_fields (error_fields v) = error_fields v.
Proof. by destruct v. Qed.

(** X26. [sanitizeContext] keeps the keys of the context and their order.
    The value of every key whose lower-case form contains [password],
    [token], [secret], [key] or [authorization] is replaced by
    ["[REDACTED]"]; an [Error] under the key [error] is replaced by its
    fields; the value of every other key that is ASCII text is kept as it
    is, whatever it contains.  Sanitizing a second time changes nothing
    more. *)
Theorem sanitizeContext_redacts (context : LogContext) :
  ∃ sanitized,
    sanitizeContext (Some context) = Some sanitized ∧
    map fst sanitized = map fst context ∧
    (∀ key value, (key, value) ∈ sanitized -> sensitive key = true -> value = REDACTED) ∧
    (∀ key value, (key, value) ∈ context -> ascii_text key = true ->
       sensitive key = false -> key ≠ "error" -> (key, value) ∈ sanitized) ∧
    (∀ name message stack, ("error", ErrorObject name message stack) ∉ sanitized) ∧
    sanitizeContext (Some sanitized) = Some sanitized.
Proof.
  exists (map (fun kv => serialize_error (redact kv)) context).
  split; [simpl; by rewrite map_map |].
  split; [| split; [| split; [| split]]].
  - rewrite map_map. apply map_ext. intros kv. rewrite redact_serialize.
    destruct (sensitive (fst kv)); [done |]. by destruct (String.eqb (fst kv) "error").
  - intros key value Hin Hs. apply list_elem_of_fmap in Hin as (kv & Heq & _).
    cbv beta in Heq. rewrite redact_serialize in Heq.
    destruct (sensitive (fst kv)) eqn:Hkv; [by injection Heq as _ -> |].
    destruct (String.eqb (fst kv) "error"); [injection Heq as -> _ | subst kv; simpl in *];
      congruence.
  - intros key value Hin _ Hs Hne. apply list_elem_of_fmap. exists (key, value).
    split; [| done]. rewrite redact_serialize. cbn [fst snd]. rewrite Hs.
    apply String.eqb_neq in Hne. by rewrite Hne.
  - intros name message stack Hin. apply list_elem_of_fmap in Hin as (kv & Heq & _).
    cbv beta in Heq. rewrite redact_serialize in Heq.
    destruct (sensitive (fst kv)) eqn:Hkv; [discriminate |].
    destruct (String.eqb (fst kv) "error") eqn:He.
    + injection Heq as _ Hv. by destruct (snd kv).
    + subst kv. simpl in He. discriminate.
  - simpl. f_equal. rewrite !map_map. apply map_ext. intros kv.
    rewrite !redact_serialize.
    destruct (sensitive (fst kv)) eqn:Hkv; cbn [fst snd].
    + by rewrite Hkv.
    + destruct (String.eqb (fst kv) "error") eqn:He; cbn [fst snd]; rewrite Hkv, He.
      * by rewrite error_fields_idem.
      * done.
Qed.

(** X27. Whatever [LOG_LEVEL] is set to, an entry at level [error] is
    written.  An entry at level [debug] is written only when the setting is
    [debug], in any letter case.  A setting that names no level behaves as
    [info].  A level that is written lets every more severe level be
    written too. *)
Theorem log_level_filter (configured : string) :
  shouldLog (parseLogLevel configured) ERROR = true ∧
  (shouldLog (parseLogLevel configured) DEBUG = true <-> lower configured = "debug") ∧
  (lower configured ≠ "error" -> lower configured ≠ "warn" -> lower configured ≠ "debug" ->
   parseLogLevel configured = INFO) ∧
  (∀ level level', (level_rank level' <= level_rank level)%Z ->
     shouldLog (parseLogLevel configured) level = true ->
     shouldLog (parseLogLevel configured) level' = true).
Proof.
  unfold parseLogLevel.
  destruct (String.eqb (lower configured) "error") eqn:He;
    [| destruct (String.eqb (lower configured) "warn") eqn:Hw;
       [| destruct (String.eqb (lower configured) "info") eqn:Hi;
          [| destruct (String.eqb (lower configured) "debug") eqn:Hd]]];
    repeat match goal with
           | H : String.eqb _ _ = true |- _ => apply String.eqb_eq in H
           | H : String.eqb _ _ = false |- _ => apply String.eqb_neq in H
           end;
    (split; [reflexivity |]); (split; [split; [try discriminate | try congruence] |]);
    try done; try (split; [try congruence; try done |]);
    try (intros level level' Hle; unfold shouldLog; rewrite !Z.leb_le; simpl; lia).
Qed.
